(** * MusicLetter: the event log, the palette, the layout engine and the
      playback scheduler

    A shallow embedding of the core of MusicLetter's single script (the
    feature-complete revision; the legacy revision has the same
    [buildKeyToNote] and [nextCaretPosition], and the same [deleteLast] up
    to the final cursor update), together with its key handler and the
    other inputs of a session, the themes and playhead styles, the arcs of
    the playback, the height of the container, the WAV export with its
    encoder, and the key handler of the legacy revision.

    Numbers.  The numbers of the script are IEEE 754 doubles.  Two models
    of them are used.  Where a statement repeats expressions of the script
    or does not turn on rounding, a number is an exact rational of [Q]:
    sums, differences, products, [Math.max], [Math.min] and comparisons
    are the exact ones, and equality of numbers is [Qeq], written [==].
    Where rounding decides (the gaps of the schedule, the right edge of a
    glyph, the height of a line) the routines are modelled a second time,
    in the module [Binary64], with every sum, difference, product and
    quotient rounded to the nearest double by [round64]; the statements
    about gaps and edges are made of that model.  A division is the one
    place where a number can leave the rationals (a zero divisor gives
    [Infinity] or [NaN]); [jsdiv] reports that case as [None]. *)

From Stdlib Require Import Ascii String QArith Qabs Qminmax Qround Qpower Lqa.
From stdpp Require Import gmap strings list.

Local Open Scope string_scope.
Local Open Scope list_scope.
Local Open Scope Q_scope.

(** ** JavaScript values that the script stores in note slots *)

(** The value of a note slot: a pitch name, [null] or [undefined]. *)
Inductive jsnote : Type :=
| Note (name : string)
| JsNull
| JsUndefined.

(** Truthiness, as in [filter(e => e.note)] and [if (value.note)]. *)
Definition truthy (n : jsnote) : bool :=
  match n with
  | Note EmptyString => false
  | Note _ => true
  | JsNull | JsUndefined => false
  end.

(** [a ?? b] on note slots. *)
Definition nullish_or (a : option jsnote) (b : jsnote) : jsnote :=
  match a with
  | Some (Note n) => Note n
  | Some JsNull | Some JsUndefined | None => b
  end.

(** The one-character strings the script tests for. *)
Definition newline : string := String "010"%char EmptyString.
Definition space : string := " ".

(** [a / b], with a zero divisor reported. *)
Definition jsdiv (a b : Q) : option Q :=
  if Qeq_dec b 0 then None else Some (a / b).

(** ** Palettes and the key-to-note mapping *)

(** [const palettes = { majorC: [...], minorA: [...], pentatonicC: [...] }]:
    the own properties of the object literal. *)
Definition palettes : gmap string (list string) :=
  <[ "majorC" := ["C4"; "D4"; "E4"; "F4"; "G4"; "A4"; "B4"; "C5"] ]>
  (<[ "minorA" := ["A3"; "B3"; "C4"; "D4"; "E4"; "F4"; "G4"; "A4"] ]>
  (<[ "pentatonicC" := ["C4"; "D4"; "E4"; "G4"; "A4"; "C5"] ]> ∅)).

(** [palettes] is an object literal, so the read [palettes[paletteName]]
    also finds what every object inherits from [Object.prototype].  Each
    inherited member is a function, or for [__proto__] the prototype object
    itself: a truthy value with no indexed elements. *)
Definition objectPrototypeMembers : list string :=
  [ "constructor"; "__proto__"; "hasOwnProperty"; "isPrototypeOf";
    "propertyIsEnumerable"; "toLocaleString"; "toString"; "valueOf";
    "__defineGetter__"; "__defineSetter__"; "__lookupGetter__";
    "__lookupSetter__" ].

(** What the local [pool] of [buildKeyToNote] can hold. *)
Inductive poolval : Type :=
| PoolArray (notes : list string)
| PoolInherited (member : string).

(** [palettes[paletteName] || palettes.majorC].  An array is truthy even
    when empty, and so is every inherited member; only a missing property
    ([undefined]) falls through to [palettes.majorC]. *)
Definition poolOf (paletteName : string) : poolval :=
  match palettes !! paletteName with
  | Some notes => PoolArray notes
  | None =>
      if bool_decide (paletteName ∈ objectPrototypeMembers)
      then PoolInherited paletteName
      else PoolArray (default [] (palettes !! "majorC"))
  end.

(** [pool[i % pool.length]].  On an array, a zero length makes the index
    [NaN] and the read [undefined]; an inherited member has no element
    under any index. *)
Definition poolAt (pool : poolval) (i : nat) : jsnote :=
  match pool with
  | PoolArray notes =>
      if bool_decide (length notes = 0%nat) then JsUndefined
      else match notes !! (i mod length notes)%nat with
           | Some n => Note n
           | None => JsUndefined
           end
  | PoolInherited _ => JsUndefined
  end.

Definition letters : string := "abcdefghijklmnopqrstuvwxyz".

(** [letters[i]] as a one-character key. *)
Definition letterKey (i : nat) : option string :=
  match String.get i letters with
  | Some c => Some (String c EmptyString)
  | None => None
  end.

(** The body of the [for] loop of [buildKeyToNote], for one index. *)
Definition assignLetter (pool : poolval) (mapping : gmap string jsnote) (i : nat)
  : gmap string jsnote :=
  match letterKey i with
  | Some k => <[ k := poolAt pool i ]> mapping
  | None => mapping
  end.

(** [buildKeyToNote(paletteName)]. *)
Definition buildKeyToNote (paletteName : string) : gmap string jsnote :=
  let pool := poolOf paletteName in
  let mapping := foldl (assignLetter pool) ∅ (seq 0 (String.length letters)) in
  <[ newline := JsNull ]> (<[ space := JsNull ]> mapping).

(** [state.keyToNote[lower] ?? null], the read in [handleKeyDown]. *)
Definition noteForKey (keyToNote : gmap string jsnote) (lower : string) : jsnote :=
  nullish_or (keyToNote !! lower) JsNull.

(** ** Events and the container's metrics *)

(** One entry of [state.events]: [{ char, note, time, x, y }]. *)
Record event : Type := mkEvent {
  ev_char : string;
  ev_note : jsnote;
  ev_time : Q;
  ev_x : Q;
  ev_y : Q
}.

(** What the layout code reads from the text container and its computed
    style.  [parseFloat] of a style value is a number or [NaN] ([None]);
    [glyphWidth text] is the width of a hidden measuring span whose
    [textContent] is [text]. *)
Record container : Type := mkContainer {
  rectWidth : Q;
  styleFontSize : option Q;
  styleLetterSpacing : option Q;
  glyphWidth : string -> Q
}.

(** [parseFloat(style.fontSize) || 24]: [NaN] and [0] are falsy. *)
Definition fontSizeOf (c : container) : Q :=
  match styleFontSize c with
  | Some f => if Qeq_dec f 0 then 24 else f
  | None => 24
  end.

(** [fontSize * 1.4]. *)
Definition lineHeightOf (c : container) : Q := fontSizeOf c * 1.4.

(** [Number.isFinite(letterSpacingPx) ? letterSpacingPx : 0]. *)
Definition letterSpacingOf (c : container) : Q :=
  match styleLetterSpacing c with
  | Some s => s
  | None => 0
  end.

(** [measureChar(container, ch, style)]: the measured text is the empty
    string for a newline, ['M'] for an empty [ch], else [ch]; the letter
    spacing is added except for a space. *)
Definition measureChar (c : container) (ch : string) : Q :=
  let text :=
    if bool_decide (ch = newline) then EmptyString
    else if bool_decide (ch = EmptyString) then "M" else ch in
  glyphWidth c text + (if bool_decide (ch = space) then 0 else letterSpacingOf c).

(** ** The aligned layout routine *)

Inductive alignment : Type := AlignLeft | AlignCenter | AlignRight | AlignJustify.

Record position : Type := mkPos { pos_x : Q; pos_y : Q }.

Record glyph : Type := mkGlyph { g_char : string; g_width : Q }.

(** One entry of the local [lines] array: [{ glyphs, total }]. *)
Record line : Type := mkLine { glyphs : list glyph; total : Q }.

(** The mutable locals of the first loop of [layoutEventsAligned]. *)
Record lineBuilder : Type := mkBuilder {
  lines : list line;
  currentLine : list glyph;
  currentWidth : Q
}.

Definition emptyBuilder : lineBuilder := mkBuilder [] [] 0.

(** [lines.push({ glyphs: currentLine, total: currentWidth });
     currentLine = []; currentWidth = 0]. *)
Definition pushLine (b : lineBuilder) : lineBuilder :=
  mkBuilder (lines b ++ [mkLine (currentLine b) (currentWidth b)]) [] 0.

(** [currentLine.push({ char, width: w }); currentWidth += w]. *)
Definition pushGlyph (b : lineBuilder) (ch : string) (w : Q) : lineBuilder :=
  mkBuilder (lines b) (currentLine b ++ [mkGlyph ch w]) (currentWidth b + w).

(** The guard [currentLine.length > 0 && currentWidth + w > maxWidth]. *)
Definition wraps (maxWidth : Q) (b : lineBuilder) (w : Q) : bool :=
  match currentLine b with
  | [] => false
  | _ :: _ => if Qlt_le_dec maxWidth (currentWidth b + w) then true else false
  end.

(** One iteration of [for (const ev of events)]. *)
Definition lineStep (c : container) (b : lineBuilder) (ev : event) : lineBuilder :=
  if bool_decide (ev_char ev = newline) then pushLine b
  else
    let w := measureChar c (ev_char ev) in
    let b' := if wraps (rectWidth c) b w then pushLine b else b in
    pushGlyph b' (ev_char ev) w.

(** The first loop and the [lines.push] that follows it. *)
Definition buildLines (c : container) (events : list event) : list line :=
  lines (pushLine (foldl (lineStep c) emptyBuilder events)).

(** The start offset and the extra gap of one non-empty line:
    [(startX, extraGap)].  [n] is [glyphs.length]. *)
Definition lineAdjust (align : alignment) (maxWidth : Q) (isLast : bool) (ln : line)
  : option (Q * Q) :=
  let n := length (glyphs ln) in
  match align with
  | AlignCenter =>
      h ← jsdiv (maxWidth - total ln) 2; Some (Qmax 0 h, 0)
  | AlignRight => Some (Qmax 0 (maxWidth - total ln), 0)
  | AlignJustify =>
      if negb isLast && bool_decide (1 < n)%nat
      then g ← jsdiv (maxWidth - total ln) (inject_Z (Z.of_nat n) - 1);
           Some (0, Qmax 0 g)
      else Some (0, 0)
  | AlignLeft => Some (0, 0)
  end.

(** The inner loop over [gi]: push [{x, y}], then advance [x] by the glyph's
    width and, unless it is the last glyph of the line, by [extraGap].
    The sums are the exact ones here; [Binary64.placeGlyphs] rounds them as
    the script does, and what is stated of the right edge of a glyph is
    stated of that one. *)
Fixpoint placeGlyphs (x y extraGap : Q) (gs : list glyph) : list position :=
  match gs with
  | [] => []
  | g :: rest =>
      mkPos x y ::
      placeGlyphs (x + (g_width g + (match rest with [] => 0 | _ :: _ => extraGap end)))
                  y extraGap rest
  end.

(** The body of the loop over [li] for one line at height [y]: an empty
    line places nothing. *)
Definition placeLine (align : alignment) (maxWidth : Q) (isLast : bool) (y : Q)
    (ln : line) : option (list position) :=
  match glyphs ln with
  | [] => Some []
  | _ :: _ =>
      adj ← lineAdjust align maxWidth isLast ln;
      Some (placeGlyphs adj.1 y adj.2 (glyphs ln))
  end.

(** The loop over [li], from a given [y]; [isLast] holds of the line with
    nothing after it, and [y] advances by [lineHeight] after every line.
    The sum is the exact one here; [Binary64.placeLines] rounds it as the
    script does, and what is stated of the height of a line is stated of
    that one. *)
Fixpoint placeLines (align : alignment) (maxWidth lineHeight : Q)
    (ls : list line) (y : Q) : option (list position) :=
  match ls with
  | [] => Some []
  | ln :: rest =>
      let isLast := match rest with [] => true | _ :: _ => false end in
      ps0 ← placeLine align maxWidth isLast y ln;
      ps ← placeLines align maxWidth lineHeight rest (y + lineHeight);
      Some (ps0 ++ ps)
  end.

Record layoutResult : Type := mkLayout { positions : list position; lineHeight : Q }.

(** [layoutEventsAligned(container, events, align)]. *)
Definition layoutEventsAligned (c : container) (events : list event) (align : alignment)
  : option layoutResult :=
  ps ← placeLines align (rectWidth c) (lineHeightOf c) (buildLines c events) 0;
  Some (mkLayout ps (lineHeightOf c)).

(** ** The caret routine used by restore and import *)

(** The function properties [nextCaretPosition.measurer], [.x], [.y] and
    [.lineHeight]. *)
Record caret : Type := mkCaret {
  hasMeasurer : bool;
  caret_x : Q;
  caret_y : Q;
  caret_lineHeight : Q
}.

Definition noCaret : caret := mkCaret false 0 0 0.

(** The local [advance] of [nextCaretPosition]: nothing for a newline,
    [0.6] of the width of ['M'] for a space, else the measured width of the
    character (of ['M'] for an empty one) plus the letter spacing. *)
Definition caretAdvance (c : container) (ch : string) : Q :=
  let isNewline := bool_decide (ch = newline) in
  let isSpace := bool_decide (ch = space) in
  let text :=
    if negb (bool_decide (ch = EmptyString)) && negb isNewline && negb isSpace
    then ch else "M" in
  let mWidth := glyphWidth c text in
  let baseWidth :=
    if isSpace then mWidth * 0.6 else if isNewline then 0 else mWidth in
  if isNewline then 0
  else baseWidth + (if isSpace then 0 else letterSpacingOf c).

(** [nextCaretPosition(container, char)]: the returned position and the
    updated function properties.  A first call (no measurer yet) resets the
    caret and uses the fallback line height [36]; the line height is
    replaced by [fontSize * 1.4] only at the end of each call. *)
Definition nextCaretPosition (c : container) (k : caret) (ch : string)
  : position * caret :=
  let k0 := if hasMeasurer k then k else mkCaret true 0 0 36 in
  let isNewline := bool_decide (ch = newline) in
  let padding := 0 in
  let maxWidth := rectWidth c - padding * 2 in
  let advance := caretAdvance c ch in
  let k1 :=
    if isNewline
    then mkCaret true 0 (caret_y k0 + caret_lineHeight k0) (caret_lineHeight k0)
    else if Qlt_le_dec maxWidth (caret_x k0 + advance)
         then mkCaret true 0 (caret_y k0 + caret_lineHeight k0) (caret_lineHeight k0)
         else k0 in
  let result := mkPos (caret_x k1) (caret_y k1) in
  let x2 := if isNewline then caret_x k1 else caret_x k1 + advance in
  (result, mkCaret true x2 (caret_y k1) (fontSizeOf c * 1.4)).

(** ** The application state touched by reflow, delete and restore *)

(** A [.typed-letter] span: its text and the [left]/[top] it is sent to
    (the end state of its position tween). *)
Record letterEl : Type := mkLetter { el_char : string; el_left : Q; el_top : Q }.

(** The part of the page state these operations read and write.  The
    physics mode is never enabled by the script ([state.physics.enabled]
    stays [false]), so its branches are left out. *)
Record appState : Type := mkApp {
  events : list event;
  align : alignment;
  typedLetters : list letterEl;
  caretState : caret;
  cursorVars : option position;
  persisted : option (list event)
}.

(** [persistToStorage()]: the stored blob's [events] field. *)
Definition persistToStorage (st : appState) : appState :=
  mkApp (events st) (align st) (typedLetters st) (caretState st) (cursorVars st)
        (Some (events st)).

(** [updateCursorPosition(container)]. *)
Definition updateCursorPosition (st : appState) : appState :=
  mkApp (events st) (align st) (typedLetters st) (caretState st)
        (Some (mkPos (caret_x (caretState st)) (caret_y (caretState st))))
        (persisted st).

(** The loop of [reflowExistingLetters]: the [i]-th letter element is sent
    to the [i]-th position; [positions] has one entry per non-newline
    event, and elements past them are left alone. *)
Fixpoint moveLetters (els : list letterEl) (ps : list position) : list letterEl :=
  match els, ps with
  | el :: els', p :: ps' => mkLetter (el_char el) (pos_x p) (pos_y p) :: moveLetters els' ps'
  | _, _ => els
  end.

(** [reflowExistingLetters()]. *)
Definition reflowExistingLetters (c : container) (st : appState) : option appState :=
  match typedLetters st with
  | [] => Some st
  | _ :: _ =>
      r ← layoutEventsAligned c (events st) (align st);
      Some (updateCursorPosition
              (mkApp (events st) (align st) (moveLetters (typedLetters st) (positions r))
                     (caretState st) (cursorVars st) (persisted st)))
  end.

(** [setAlign(align)]. *)
Definition setAlign (c : container) (a : alignment) (st : appState) : option appState :=
  st' ← reflowExistingLetters c
          (mkApp (events st) a (typedLetters st) (caretState st) (cursorVars st) (persisted st));
  Some (persistToStorage st').

(** [deleteLast()]. *)
Definition deleteLast (c : container) (st : appState) : option appState :=
  match last (events st) with
  | None => Some st
  | Some lastEv =>
      let els' :=
        if bool_decide (ev_char lastEv = newline) then typedLetters st
        else removelast (typedLetters st) in
      let st1 := mkApp (removelast (events st)) (align st) els'
                       (caretState st) (cursorVars st) (persisted st) in
      st2 ← reflowExistingLetters c (persistToStorage st1);
      Some (updateCursorPosition st2)
  end.

(** The loop of [restoreFromStorage] and of [handleImportJson] over the
    stored events: every event is placed by [nextCaretPosition], a letter
    element is created at that position unless the event is a newline, and
    the event is recorded with that position and the clock's reading
    [now i] for the [i]-th recorded event. *)
Definition restoreStep (c : container) (now : nat -> Q) (st : appState) (ev : event)
  : appState :=
  let '(pos, k) := nextCaretPosition c (caretState st) (ev_char ev) in
  let els' :=
    if bool_decide (ev_char ev = newline) then typedLetters st
    else typedLetters st ++ [mkLetter (ev_char ev) (pos_x pos) (pos_y pos)] in
  let recorded := mkEvent (ev_char ev) (ev_note ev) (now (length (events st)))
                          (pos_x pos) (pos_y pos) in
  persistToStorage
    (mkApp (events st ++ [recorded]) (align st) els' k (cursorVars st) (persisted st)).

(** The event part of [restoreFromStorage]: the caret is reset when a
    measurer exists, [state.events] is emptied, then the loop runs. *)
Definition restoreEvents (c : container) (now : nat -> Q) (st : appState)
    (stored : list event) : appState :=
  let k := if hasMeasurer (caretState st) then noCaret else caretState st in
  foldl (restoreStep c now)
        (mkApp [] (align st) (typedLetters st) k (cursorVars st) (persisted st)) stored.

(** ** The note scheduler of [playSequence] *)

(** The [playbackTuning] object. *)
Record tuning : Type := mkTuning {
  maxPixelsPerSecond : Q;
  minSegmentSec : Q;
  noteOverlapSec : Q;
  arcLiftMin : Q;
  arcLiftMax : Q;
  arcLiftFactor : Q;
  minTimeBetweenNotes : Q;
  maxTimeBetweenNotes : Q;
  letterElasticity : Q;
  playheadElasticity : Q
}.

(** Its initial value. *)
Definition playbackTuning : tuning :=
  mkTuning 700 0.12 0.06 20 60 0.25 0.08 2.0 0.5 0.8.

(** The handler of the timing slider: both thresholds scaled by [factor]. *)
Definition setTimingFactor (tn : tuning) (factor : Q) : tuning :=
  mkTuning (maxPixelsPerSecond tn) (minSegmentSec tn) (noteOverlapSec tn)
           (arcLiftMin tn) (arcLiftMax tn) (arcLiftFactor tn)
           (0.08 * factor) (2.0 * factor)
           (letterElasticity tn) (playheadElasticity tn).

(** An entry of the local [rel] array: the event spread with its time [t]. *)
Record relEvent : Type := mkRel { rel_event : event; rel_t : Q }.

(** [state.events.filter(e => e.note)]. *)
Definition noteEvents (evs : list event) : list event :=
  filter (fun e => truthy (ev_note e) = true) evs.

(** First pass: [t: Math.max(0, e.time - startTime)] with
    [startTime = noteEvents[0].time]. *)
Definition relativeTimes (nes : list event) : list relEvent :=
  match nes with
  | [] => []
  | first :: _ =>
      map (fun e => mkRel e (Qmax 0 (ev_time e - ev_time first))) nes
  end.

(** One iteration of the second pass, given [prevTime = rel[i - 1].t].
    The difference and the sums are the exact ones here;
    [Binary64.clampAfter] rounds them as the script does, and what is
    stated of the gaps of the schedule is stated of that one. *)
Definition clampAfter (tn : tuning) (prevTime : Q) (r : relEvent) : relEvent :=
  let timeDiff := rel_t r - prevTime in
  if Qlt_le_dec timeDiff (minTimeBetweenNotes tn)
  then mkRel (rel_event r) (prevTime + minTimeBetweenNotes tn)
  else if Qlt_le_dec (maxTimeBetweenNotes tn) timeDiff
       then mkRel (rel_event r) (prevTime + maxTimeBetweenNotes tn)
       else r.

(** The second pass from index [i], where [prevTime] is the time already
    written at index [i - 1]. *)
Fixpoint smoothFrom (tn : tuning) (prevTime : Q) (rest : list relEvent) : list relEvent :=
  match rest with
  | [] => []
  | r :: rest' =>
      let r' := clampAfter tn prevTime r in
      r' :: smoothFrom tn (rel_t r') rest'
  end.

(** The second pass: [for (let i = 1; i < rel.length; i++)]. *)
Definition smooth (tn : tuning) (rel : list relEvent) : list relEvent :=
  match rel with
  | [] => []
  | r0 :: rest => r0 :: smoothFrom tn (rel_t r0) rest
  end.

(** The smoothed [rel] array of [playSequence]. *)
Definition schedule (tn : tuning) (evs : list event) : list relEvent :=
  smooth tn (relativeTimes (noteEvents evs)).

(** The times of a schedule, in order. *)
Definition times (rel : list relEvent) : list Q := map rel_t rel.

(** ** Path and segment durations of [playSequence] *)

(** The offsets of the text container inside the letter sheet,
    [containerRect2.left - letterSheetRect.left] and the same for [top]. *)
Record sheetGeometry : Type := mkGeometry { offsetLeft : Q; offsetTop : Q }.

(** [buildMotionPathFromEvents]: the points of the note-bearing,
    non-newline events; [null] when there is none. *)
Definition buildMotionPathFromEvents (geo : sheetGeometry) (evs : list event)
  : option (list position) :=
  let points :=
    map (fun e => mkPos (ev_x e + offsetLeft geo + 32) (ev_y e + offsetTop geo + 40))
        (filter (fun e => truthy (ev_note e) = true /\ ev_char e <> newline) evs) in
  match points with
  | [] => None
  | _ :: _ => Some points
  end.

(** A playhead preset and the table [playheadPresets]. *)
Record preset : Type := mkPreset { className : string; speedRatio : Q; trailScale : Q }.

Definition playheadPresets : gmap string preset :=
  <[ "classic" := mkPreset EmptyString 1.0 1.0 ]>
  (<[ "comet" := mkPreset "comet" 0.9 1.5 ]>
  (<[ "star" := mkPreset "star" 1.05 1.0 ]>
  (<[ "heart" := mkPreset "heart" 0.95 1.2 ]>
  (<[ "flame" := mkPreset "flame" 0.85 1.8 ]>
  (<[ "kitten" := mkPreset "kitten" 0.9 1.0 ]>
  (<[ "diamond" := mkPreset "diamond" 1.1 0.9 ]> ∅)))))).

(** [(state.playhead?.speedRatio) ?? 1.0]. *)
Definition speedRatioOf (playhead : option preset) : Q :=
  match playhead with
  | Some p => speedRatio p
  | None => 1.0
  end.

Record keyframe : Type := mkKeyframe { kf_x : Q; kf_y : Q; kf_t : Q }.

(** [(rel[rel.length - 1].t || 0) + 0.35]. *)
Definition totalDurOf (rel : list relEvent) : Q :=
  match last rel with
  | Some r => rel_t r + 0.35
  | None => 0 + 0.35
  end.

(** [rel[rel.length - 1].t || 0.0001]: a zero time is falsy. *)
Definition lastTOf (rel : list relEvent) : Q :=
  match last rel with
  | Some r => if Qeq_dec (rel_t r) 0 then 0.0001 else rel_t r
  | None => 0.0001
  end.

(** The [t] of keyframe [i] before the fallback loop, [None] when the
    quotient is not finite:
    [(rel[i]?.t ?? (i / (points.length - 1) * lastT)) / totalDur]. *)
Definition keyframeTime (rel : list relEvent) (nPoints i : nat) : option Q :=
  raw ← match rel !! i with
        | Some r => Some (rel_t r)
        | None =>
            q ← jsdiv (inject_Z (Z.of_nat i)) (inject_Z (Z.of_nat nPoints) - 1);
            Some (q * lastTOf rel)
        end;
  jsdiv raw (totalDurOf rel).

(** The keyframes after the fallback loop
    [if (!isFinite(t)) t = i / Math.max(1, keyframes.length - 1)]. *)
Definition keyframesOf (rel : list relEvent) (points : list position) : list keyframe :=
  imap (fun i p =>
          let t := match keyframeTime rel (length points) i with
                   | Some t => t
                   | None => inject_Z (Z.of_nat i)
                             / Qmax 1 (inject_Z (Z.of_nat (length points)) - 1)
                   end in
          mkKeyframe (pos_x p) (pos_y p) t) points.

(** One segment of the timeline: its end points, the distance travelled
    and the duration given to the tween. *)
Record segment : Type := mkSegment {
  seg_from : keyframe;
  seg_to : keyframe;
  seg_dist : Q;
  seg_clamped : Q;
  seg_duration : Q
}.

Section Playback.

(** [Math.hypot], a built-in of the host: its results are not rational in
    general, so it is a parameter here. *)
Variable hypot : Q -> Q -> Q.

(** The body of the segment loop for the keyframes [a] and [b]:
    [seg_clamped] is [segDur] after the [Math.max] line, [seg_duration]
    after the division by [speedRatio]. *)
Definition segmentBetween (tn : tuning) (speed totalDur : Q) (a b : keyframe) : segment :=
  let dx := kf_x b - kf_x a in
  let dy := kf_y b - kf_y a in
  let dist := hypot dx dy in
  let segDur := (kf_t b - kf_t a) * totalDur in
  let speedLimited := dist / maxPixelsPerSecond tn in
  let clamped := Qmax (minSegmentSec tn) (Qmax segDur speedLimited) in
  mkSegment a b dist clamped (clamped / speed).

(** [for (let i = 0; i < keyframes.length - 1; i += 1)]. *)
Fixpoint segmentsOf (tn : tuning) (speed totalDur : Q) (kfs : list keyframe) : list segment :=
  match kfs with
  | a :: ((b :: _) as rest) =>
      segmentBetween tn speed totalDur a b :: segmentsOf tn speed totalDur rest
  | _ => []
  end.

(** The segments [playSequence] builds for the current events; none when
    there is no note-bearing event or no point. *)
Definition playbackSegments (tn : tuning) (playhead : option preset)
    (geo : sheetGeometry) (evs : list event) : list segment :=
  match noteEvents evs, buildMotionPathFromEvents geo evs with
  | _ :: _, Some points =>
      let rel := schedule tn evs in
      segmentsOf tn (speedRatioOf playhead) (totalDurOf rel) (keyframesOf rel points)
  | _, _ => []
  end.

End Playback.

(** A rational stand-in for [Math.hypot], used to evaluate the definitions
    on concrete inputs: the square root of [dx*dx + dy*dy] rounded down to
    a multiple of [1e-6]; it is exact whenever that root is such a
    multiple. *)
Definition hypotMicro (dx dy : Q) : Q :=
  let s := dx * dx + dy * dy in
  inject_Z (Z.sqrt (Qnum s * 1000000000000 / Zpos (Qden s))) / 1000000.

(** ** Playback runs: what a run registers with the audio transport and
       the animation library

    [playSequence] hands its note triggers to two libraries.  The model
    keeps what is registered with each, following the calls the script
    makes: [new Tone.Part(...).start(0)] attaches a part to the transport;
    [Tone.Transport.stop()] halts the transport and leaves the attached
    parts attached (the script never calls [dispose], [stop] or [cancel] on
    a part, whose handle is a local constant, nor [Tone.Transport.cancel]);
    [gsap.killTweensOf(ball)] removes every tween of the ball, with its
    callbacks.  [run] numbers the runs, to tell whose trigger is whose. *)

(** A pending note trigger: the run that registered it and the index of the
    schedule entry it plays. *)
Record trigger : Type := mkTrigger { trig_run : nat; trig_index : nat; trig_note : jsnote }.

(** A [Tone.Part]: the entries [[e.t, { note, index }]] of one run. *)
Record tonePart : Type := mkPart { part_run : nat; part_entries : list (Q * jsnote) }.

(** A segment tween of the ball's timeline, with the [rel] array its
    callbacks close over. *)
Record ballTween : Type := mkTween {
  tween_run : nat;
  tween_index : nat;
  tween_rel : list relEvent
}.

Record playbackState : Type := mkPlayback {
  run : nat;
  transportStarted : bool;
  attachedParts : list tonePart;
  ballTweens : list ballTween;
  trailDots : nat
}.

Definition idlePlayback : playbackState := mkPlayback 0 false [] [] 0.

(** [stopPlayback()]: the ball's tweens are killed, the trail is cleared,
    and the transport is stopped when it was started. *)
Definition stopPlayback (p : playbackState) : playbackState :=
  mkPlayback (run p) false (attachedParts p) [] 0.

(** The part [playSequence] creates from the smoothed [rel]. *)
Definition partOf (r : nat) (rel : list relEvent) : tonePart :=
  mkPart r (map (fun e => (rel_t e, ev_note (rel_event e))) rel).

(** The tweens [playSequence] adds, one per segment. *)
Definition tweensOf (r : nat) (rel : list relEvent) (nSegments : nat) : list ballTween :=
  map (fun i => mkTween r i rel) (seq 0 nSegments).

(** The synchronous part of [playSequence] that follows
    [await ensureAudio()]. *)
Definition playSequence (tn : tuning) (geo : sheetGeometry) (evs : list event)
    (p : playbackState) : playbackState :=
  match noteEvents evs with
  | [] => p
  | _ :: _ =>
      let p1 := stopPlayback p in
      match buildMotionPathFromEvents geo evs with
      | None => p1
      | Some points =>
          let rel := schedule tn evs in
          mkPlayback (S (run p1)) true
                     (attachedParts p1 ++ [partOf (run p1) rel])
                     (tweensOf (run p1) rel (length points - 1))
                     0
      end
  end.

(** The triggers of a part: its callback plays every entry whose note is
    truthy. *)
Definition partTriggers (pt : tonePart) : list trigger :=
  omap (fun x => x)
       (imap (fun i e => if truthy e.2 then Some (mkTrigger (part_run pt) i e.2) else None)
             (part_entries pt)).

(** [playNoteAtIndex(idx, '+0')]. *)
Definition playNoteAtIndex (r : nat) (rel : list relEvent) (idx : nat) : list trigger :=
  match rel !! idx with
  | Some e =>
      if truthy (ev_note (rel_event e)) then [mkTrigger r idx (ev_note (rel_event e))] else []
  | None => []
  end.

(** The triggers of a tween: [onStart] plays note [0] on the first segment
    only, [onComplete] plays note [i + 1]. *)
Definition tweenTriggers (tw : ballTween) : list trigger :=
  (match tween_index tw with
   | O => playNoteAtIndex (tween_run tw) (tween_rel tw) 0
   | S _ => []
   end)
  ++ playNoteAtIndex (tween_run tw) (tween_rel tw) (S (tween_index tw)).

(** Every note trigger that is registered and has not been removed. *)
Definition pendingTriggers (p : playbackState) : list trigger :=
  flat_map partTriggers (attachedParts p) ++ flat_map tweenTriggers (ballTweens p).

(** ** The WAV encoder *)

(** What the encoder reads of a rendered buffer: the channel count, the
    number of frames, the sample rate and [getChannelData(c)[i]].  The
    samples are 32-bit floats; they are taken to be finite (no [NaN]), and
    their products with [0x7FFF] and [0x8000] are exact in double
    precision, so that rationals describe them without loss.  The view is
    the list of its bytes. *)
Record toneBuffer : Type := mkBuffer {
  numberOfChannels : nat;
  bufferLength : nat;
  sampleRate : Z;
  getChannelData : nat -> nat -> Q
}.

(** [view.setUint8(off, v)] on a view of bytes: the value is taken modulo
    [256]; an offset outside the view raises a [RangeError] ([None]). *)
Definition setUint8 (view : list Z) (off : nat) (v : Z) : option (list Z) :=
  if decide (off < length view)%nat
  then Some (<[off := (v mod 256)%Z]> view)
  else None.

(** [view.setUint16(off, v, true)]: modulo [2^16], low byte first. *)
Definition setUint16 (view : list Z) (off : nat) (v : Z) : option (list Z) :=
  if decide (off + 2 <= length view)%nat
  then let u := (v mod 65536)%Z in
       Some (<[S off := (u / 256)%Z]> (<[off := (u mod 256)%Z]> view))
  else None.

(** [view.setUint32(off, v, true)]: modulo [2^32], low byte first. *)
Definition setUint32 (view : list Z) (off : nat) (v : Z) : option (list Z) :=
  if decide (off + 4 <= length view)%nat
  then let u := (v mod 4294967296)%Z in
       Some (<[S (S (S off)) := (u / 16777216)%Z]>
            (<[S (S off) := (u / 65536 mod 256)%Z]>
            (<[S off := (u / 256 mod 256)%Z]>
            (<[off := (u mod 256)%Z]> view))))
  else None.

(** The integer a number is converted to before it is stored: the fraction
    is dropped (rounding toward zero). *)
Definition toInteger (q : Q) : Z := Z.quot (Qnum q) (Zpos (Qden q)).

(** [view.setInt16(off, value, true)]: the truncated value modulo [2^16],
    in two's complement, low byte first. *)
Definition setInt16 (view : list Z) (off : nat) (value : Q) : option (list Z) :=
  setUint16 view off (toInteger value).

(** [writeString(view, offset, str)]. *)
Fixpoint writeString (view : list Z) (offset : nat) (str : string) : option (list Z) :=
  match str with
  | EmptyString => Some view
  | String ch rest =>
      v ← setUint8 view offset (Z.of_nat (nat_of_ascii ch));
      writeString v (S offset) rest
  end.

(** A loop whose body can raise. *)
Fixpoint foldM {A B : Type} (f : A -> B -> option A) (a : A) (l : list B) : option A :=
  match l with
  | [] => Some a
  | b :: l' => a' ← f a b; foldM f a' l'
  end.

(** [Math.max(-1, Math.min(1, x))], then [sample < 0 ? sample * 0x8000 :
    sample * 0x7FFF]. *)
Definition sampleValue (x : Q) : Q :=
  let sample := Qmax (-1) (Qmin 1 x) in
  if Qlt_le_dec sample 0 then sample * 32768 else sample * 32767.

(** The body of the inner loop: store the sample of channel [c] at frame
    [i], then [offset += 2]. *)
Definition sampleStep (tb : toneBuffer) (i : nat) (st : list Z * nat) (c : nat)
  : option (list Z * nat) :=
  v ← setInt16 st.1 st.2 (sampleValue (getChannelData tb c i));
  Some (v, (st.2 + 2)%nat).

(** [toneAudioBufferToWav(toneBuffer)]. *)
Definition toneAudioBufferToWav (tb : toneBuffer) : option (list Z) :=
  let numChannels := numberOfChannels tb in
  let dataBytes := (bufferLength tb * numChannels * 2)%nat in
  let view := replicate (dataBytes + 44) 0%Z in
  view ← writeString view 0 "RIFF";
  view ← setUint32 view 4 (36 + Z.of_nat dataBytes);
  view ← writeString view 8 "WAVE";
  view ← writeString view 12 "fmt ";
  view ← setUint32 view 16 16;
  view ← setUint16 view 20 1;
  view ← setUint16 view 22 (Z.of_nat numChannels);
  view ← setUint32 view 24 (sampleRate tb);
  view ← setUint32 view 28 (sampleRate tb * Z.of_nat numChannels * 2);
  view ← setUint16 view 32 (Z.of_nat numChannels * 2);
  view ← setUint16 view 34 16;
  view ← writeString view 36 "data";
  view ← setUint32 view 40 (Z.of_nat dataBytes);
  st ← foldM (fun st i => foldM (sampleStep tb i) st (seq 0 numChannels))
             (view, 44%nat) (seq 0 (bufferLength tb));
  Some st.1.

(** ** The offline render of [exportAsWav] *)

(** The local [rel] array of [exportAsWav]:
    [state.events.map(e => ({ t: Math.max(0, e.time - relStart), note:
    e.note })).filter(e => e.note)] with [relStart = state.events[0].time],
    the time of the first event, with or without a note. *)
Definition exportRel (evs : list event) : list (Q * jsnote) :=
  match evs with
  | [] => []
  | first :: _ =>
      filter (fun r => truthy r.2 = true)
             (map (fun e => (Qmax 0 (ev_time e - ev_time first), ev_note e)) evs)
  end.

(** [(rel.length ? rel[rel.length - 1].t : 0) + 0.8]. *)
Definition exportTotalDur (rel : list (Q * jsnote)) : Q :=
  match last rel with
  | Some r => r.1 + 0.8
  | None => 0 + 0.8
  end.

(** What [exportAsWav] hands to [Tone.Offline]: the entries of the part,
    the duration and the sample rate; nothing is rendered when there is no
    event. *)
Record renderPlan : Type := mkPlan {
  plan_part : list (Q * jsnote);
  plan_duration : Q;
  plan_sampleRate : Z
}.

Definition exportAsWav (evs : list event) : option renderPlan :=
  match evs with
  | [] => None
  | _ :: _ =>
      let rel := exportRel evs in
      Some (mkPlan rel (exportTotalDur rel) 44100)
  end.

(** ** Themes, fonts and playhead styles *)

(** An entry of the [themes] object and the object's own properties. *)
Record themeEntry : Type := mkTheme { fontFamily : string; soundPalette : string }.

Definition themes : gmap string themeEntry :=
  <[ "classic" := mkTheme "Playfair Display" "majorC" ]>
  (<[ "midnight" := mkTheme "Poppins" "minorA" ]>
  (<[ "pastel" := mkTheme "Playfair Display" "pentatonicC" ]> ∅)).

(** [themes[theme]?.soundPalette || 'majorC'] and
    [themes[theme]?.fontFamily || 'Playfair Display'].  [themes] is an
    object literal too, but a member inherited from [Object.prototype] has
    neither property, so the read is [undefined] for it as for a missing
    name. *)
Definition themeSoundPalette (theme : string) : string :=
  match themes !! theme with
  | Some t => if bool_decide (soundPalette t = EmptyString) then "majorC" else soundPalette t
  | None => "majorC"
  end.

Definition themeFontFamily (theme : string) : string :=
  match themes !! theme with
  | Some t =>
      if bool_decide (fontFamily t = EmptyString) then "Playfair Display" else fontFamily t
  | None => "Playfair Display"
  end.

(** [fontLetterSpacingMap], a [Map] (it has no inherited keys). *)
Definition fontLetterSpacingMap : gmap string Q :=
  list_to_map
    [ ("Playfair Display", 0.02); ("Poppins", 0.01); ("EB Garamond", 0.015);
      ("Merriweather", 0.015); ("Lora", 0.016); ("Cormorant Garamond", 0.02);
      ("DM Serif Display", 0.02); ("Libre Baskerville", 0.015);
      ("Great Vibes", 0.01); ("Pacifico", 0.012); ("Dancing Script", 0.012);
      ("Cinzel Decorative", 0.02); ("Playball", 0.012); ("Lobster", 0.012);
      ("Sacramento", 0.01); ("Amatic SC", 0.015); ("Caveat", 0.012);
      ("Abril Fatface", 0.02); ("Berkshire Swash", 0.014);
      ("Shadows Into Light", 0.012); ("Indie Flower", 0.012) ].

(** The [spacingEm] of [setFont]:
    [fontLetterSpacingMap.get(fontFamily) ?? 0.02]. *)
Definition spacingEmOf (font : string) : Q :=
  default 0.02 (fontLetterSpacingMap !! font).

(** What [setTheme(theme)] sets: the font family and the letter spacing
    handed to the style sheet (through [setFont]), the value of the palette
    selector and the key-to-note mapping. *)
Record themeSettings : Type := mkSettings {
  set_font : string;
  set_spacingEm : Q;
  set_palette : string;
  set_keyToNote : gmap string jsnote
}.

Definition setTheme (theme : string) : themeSettings :=
  let font := themeFontFamily theme in
  mkSettings font (spacingEmOf font) (themeSoundPalette theme)
             (buildKeyToNote (themeSoundPalette theme)).

(** [playheadPresets[style] || playheadPresets.classic]: an own preset, a
    member inherited from [Object.prototype] (truthy, without any of the
    preset's fields), or the fallback. *)
Inductive playheadval : Type :=
| PresetOwn (p : preset)
| PresetInherited (member : string).

Definition setPlayheadStyle (style : string) : playheadval :=
  match playheadPresets !! style with
  | Some p => PresetOwn p
  | None =>
      if bool_decide (style ∈ objectPrototypeMembers) then PresetInherited style
      else PresetOwn (default (mkPreset EmptyString 1.0 1.0) (playheadPresets !! "classic"))
  end.

(** The fields of [state.playhead] that [playSequence] reads with
    [state.playhead?.speedRatio]: none on an inherited member. *)
Definition playheadFields (v : playheadval) : option preset :=
  match v with
  | PresetOwn p => Some p
  | PresetInherited _ => None
  end.

(** ** Keystrokes and the other inputs of a session *)

(** [String.prototype.toLowerCase] on code units below 256: the capitals
    [A]-[Z] and the accented capitals of Latin-1 move up by 32.  Keys are
    modelled in that range, one character per code unit. *)
Definition lowerCode (a : ascii) : ascii :=
  let n := nat_of_ascii a in
  if bool_decide ((65 <= n <= 90) \/ (192 <= n <= 214) \/ (216 <= n <= 222))%nat
  then ascii_of_nat (n + 32)
  else a.

Fixpoint toLowerCase (s : string) : string :=
  match s with
  | EmptyString => EmptyString
  | String a rest => String (lowerCode a) (toLowerCase rest)
  end.

(** [recordEvent(char, note, position)], [now] being the reading of
    [Tone.now()]. *)
Definition recordEvent (ch : string) (note : jsnote) (pos : position) (now : Q)
    (st : appState) : appState :=
  persistToStorage
    (mkApp (events st ++ [mkEvent ch note now (pos_x pos) (pos_y pos)]) (align st)
           (typedLetters st) (caretState st) (cursorVars st) (persisted st)).

(** The page state beyond [appState]: the key-to-note mapping, the welcome
    flag, and the inactivity timers: the handle kept in
    [state.scheduledTimeout], the timers that are set and neither cleared
    nor fired, and the number of timers set so far (handles are positive
    and never reused).  Sound, animations and the height of the container
    are not part of it. *)
Record page : Type := mkPage {
  pageApp : appState;
  keyToNote : gmap string jsnote;
  welcomeShown : bool;
  scheduledTimeout : option nat;
  pendingTimers : list nat;
  timersSet : nat
}.

Definition withApp (pg : page) (st : appState) : page :=
  mkPage st (keyToNote pg) (welcomeShown pg) (scheduledTimeout pg) (pendingTimers pg)
         (timersSet pg).

(** [clearWelcomeText()]. *)
Definition clearWelcomeText (pg : page) : page :=
  mkPage (updateCursorPosition (pageApp pg)) (keyToNote pg) false (scheduledTimeout pg)
         (pendingTimers pg) (timersSet pg).

(** The first lines of [handleKeyDown] (and of the pointer handler):
    [if (state.welcomeShown) clearWelcomeText()]. *)
Definition dismissWelcome (pg : page) : page :=
  if welcomeShown pg then clearWelcomeText pg else pg.

(** [clearTimeout(id)]. *)
Definition clearTimeout (id : nat) (pending : list nat) : list nat :=
  filter (fun j => j <> id) pending.

(** [scheduleInactivityPlayback()]: the kept handle is cleared when it is
    truthy, and a new timer is set and kept. *)
Definition scheduleInactivityPlayback (pg : page) : page :=
  let pending :=
    match scheduledTimeout pg with
    | Some id =>
        if bool_decide (id = 0%nat) then pendingTimers pg
        else clearTimeout id (pendingTimers pg)
    | None => pendingTimers pg
    end in
  let id := S (timersSet pg) in
  mkPage (pageApp pg) (keyToNote pg) (welcomeShown pg) (Some id) (pending ++ [id]) id.

(** The callback of an inactivity timer, run when the timer [id] fires: a
    cleared timer does not fire; the result tells whether [playSequence] is
    called. *)
Definition inactivityFires (id : nat) (pg : page) : page * bool :=
  if bool_decide (id ∈ pendingTimers pg)
  then (mkPage (pageApp pg) (keyToNote pg) (welcomeShown pg) (scheduledTimeout pg)
               (clearTimeout id (pendingTimers pg)) (timersSet pg),
        match noteEvents (events (pageApp pg)) with [] => false | _ :: _ => true end)
  else (pg, false).

(** The loop of [handleKeyDown] over [state.events], as far as the events
    go: a non-newline event takes the next position while a letter element
    and a position are left ([letterIndex < letters.length && letterIndex <
    allPositions.length]). *)
Fixpoint syncEvents (evs : list event) (nLetters : nat) (ps : list position) : list event :=
  match evs with
  | [] => []
  | ev :: evs' =>
      if bool_decide (ev_char ev = newline) then ev :: syncEvents evs' nLetters ps
      else match nLetters, ps with
           | S n, p :: ps' =>
               mkEvent (ev_char ev) (ev_note ev) (ev_time ev) (pos_x p) (pos_y p)
               :: syncEvents evs' n ps'
           | _, _ => ev :: syncEvents evs' nLetters ps
           end
  end.

(** The character of a key: [ev.key.length === 1 ? ev.key : (ev.key ===
    'Enter' ? '\n' : '')]. *)
Definition keyChar (key : string) : string :=
  if bool_decide (String.length key = 1%nat) then key
  else if bool_decide (key = "Enter") then newline else EmptyString.

(** [handleKeyDown(ev)] for the key [ev.key], [now] being the reading of
    [Tone.now()]. *)
Definition handleKeyDown (c : container) (key : string) (now : Q) (pg : page)
  : option page :=
  let pg := dismissWelcome pg in
  if bool_decide (key = "Backspace" \/ key = "Delete") then
    st ← deleteLast c (pageApp pg);
    Some (scheduleInactivityPlayback (withApp pg st))
  else
    let char := keyChar key in
    if bool_decide (char = EmptyString) then Some pg
    else
      let lower := toLowerCase char in
      let note := noteForKey (keyToNote pg) lower in
      let st1 := recordEvent char note (mkPos 0 0) now (pageApp pg) in
      layout ← layoutEventsAligned c (events st1) (align st1);
      let allPositions := positions layout in
      let isNewLetter := negb (bool_decide (char = newline)) in
      let target := default (mkPos 0 0) (last allPositions) in
      let nonNewline := length (filter (fun e => ev_char e <> newline) (events st1)) in
      let existing := moveLetters (typedLetters st1) (take nonNewline allPositions) in
      let letters' :=
        if isNewLetter then existing ++ [mkLetter char (pos_x target) (pos_y target)]
        else existing in
      let events' := syncEvents (events st1) (length letters') allPositions in
      let st2 := mkApp events' (align st1) letters' (caretState st1) (cursorVars st1)
                       (persisted st1) in
      Some (scheduleInactivityPlayback (withApp pg (updateCursorPosition st2))).

(** [clearAll()], on the page record.  Its [container.innerHTML = '']
    also detaches the span through which [measureChar] measures, which is
    no field of the record: that effect is [measurerAfter], and a session
    that follows the span is [runMeasured]. *)
Definition clearAll (pg : page) : page :=
  let k := caretState (pageApp pg) in
  let st := mkApp [] (align (pageApp pg)) [] (mkCaret false 0 0 (caret_lineHeight k))
                  (cursorVars (pageApp pg)) (persisted (pageApp pg)) in
  mkPage (persistToStorage (updateCursorPosition st)) (keyToNote pg) true
         (scheduledTimeout pg) (pendingTimers pg) (timersSet pg).

(** A parsed import document, as far as the page state goes: [data.theme],
    [data.palette] and [data.events] ([data.font] only changes the metrics
    of the container). *)
Record importData : Type := mkImport {
  data_theme : option string;
  data_palette : option string;
  data_events : list event
}.

(** [if (data.x)] on an optional string: absent and empty are falsy. *)
Definition truthyString (o : option string) : option string :=
  match o with
  | Some EmptyString | None => None
  | Some s => Some s
  end.

(** The [onload] handler of [handleImportJson], once the document is
    parsed; [now i] is the reading of the clock for the [i]-th event. *)
Definition handleImportJson (c : container) (now : nat -> Q) (d : importData) (pg : page)
  : page :=
  let pg1 := clearAll pg in
  let k1 := match truthyString (data_theme d) with
            | Some t => set_keyToNote (setTheme t)
            | None => keyToNote pg1
            end in
  let k2 := match truthyString (data_palette d) with
            | Some p => buildKeyToNote p
            | None => k1
            end in
  mkPage (persistToStorage (restoreEvents c now (pageApp pg1) (data_events d)))
         k2 (welcomeShown pg1) (scheduledTimeout pg1) (pendingTimers pg1) (timersSet pg1).

(** The inputs of a session, and the page after one of them. *)
Inductive input : Type :=
| KeyDown (key : string) (now : Q)
| AlignChange (a : alignment)
| PaletteChange (name : string)
| ClearClick
| ImportFile (d : importData) (now : nat -> Q)
| TimerFires (id : nat).

Definition step (pg : page) (ci : container * input) : option page :=
  let c := ci.1 in
  match ci.2 with
  | KeyDown key now => handleKeyDown c key now pg
  | AlignChange a => st ← setAlign c a (pageApp pg); Some (withApp pg st)
  | PaletteChange name =>
      Some (mkPage (persistToStorage (pageApp pg)) (buildKeyToNote name) (welcomeShown pg)
                   (scheduledTimeout pg) (pendingTimers pg) (timersSet pg))
  | ClearClick => Some (clearAll pg)
  | ImportFile d now => Some (handleImportJson c now d pg)
  | TimerFires id => Some (inactivityFires id pg).1
  end.

(** A session: inputs in order, each under the metrics the container has
    at that time. *)
Definition runSession (pg : page) (inputs : list (container * input)) : option page :=
  foldM step pg inputs.

(** The page after [init] on an empty storage. *)
Definition initialPage : page :=
  mkPage (mkApp [] AlignLeft [] noCaret (Some (mkPos 0 0)) (Some []))
         (buildKeyToNote "majorC") true None [] 0.

(** ** The arcs of the playback *)

(** The control point of the arc between the keyframes [a] and [b]:
    [midX = (a.x + b.x) / 2], [lift = Math.max(arcLiftMin,
    Math.min(arcLiftMax, Math.abs(a.x - b.x) * arcLiftFactor))] and
    [cp = { x: midX, y: Math.min(a.y, b.y) - lift }]. *)
Definition arcLift (tn : tuning) (a b : keyframe) : Q :=
  Qmax (arcLiftMin tn) (Qmin (arcLiftMax tn) (Qabs (kf_x a - kf_x b) * arcLiftFactor tn)).

Definition arcControl (tn : tuning) (a b : keyframe) : position :=
  mkPos ((kf_x a + kf_x b) / 2) (Qmin (kf_y a) (kf_y b) - arcLift tn a b).

(** ** The height of the container and the drop of a new letter *)

(** [Math.max(...ys)] on a non-empty list. *)
Definition maxOf (y0 : Q) (ys : list Q) : Q := foldl Qmax y0 ys.

(** [parseFloat(getComputedStyle(container).minHeight) || 640]. *)
Definition minHeightOf (styleMinHeight : option Q) : Q :=
  match styleMinHeight with
  | Some m => if Qeq_dec m 0 then 640 else m
  | None => 640
  end.

(** [updateContainerHeight(container, positions)]: the [style.height] of
    the container afterwards, in pixels ([None] while it is unset), and
    whether the sheet is scrolled to its bottom. *)
Definition updateContainerHeight (c : container) (styleMinHeight : option Q)
    (height : option Q) (ps : list position) : option Q * bool :=
  match ps with
  | [] => (height, false)
  | p :: rest =>
      let maxY := maxOf (pos_y p) (map pos_y rest) in
      let requiredHeight := maxY + lineHeightOf c + 40 in
      let minHeight := minHeightOf styleMinHeight in
      let finalHeight := Qmax requiredHeight minHeight in
      let changed := match height with
                     | Some h => if Qeq_dec h finalHeight then false else true
                     | None => true
                     end in
      (Some finalHeight,
       changed && (if Qlt_le_dec minHeight requiredHeight then true else false))
  end.

(** The local [rand] of [createLetterSpan], [r] being the value of
    [Math.random()]. *)
Definition rand (r min max : Q) : Q := r * (max - min) + min.

(** Where [createLetterSpan] puts a new letter before its drop: [r1] and
    [r2] are the two values of [Math.random()], in the order of the calls,
    and [spanWidth] is the measured width of the span ([|| 16]). *)
Definition letterStart (c : container) (spanWidth targetLeft r1 r2 : Q) : position :=
  let startY := - rand r1 60 140 in
  let w := if Qeq_dec spanWidth 0 then 16 else spanWidth in
  let startX := Qmax 0 (Qmin (rectWidth c - w) (targetLeft + rand r2 (-140) 140)) in
  mkPos startX startY.

(** ** The key handler of the legacy revision *)

Section Legacy.

(** The legacy [deleteLast] ends in a reflow of its own, built on
    [computeLineLayoutOffsets]; it is a parameter here. *)
Variable legacyDeleteLast : container -> appState -> appState.

(** [handleKeyDown(ev)] of the legacy script: a character is placed by
    [nextCaretPosition], its letter is created there, and the event is
    recorded with that position. *)
Definition legacyHandleKeyDown (c : container) (key : string) (now : Q) (pg : page)
  : page :=
  if bool_decide (key = "Backspace" \/ key = "Delete") then
    scheduleInactivityPlayback (withApp pg (legacyDeleteLast c (pageApp pg)))
  else
    let char := keyChar key in
    if bool_decide (char = EmptyString) then pg
    else
      let note := noteForKey (keyToNote pg) (toLowerCase char) in
      let st := pageApp pg in
      let '(pos, k) := nextCaretPosition c (caretState st) char in
      let els' :=
        if bool_decide (char = newline) then typedLetters st
        else typedLetters st ++ [mkLetter char (pos_x pos) (pos_y pos)] in
      let st1 := mkApp (events st) (align st) els' k (cursorVars st) (persisted st) in
      scheduleInactivityPlayback (withApp pg (recordEvent char note pos now st1)).

(** Keys typed one after the other, each with the reading of the clock. *)
Definition legacyType (c : container) (keys : list (string * Q)) (pg : page) : page :=
  foldl (fun pg kq => legacyHandleKeyDown c kq.1 kq.2 pg) pg keys.

End Legacy.

(** ** Binary64 rounding *)

(** A double is kept as the rational it denotes, and [round64 x] is the
    double nearest to the rational [x], ties going to the even significand
    (the rounding of every arithmetic operation of JavaScript): [x] is
    scaled by a power of two so that its significand lies in
    [[2^52, 2^53)], the significand is rounded to an integer, and the
    scaling is undone.  The exponent is not bounded: the results are those
    of the script as long as they are neither [2^1024] or more in size nor,
    for products and quotients, below [2^-1022] (a sum or a difference of
    doubles that small is exact in both); [Infinity] and [NaN] are outside
    the model. *)

(** [2^e]. *)
Definition pow2 (e : Z) : Q := 2 ^ e.

(** The integer nearest to [x], the even one of the two when [x] is
    halfway. *)
Definition roundHalfEven (x : Q) : Z :=
  let f := Qfloor x in
  match Qcompare (x - inject_Z f) (1 # 2) with
  | Lt => f
  | Gt => (f + 1)%Z
  | Eq => if Z.even f then f else (f + 1)%Z
  end.

(** The exponent [floor (log2 x)] of a positive [x]: the difference of the
    bit lengths of numerator and denominator, or one less. *)
Definition binade (x : Q) : Z :=
  let k := (Z.log2 (Qnum x) - Z.log2 (Zpos (Qden x)))%Z in
  if Qlt_le_dec x (pow2 k) then (k - 1)%Z else k.

(** The double nearest to a positive [x]. *)
Definition roundPositive (x : Q) : Q :=
  let e := (binade x - 52)%Z in
  inject_Z (roundHalfEven (x / pow2 e)) * pow2 e.

Definition round64 (x : Q) : Q :=
  match Qcompare x 0 with
  | Eq => 0
  | Gt => roundPositive x
  | Lt => - roundPositive (- x)
  end.

(** The unit roundoff [2^-53]. *)
Definition unitRoundoff : Q := 1 # 9007199254740992.

(** The four operations of the script on doubles: the exact result,
    rounded. *)
Definition add64 (a b : Q) : Q := round64 (a + b).
Definition sub64 (a b : Q) : Q := round64 (a - b).
Definition mul64 (a b : Q) : Q := round64 (a * b).
Definition div64 (a b : Q) : option Q := q ← jsdiv a b; Some (round64 q).

(** ** The scheduler and the aligned layout in binary64 *)

Module Binary64.

(** The [playbackTuning] object: a decimal literal denotes the nearest
    double. *)
Definition playbackTuning : tuning :=
  mkTuning 700 (round64 0.12) (round64 0.06) 20 60 0.25 (round64 0.08) 2 0.5 (round64 0.8).

(** The handler of the timing slider: [0.08 * factor] and [2.0 * factor]. *)
Definition setTimingFactor (tn : tuning) (factor : Q) : tuning :=
  mkTuning (maxPixelsPerSecond tn) (minSegmentSec tn) (noteOverlapSec tn)
           (arcLiftMin tn) (arcLiftMax tn) (arcLiftFactor tn)
           (mul64 (round64 0.08) factor) (mul64 2 factor)
           (letterElasticity tn) (playheadElasticity tn).

(** First pass: [t: Math.max(0, e.time - startTime)]. *)
Definition relativeTimes (nes : list event) : list relEvent :=
  match nes with
  | [] => []
  | first :: _ =>
      map (fun e => mkRel e (Qmax 0 (sub64 (ev_time e) (ev_time first)))) nes
  end.

(** One iteration of the second pass, given [prevTime = rel[i - 1].t]:
    [timeDiff = rel[i].t - prevTime], then [prevTime +
    minTimeBetweenNotes] or [prevTime + maxTimeBetweenNotes]. *)
Definition clampAfter (tn : tuning) (prevTime : Q) (r : relEvent) : relEvent :=
  let timeDiff := sub64 (rel_t r) prevTime in
  if Qlt_le_dec timeDiff (minTimeBetweenNotes tn)
  then mkRel (rel_event r) (add64 prevTime (minTimeBetweenNotes tn))
  else if Qlt_le_dec (maxTimeBetweenNotes tn) timeDiff
       then mkRel (rel_event r) (add64 prevTime (maxTimeBetweenNotes tn))
       else r.

Fixpoint smoothFrom (tn : tuning) (prevTime : Q) (rest : list relEvent) : list relEvent :=
  match rest with
  | [] => []
  | r :: rest' =>
      let r' := clampAfter tn prevTime r in
      r' :: smoothFrom tn (rel_t r') rest'
  end.

Definition smooth (tn : tuning) (rel : list relEvent) : list relEvent :=
  match rel with
  | [] => []
  | r0 :: rest => r0 :: smoothFrom tn (rel_t r0) rest
  end.

(** The smoothed [rel] array of [playSequence]. *)
Definition schedule (tn : tuning) (evs : list event) : list relEvent :=
  smooth tn (relativeTimes (noteEvents evs)).

(** [fontSize * 1.4]. *)
Definition lineHeightOf (c : container) : Q := mul64 (fontSizeOf c) (round64 1.4).

(** [measureChar(container, ch, style)]:
    [base + (ch === ' ' ? 0 : letterSpacing)]. *)
Definition measureChar (c : container) (ch : string) : Q :=
  let text :=
    if bool_decide (ch = newline) then EmptyString
    else if bool_decide (ch = EmptyString) then "M" else ch in
  add64 (glyphWidth c text) (if bool_decide (ch = space) then 0 else letterSpacingOf c).

(** [currentLine.push({ char, width: w }); currentWidth += w]. *)
Definition pushGlyph (b : lineBuilder) (ch : string) (w : Q) : lineBuilder :=
  mkBuilder (lines b) (currentLine b ++ [mkGlyph ch w]) (add64 (currentWidth b) w).

(** The guard [currentLine.length > 0 && currentWidth + w > maxWidth]. *)
Definition wraps (maxWidth : Q) (b : lineBuilder) (w : Q) : bool :=
  match currentLine b with
  | [] => false
  | _ :: _ => if Qlt_le_dec maxWidth (add64 (currentWidth b) w) then true else false
  end.

(** One iteration of [for (const ev of events)]. *)
Definition lineStep (c : container) (b : lineBuilder) (ev : event) : lineBuilder :=
  if bool_decide (ev_char ev = newline) then pushLine b
  else
    let w := measureChar c (ev_char ev) in
    let b' := if wraps (rectWidth c) b w then pushLine b else b in
    pushGlyph b' (ev_char ev) w.

(** The first loop and the [lines.push] that follows it. *)
Definition buildLines (c : container) (events : list event) : list line :=
  lines (pushLine (foldl (lineStep c) emptyBuilder events)).

(** The start offset and the extra gap of one non-empty line:
    [Math.max(0, (maxWidth - total) / 2)], [Math.max(0, maxWidth - total)]
    and [Math.max(0, (maxWidth - total) / (glyphs.length - 1))]. *)
Definition lineAdjust (align : alignment) (maxWidth : Q) (isLast : bool) (ln : line)
  : option (Q * Q) :=
  let n := length (glyphs ln) in
  match align with
  | AlignCenter =>
      h ← div64 (sub64 maxWidth (total ln)) 2; Some (Qmax 0 h, 0)
  | AlignRight => Some (Qmax 0 (sub64 maxWidth (total ln)), 0)
  | AlignJustify =>
      if negb isLast && bool_decide (1 < n)%nat
      then g ← div64 (sub64 maxWidth (total ln)) (sub64 (inject_Z (Z.of_nat n)) 1);
           Some (0, Qmax 0 g)
      else Some (0, 0)
  | AlignLeft => Some (0, 0)
  end.

(** The inner loop over [gi]:
    [x += glyphs[gi].width + (gi < glyphs.length - 1 ? extraGap : 0)]. *)
Fixpoint placeGlyphs (x y extraGap : Q) (gs : list glyph) : list position :=
  match gs with
  | [] => []
  | g :: rest =>
      mkPos x y ::
      placeGlyphs (add64 x (add64 (g_width g)
                                  (match rest with [] => 0 | _ :: _ => extraGap end)))
                  y extraGap rest
  end.

Definition placeLine (align : alignment) (maxWidth : Q) (isLast : bool) (y : Q)
    (ln : line) : option (list position) :=
  match glyphs ln with
  | [] => Some []
  | _ :: _ =>
      adj ← lineAdjust align maxWidth isLast ln;
      Some (placeGlyphs adj.1 y adj.2 (glyphs ln))
  end.

(** The loop over [li]: [y += lineHeight] after every line. *)
Fixpoint placeLines (align : alignment) (maxWidth lineHeight : Q)
    (ls : list line) (y : Q) : option (list position) :=
  match ls with
  | [] => Some []
  | ln :: rest =>
      let isLast := match rest with [] => true | _ :: _ => false end in
      ps0 ← placeLine align maxWidth isLast y ln;
      ps ← placeLines align maxWidth lineHeight rest (add64 y lineHeight);
      Some (ps0 ++ ps)
  end.

(** [layoutEventsAligned(container, events, align)]. *)
Definition layoutEventsAligned (c : container) (events : list event) (align : alignment)
  : option layoutResult :=
  ps ← placeLines align (rectWidth c) (lineHeightOf c) (buildLines c events) 0;
  Some (mkLayout ps (lineHeightOf c)).

End Binary64.

(** ** The measuring span of [measureChar] *)

(** The function property [measureChar.measurer].  The first call of
    [measureChar] creates the span and appends it to the text container;
    [container.innerHTML = ''] in [clearAll] detaches it from the document,
    and as the property stays set no call creates it again. *)
Inductive measurerSpan : Type := NotCreated | Attached | Detached.

(** What the aligned layout measures through the span when the container
    has the metrics [c]: a detached span has no box, so that
    [getBoundingClientRect().width] is [0] whatever its text.  The caret
    routine has a span of its own, which [clearAll] removes and the next
    call creates again. *)
Definition measuredThrough (m : measurerSpan) (c : container) : container :=
  match m with
  | Detached => mkContainer (rectWidth c) (styleFontSize c) (styleLetterSpacing c) (fun _ => 0)
  | NotCreated | Attached => c
  end.

Definition nonEmpty {A : Type} (l : list A) : bool :=
  match l with [] => false | _ :: _ => true end.

(** Whether an input makes [measureChar] run: a character key lays out the
    log with the new event; Backspace, Delete and a change of alignment lay
    it out in [reflowExistingLetters], unless no letter is left;
    [measureChar] runs for the non-newline events of the log laid out. *)
Definition measuresGlyph (pg : page) (i : input) : bool :=
  let st := pageApp pg in
  match i with
  | KeyDown key _ =>
      if bool_decide (key = "Backspace" \/ key = "Delete") then
        match last (events st) with
        | None => false
        | Some lastEv =>
            let els' :=
              if bool_decide (ev_char lastEv = newline) then typedLetters st
              else removelast (typedLetters st) in
            nonEmpty els' && nonEmpty (filter (fun e => ev_char e <> newline)
                                              (removelast (events st)))
        end
      else if bool_decide (keyChar key = EmptyString) then false
      else nonEmpty (filter (fun e => ev_char e <> newline)
                            (events st ++ [mkEvent (keyChar key) JsNull 0 0 0]))
  | AlignChange _ =>
      nonEmpty (typedLetters st)
      && nonEmpty (filter (fun e => ev_char e <> newline) (events st))
  | PaletteChange _ | ClearClick | ImportFile _ _ | TimerFires _ => false
  end.

(** The span after an input: [clearAll] (also called by the import)
    detaches an attached span; a call of [measureChar] creates it if it
    was not created yet. *)
Definition measurerAfter (m : measurerSpan) (pg : page) (i : input) : measurerSpan :=
  match i with
  | ClearClick | ImportFile _ _ =>
      match m with Attached => Detached | NotCreated | Detached => m end
  | KeyDown _ _ | AlignChange _ | PaletteChange _ | TimerFires _ =>
      if measuresGlyph pg i
      then match m with NotCreated => Attached | Attached | Detached => m end
      else m
  end.

(** One input to a page whose container has the metrics [c]: the aligned
    layout sees them through the span, the import loop through the caret's
    own span. *)
Definition stepMeasured (c : container) (s : page * measurerSpan) (i : input)
  : option (page * measurerSpan) :=
  let seen := match i with
              | ImportFile _ _ => c
              | _ => measuredThrough s.2 c
              end in
  pg' ← step s.1 (seen, i);
  Some (pg', measurerAfter s.2 s.1 i).

(** A session in a container of constant metrics [c]. *)
Definition runMeasured (c : container) (s : page * measurerSpan) (inputs : list input)
  : option (page * measurerSpan) :=
  foldM (stepMeasured c) s inputs.

(** ** Notions used to state the properties *)

(** The sum of the widths of a run of glyphs. *)
Definition sumWidths (gs : list glyph) : Q :=
  foldr (fun g acc => g_width g + acc) 0 gs.

(** A number of glyphs, as a number of the script. *)
Definition count (gs : list glyph) : Q := inject_Z (Z.of_nat (length gs)).

(** The glyph [g] placed at [p] lies between the left edge and the width
    [W] of the container, or is wider than the container and starts at its
    left edge. *)
Definition glyphWithin (W : Q) (g : glyph) (p : position) : Prop :=
  (0 <= pos_x p /\ pos_x p + g_width g <= W) \/ (W < g_width g /\ pos_x p == 0).

(** What the line builder keeps true of every line: [total] is the sum of
    the glyph widths, no width is negative, and a line of two or more
    glyphs fits the width [W]. *)
Definition lineFits (W : Q) (ln : line) : Prop :=
  total ln == sumWidths (glyphs ln) /\
  Forall (fun g => 0 <= g_width g) (glyphs ln) /\
  ((2 <= length (glyphs ln))%nat -> total ln <= W).

Definition builderFits (W : Q) (b : lineBuilder) : Prop :=
  Forall (lineFits W) (lines b) /\
  lineFits W (mkLine (currentLine b) (currentWidth b)).

(** The glyphs of an event list: its non-newline events, in order, with
    their measured widths. *)
Definition glyphsOf (c : container) (evs : list event) : list glyph :=
  map (fun e => mkGlyph (ev_char e) (measureChar c (ev_char e)))
      (filter (fun e => ev_char e <> newline) evs).

(** The glyphs a builder holds: those of the pushed lines, then those of
    the current line. *)
Definition builderGlyphs (b : lineBuilder) : list glyph :=
  concat (map glyphs (lines b)) ++ currentLine b.

(** The bounds a segment keeps, for the speed multiplier [s]: the duration
    before the division is the maximum of the three constraints, is at
    least the floor and keeps the speed under the cap; the effective
    duration is that maximum divided by [s], so the floor and the cap hold
    of it scaled by [s], and unscaled when [s <= 1]. *)
Definition segmentBounded (tn : tuning) (s totalDur : Q) (sg : segment) : Prop :=
  seg_clamped sg
  = Qmax (minSegmentSec tn)
         (Qmax ((kf_t (seg_to sg) - kf_t (seg_from sg)) * totalDur)
               (seg_dist sg / maxPixelsPerSecond tn)) /\
  seg_duration sg = seg_clamped sg / s /\
  minSegmentSec tn <= seg_clamped sg /\
  seg_dist sg / seg_clamped sg <= maxPixelsPerSecond tn /\
  minSegmentSec tn / s <= seg_duration sg /\
  seg_dist sg / seg_duration sg <= maxPixelsPerSecond tn * s /\
  (s <= 1 ->
   minSegmentSec tn <= seg_duration sg /\
   seg_dist sg / seg_duration sg <= maxPixelsPerSecond tn).



(** Readers, as [DataView.getUint8], [getUint16], [getUint32] and
    [getInt16] with [littleEndian = true]. *)
Definition getUint8 (view : list Z) (off : nat) : option Z := view !! off.

Definition getUint16 (view : list Z) (off : nat) : option Z :=
  lo ← view !! off; hi ← view !! S off; Some (lo + 256 * hi)%Z.

Definition getUint32 (view : list Z) (off : nat) : option Z :=
  lo ← getUint16 view off; hi ← getUint16 view (S (S off)); Some (lo + 65536 * hi)%Z.

Definition getInt16 (view : list Z) (off : nat) : option Z :=
  u ← getUint16 view off; Some (if (u <? 32768)%Z then u else u - 65536)%Z.

(** The character codes of a string. *)
Definition charCodes (s : string) : list Z :=
  map (fun ch => Z.of_nat (nat_of_ascii ch)) (list_ascii_of_string s).

(** The bytes of a 16-bit and of a 32-bit field, low byte first. *)
Definition le16 (v : Z) : list Z :=
  let u := (v mod 65536)%Z in [u mod 256; u / 256]%Z.

Definition le32 (v : Z) : list Z :=
  let u := (v mod 4294967296)%Z in
  [u mod 256; u / 256 mod 256; u / 65536 mod 256; u / 16777216]%Z.

(** The 44 bytes of the header and the bytes of the samples, frame by
    frame and channel by channel. *)
Definition wavHeader (tb : toneBuffer) : list Z :=
  let ch := Z.of_nat (numberOfChannels tb) in
  let dataBytes := Z.of_nat (bufferLength tb * numberOfChannels tb * 2) in
  charCodes "RIFF" ++ le32 (36 + dataBytes) ++ charCodes "WAVE" ++ charCodes "fmt "
  ++ le32 16 ++ le16 1 ++ le16 ch ++ le32 (sampleRate tb)
  ++ le32 (sampleRate tb * ch * 2) ++ le16 (ch * 2) ++ le16 16
  ++ charCodes "data" ++ le32 dataBytes.

Definition frameBytes (tb : toneBuffer) (i : nat) : list Z :=
  flat_map (fun c => le16 (toInteger (sampleValue (getChannelData tb c i))))
           (seq 0 (numberOfChannels tb)).

Definition wavSamples (tb : toneBuffer) : list Z :=
  flat_map (frameBytes tb) (seq 0 (bufferLength tb)).

(** Times that never go back, as the readings of a clock. *)
Fixpoint nonDecreasing (ts : list Q) : Prop :=
  match ts with
  | t0 :: ((t1 :: _) as rest) => t0 <= t1 /\ nonDecreasing rest
  | _ => True
  end.

(** The non-newline events, which are the ones with a letter element. *)
Definition lettered (evs : list event) : list event :=
  filter (fun e => ev_char e <> newline) evs.

(** The letters on the page spell the non-newline characters of the event
    log, in order. *)
Definition lettersMatch (st : appState) : Prop :=
  map el_char (typedLetters st) = map ev_char (lettered (events st)).

(** Each letter is at the position the aligned layout gives its event. *)
Definition inStep (c : container) (st : appState) : Prop :=
  exists ps,
    layoutEventsAligned c (events st) (align st) = Some (mkLayout ps (lineHeightOf c))
    /\ typedLetters st
       = zip_with (fun e p => mkLetter (ev_char e) (pos_x p) (pos_y p))
                  (lettered (events st)) ps
    /\ length ps = length (lettered (events st)).

(** What storage and restore keep of an event. *)
Definition eventCore (e : event) : string * jsnote * Q := (ev_char e, ev_note e, ev_time e).

(** The stored blob holds the events of the log, positions apart. *)
Definition storageInStep (st : appState) : Prop :=
  exists stored, persisted st = Some stored /\ map eventCore stored = map eventCore (events st).

(** The caret of [nextCaretPosition] and the cursor variables are at the
    origin. *)
Definition cursorAtOrigin (st : appState) : Prop :=
  caret_x (caretState st) = 0 /\ caret_y (caretState st) = 0
  /\ cursorVars st = Some (mkPos 0 0).

(** An input other than an import. *)
Definition notImport (ci : container * input) : Prop :=
  match ci.2 with
  | ImportFile _ _ => False
  | _ => True
  end.

(** At most one inactivity timer is pending, and it is the kept one;
    handles are positive. *)
Definition singleTimer (pg : page) : Prop :=
  (pendingTimers pg = [] \/
   exists id, pendingTimers pg = [id] /\ scheduledTimeout pg = Some id)
  /\ (forall id, scheduledTimeout pg = Some id -> (0 < id)%nat).

(** A letter placed by the caret routine fits the container, or stands at
    the left edge. *)
Definition letterFits (c : container) (el : letterEl) : Prop :=
  0 <= el_left el
  /\ (el_left el + caretAdvance c (el_char el) <= rectWidth c \/ el_left el == 0).

(** The note triggers of one run over a schedule: one for every entry
    whose note is truthy, with the index of the entry. *)
Definition noteTriggers (r : nat) (rel : list relEvent) : list trigger :=
  flat_map (playNoteAtIndex r rel) (seq 0 (length rel)).


(** What an event says of its letter: the character, the note and the
    position. *)
Definition eventPlace (e : event) : string * jsnote * Q * Q :=
  (ev_char e, ev_note e, ev_x e, ev_y e).

(** Two states with the same letters, the same caret and the same events,
    times apart. *)
Definition sameLayout (st st' : appState) : Prop :=
  typedLetters st = typedLetters st'
  /\ caretState st = caretState st'
  /\ map eventPlace (events st) = map eventPlace (events st').

(** What rounding can add to or take from a gap after the time [prev],
    for the upper threshold [hi]. *)
Definition gapSlack (hi prev : Q) : Q := unitRoundoff * (prev + 2 * hi).

(** Consecutive entries of a schedule in binary64: either the later time
    is the rounded sum of the earlier one and a threshold, or their rounded
    difference lies within the thresholds; in each case the gap lies within
    the thresholds up to [gapSlack]. *)
Fixpoint gapsRounded (lo hi : Q) (ts : list Q) : Prop :=
  match ts with
  | t0 :: ((t1 :: _) as rest) =>
      ((t1 == add64 t0 lo \/ t1 == add64 t0 hi
        \/ (lo <= sub64 t1 t0 /\ sub64 t1 t0 <= hi))
       /\ lo - gapSlack hi t0 <= t1 - t0
       /\ t1 - t0 <= hi + gapSlack hi t0)
      /\ gapsRounded lo hi rest
  | _ => True
  end.

(** [n] times from [t] on, each the rounded sum of the one before and
    [step]. *)
Fixpoint evenTimes (step t : Q) (n : nat) : list Q :=
  match n with
  | O => []
  | S n' => t :: evenTimes step (add64 t step) n'
  end.

(** The factor one rounding can put between a non-negative number and its
    double, [1 / (1 - 2^-53)], and its powers. *)
Definition roundingFactor : Q := 9007199254740992 # 9007199254740991.

Fixpoint roundingSlack (k : nat) : Q :=
  match k with
  | O => 1
  | S k' => roundingFactor * roundingSlack k'
  end.

(** The glyph [g] placed at [p] lies between the left edge and the width
    [W] of the container up to [k] roundings, or is wider than the
    container and starts at its left edge. *)
Definition glyphNear (W : Q) (k : nat) (g : glyph) (p : position) : Prop :=
  (0 <= pos_x p /\ pos_x p + g_width g <= W * roundingSlack k)
  \/ (W < g_width g /\ pos_x p == 0).

(** The glyphs of an event list as the binary64 layout measures them. *)
Definition measuredGlyphs (c : container) (evs : list event) : list glyph :=
  map (fun e => mkGlyph (ev_char e) (Binary64.measureChar c (ev_char e))) (lettered evs).

(** What the binary64 line builder keeps true of every line: the widths
    and the total are non-negative doubles, no width exceeds the total, the
    total of an empty line is zero and that of a single glyph is its width,
    the exact sum of the widths is the total up to one rounding per glyph,
    and a line of two or more glyphs has a total of at most [W]. *)
Definition lineNear (W : Q) (ln : line) : Prop :=
  Forall (fun g => 0 <= g_width g /\ round64 (g_width g) == g_width g
                   /\ g_width g <= total ln) (glyphs ln)
  /\ 0 <= total ln
  /\ round64 (total ln) == total ln
  /\ (glyphs ln = [] -> total ln == 0)
  /\ (forall g, glyphs ln = [g] -> total ln == g_width g)
  /\ sumWidths (glyphs ln) <= roundingSlack (length (glyphs ln)) * total ln
  /\ ((2 <= length (glyphs ln))%nat -> total ln <= W).

Definition builderNear (W : Q) (b : lineBuilder) : Prop :=
  Forall (lineNear W) (lines b) /\
  lineNear W (mkLine (currentLine b) (currentWidth b)).

(** The [y] of the line at index [i]: [y = 0], then [y += lineHeight]
    after every line. *)
Definition lineTop (lineHeight : Q) (i : nat) : Q :=
  Nat.iter i (fun y => add64 y lineHeight) 0.


(** ** Sample inputs *)

(** A container of width [w] with font size [24], no letter spacing and
    every glyph [10] wide. *)
Definition sampleBox (w : Q) : container :=
  mkContainer w (Some 24) None (fun _ => 10).

(** An event as [recordEvent] stores it before its position is known. *)
Definition typed (ch : string) (n : jsnote) (t : Q) : event := mkEvent ch n t 0 0.

Definition abEvents : list event :=
  [typed "a" (Note "C4") 0; typed "b" (Note "D4") 1].

(** Two notes typed 10 ms apart, a space, and a third note after a pause of
    almost four seconds. *)
Definition burstEvents : list event :=
  [typed "a" (Note "C4") 5; typed "b" (Note "D4") 5.01; typed " " JsNull 5.5;
   typed "c" (Note "E4") 9].

(** Two notes typed 0.1 s apart whose letters lie 300 px and 400 px apart
    (500 px in a straight line). *)
Definition farEvents : list event :=
  [mkEvent "a" (Note "C4") 0 0 0; mkEvent "b" (Note "D4") 0.1 300 400].

(** Two notes typed 0.1 s apart at the same place. *)
Definition nearEvents : list event :=
  [mkEvent "a" (Note "C4") 0 0 0; mkEvent "b" (Note "D4") 0.1 0 0].

Definition sheetOrigin : sheetGeometry := mkGeometry 0 0.

(** A stored document that starts with an empty line. *)
Definition newlineThenA : list event :=
  [typed newline JsNull 0; typed "a" (Note "C4") 1].

(** The page before anything is typed or restored. *)
Definition freshApp (al : alignment) : appState := mkApp [] al [] noCaret None None.

(** The same events after a keystroke has stored positions in them. *)
Definition withStoredPositions (evs : list event) : list event :=
  map (fun e => mkEvent (ev_char e) (ev_note e) (ev_time e) 7 9) evs.

(** The audio clock as a restore sees it: constant while the loop runs. *)
Definition frozenClock : nat -> Q := fun _ => 0.

Definition abcEvents : list event :=
  [typed "a" (Note "C4") 0; typed "b" (Note "D4") 1; typed "c" (Note "E4") 2].

(** A clip of two channels and three frames. *)
Definition stereoClip : toneBuffer :=
  mkBuffer 2 3 44100
    (fun c i => match c, i with
                | O, O => 0.5
                | O, 1%nat => -(0.25)
                | O, _ => 2
                | _, O => -3
                | _, _ => 0
                end).

(** A silent key, then two notes. *)
Definition leadInEvents : list event :=
  [typed " " JsNull 3; typed "a" (Note "C4") 5; typed "b" (Note "D4") 5.5].

(** Four notes typed 10 ms apart, at the doubles [2], [2.01], [2.02] and
    [2.03]. *)
Definition rapidEvents : list event :=
  [typed "a" (Note "C4") 2; typed "b" (Note "D4") (round64 2.01);
   typed "c" (Note "E4") (round64 2.02); typed "d" (Note "F4") (round64 2.03)].

(** A container 100 px wide in which [a] measures [12.92] px, [b]
    [11.780000000000001] px and any other glyph [7.9000000000000004] px
    (the nearest doubles), with font size [24] and no letter spacing. *)
Definition fineBox : container :=
  mkContainer 100 (Some 24) None
    (fun text => if bool_decide (text = "a") then round64 12.92
                 else if bool_decide (text = "b") then round64 11.780000000000001
                 else round64 7.9000000000000004).

(** * Properties *)

(** ** Binary64 rounding *)

Lemma pow2_pos (e : Z) : 0 < pow2 e.
Proof. apply Qpower_0_lt. reflexivity. Qed.

Lemma pow2_add (a b : Z) : pow2 (a + b) == pow2 a * pow2 b.
Proof. apply Qpower_plus. discriminate. Qed.

Lemma pow2_succ (e : Z) : pow2 (e + 1) == 2 * pow2 e.
Proof. rewrite pow2_add. change (pow2 1) with 2. ring. Qed.

Lemma pow2_pred (e : Z) : 2 * pow2 (e - 1) == pow2 e.
Proof. rewrite <- pow2_succ. replace (e - 1 + 1)%Z with e by lia. reflexivity. Qed.

Lemma pow2_lt (a b : Z) : (a < b)%Z -> pow2 a < pow2 b.
Proof. intros H. apply Qpower_lt_compat_l; [exact H | reflexivity]. Qed.

Lemma pow2_le (a b : Z) : (a <= b)%Z -> pow2 a <= pow2 b.
Proof. intros H. apply Qpower_le_compat_l; [exact H | discriminate]. Qed.

Lemma pow2_lt_inv (a b : Z) : pow2 a < pow2 b -> (a < b)%Z.
Proof. intros H. apply (Qpower_lt_compat_l_inv 2); [exact H | reflexivity]. Qed.

Lemma pow2_Z (n : Z) : (0 <= n)%Z -> inject_Z (2 ^ n) == pow2 n.
Proof. intros H. apply Zpower_Qpower. exact H. Qed.

(** The binade of a positive number is the floor of its binary logarithm. *)
Lemma binade_spec (x : Q) : 0 < x -> pow2 (binade x) <= x /\ x < pow2 (binade x + 1).
Proof.
  intros Hx. unfold binade.
  destruct x as [n d]. assert (Hn : (0 < n)%Z).
  { unfold Qlt in Hx. cbn in Hx. lia. }
  cbn [Qnum Qden].
  set (ln := Z.log2 n). set (ld := Z.log2 (Zpos d)).
  destruct (Z.log2_spec n Hn) as [Hn1 Hn2].
  destruct (Z.log2_spec (Zpos d) ltac:(lia)) as [Hd1 Hd2].
  fold ln in Hn1, Hn2. fold ld in Hd1, Hd2.
  assert (Hln : (0 <= ln)%Z) by apply Z.log2_nonneg.
  assert (Hld : (0 <= ld)%Z) by apply Z.log2_nonneg.
  assert (HA1 : pow2 ln <= inject_Z n).
  { rewrite <- pow2_Z by exact Hln. rewrite <- Zle_Qle. exact Hn1. }
  assert (HA2 : inject_Z n < 2 * pow2 ln).
  { rewrite <- pow2_succ, <- pow2_Z by lia. rewrite <- Zlt_Qlt. exact Hn2. }
  assert (HB1 : pow2 ld <= inject_Z (Zpos d)).
  { rewrite <- pow2_Z by exact Hld. rewrite <- Zle_Qle. exact Hd1. }
  assert (HB2 : inject_Z (Zpos d) < 2 * pow2 ld).
  { rewrite <- pow2_succ, <- pow2_Z by lia. rewrite <- Zlt_Qlt. exact Hd2. }
  pose proof (pow2_pos ln) as HA. pose proof (pow2_pos ld) as HB.
  assert (Hk : pow2 (ln - ld) * pow2 ld == pow2 ln).
  { rewrite <- pow2_add. replace (ln - ld + ld)%Z with ln by lia. reflexivity. }
  assert (Hxd : (n # d) * inject_Z (Zpos d) == inject_Z n).
  { unfold Qeq, inject_Z. cbn. rewrite Pos.mul_1_r. ring. }
  set (x := n # d) in *. set (N := inject_Z n) in *. set (D := inject_Z (Zpos d)) in *.
  set (A := pow2 ln) in *. set (B := pow2 ld) in *.
  assert (HD : 0 < D) by lra.
  destruct (Qlt_le_dec x (pow2 (ln - ld))) as [Hlt|Hge].
  - split.
    + replace (ln - ld - 1 + 1)%Z with (ln - ld)%Z in * by lia.
      pose proof (pow2_pred (ln - ld)) as Hp.
      set (P := pow2 (ln - ld - 1)) in *. set (K := pow2 (ln - ld)) in *.
      apply Qnot_lt_le. intros Hc.
      assert (x * D < P * (2 * B)).
      { apply Qle_lt_trans with (P * D).
        - apply Qmult_le_compat_r; lra.
        - apply Qmult_lt_l; [|exact HB2]. pose proof (pow2_pos (ln - ld - 1)). lra. }
      nra.
    + replace (ln - ld - 1 + 1)%Z with (ln - ld)%Z by lia. exact Hlt.
  - split; [exact Hge|].
    pose proof (pow2_succ (ln - ld)) as Hs.
    set (K := pow2 (ln - ld)) in *. set (S := pow2 (ln - ld + 1)) in *.
    apply Qnot_le_lt. intros Hc.
    assert (S * B <= x * D).
    { apply Qle_trans with (x * B).
      - apply Qmult_le_compat_r; lra.
      - apply Qmult_le_l; lra. }
    nra.
Qed.

Lemma binade_unique (x : Q) (k : Z) :
  pow2 k <= x -> x < pow2 (k + 1) -> binade x = k.
Proof.
  intros H1 H2.
  assert (Hx : 0 < x) by (pose proof (pow2_pos k); lra).
  destruct (binade_spec x Hx) as [H3 H4].
  assert ((binade x < k + 1)%Z) by (apply pow2_lt_inv; lra).
  assert ((k < binade x + 1)%Z) by (apply pow2_lt_inv; lra).
  lia.
Qed.

Lemma binade_comp (x y : Q) : 0 < x -> x == y -> binade x = binade y.
Proof.
  intros Hx E. symmetry. destruct (binade_spec x Hx) as [H1 H2].
  apply binade_unique; rewrite <- E; assumption.
Qed.

Lemma binade_le (x y : Q) : 0 < x -> x <= y -> (binade x <= binade y)%Z.
Proof.
  intros Hx Hxy.
  destruct (binade_spec x Hx) as [H1 _].
  destruct (binade_spec y ltac:(lra)) as [_ H2].
  assert ((binade x < binade y + 1)%Z) by (apply pow2_lt_inv; lra).
  lia.
Qed.

(** Rounding to the nearest integer, ties to even. *)
Lemma roundHalfEven_cases (x : Q) :
  let f := Qfloor x in
  inject_Z f <= x /\ x < inject_Z f + 1 /\
  ((x - inject_Z f < 1 # 2 /\ roundHalfEven x = f) \/
   (1 # 2 < x - inject_Z f /\ roundHalfEven x = (f + 1)%Z) \/
   (x - inject_Z f == 1 # 2 /\ (roundHalfEven x = f \/ roundHalfEven x = (f + 1)%Z))).
Proof.
  intros f. pose proof (Qfloor_le x) as H1. pose proof (Qlt_floor x) as H2.
  fold f in H1, H2. rewrite inject_Z_plus in H2. change (inject_Z 1) with 1 in H2.
  split; [exact H1|]. split; [exact H2|].
  unfold roundHalfEven. fold f.
  destruct (Qcompare_spec (x - inject_Z f) (1 # 2)) as [E|L|G].
  - right. right. split; [exact E|]. destruct (Z.even f); [left | right]; reflexivity.
  - left. split; [exact L | reflexivity].
  - right. left. split; [exact G | reflexivity].
Qed.

Lemma roundHalfEven_err (x : Q) :
  x - (1 # 2) <= inject_Z (roundHalfEven x) /\ inject_Z (roundHalfEven x) <= x + (1 # 2).
Proof.
  destruct (roundHalfEven_cases x) as (H1 & H2 & [[H ->]|[[H ->]|[H [-> | ->]]]]);
    rewrite ?inject_Z_plus; change (inject_Z 1) with 1; lra.
Qed.

Lemma roundHalfEven_Z (z : Z) : roundHalfEven (inject_Z z) = z.
Proof.
  unfold roundHalfEven. rewrite Qfloor_Z.
  assert (E : inject_Z z - inject_Z z == 0) by ring.
  rewrite (Qcompare_comp _ _ E _ _ (Qeq_refl _)). reflexivity.
Qed.

Lemma roundHalfEven_comp (x y : Q) : x == y -> roundHalfEven x = roundHalfEven y.
Proof.
  intros E. unfold roundHalfEven. rewrite (Qfloor_comp _ _ E).
  assert (E' : x - inject_Z (Qfloor y) == y - inject_Z (Qfloor y)) by (rewrite E; reflexivity).
  rewrite (Qcompare_comp _ _ E' _ _ (Qeq_refl _)). reflexivity.
Qed.

Lemma roundHalfEven_mono (x y : Q) : x <= y -> (roundHalfEven x <= roundHalfEven y)%Z.
Proof.
  intros Hxy. pose proof (Qfloor_resp_le _ _ Hxy) as Hf.
  destruct (roundHalfEven_cases x) as (Hx1 & Hx2 & Hx).
  destruct (roundHalfEven_cases y) as (Hy1 & Hy2 & Hy).
  destruct (Z.eq_dec (Qfloor x) (Qfloor y)) as [E|N].
  - rewrite E in *.
    destruct Hx as [[Hx Hrx]|[[Hx Hrx]|[Hx Hrx]]];
      destruct Hy as [[Hy Hry]|[[Hy Hry]|[Hy Hry]]];
      try (exfalso; lra); try (rewrite Hrx, Hry; lia).
    + destruct Hry as [Hry | Hry]; rewrite Hrx, Hry; lia.
    + destruct Hrx as [Hrx | Hrx]; rewrite Hrx, Hry; lia.
    + assert (Exy : x == y) by lra. rewrite (roundHalfEven_comp _ _ Exy). lia.
  - assert ((Qfloor x + 1 <= Qfloor y)%Z) by lia.
    assert ((roundHalfEven x <= Qfloor x + 1)%Z).
    { destruct Hx as [[_ ->]|[[_ ->]|[_ [-> | ->]]]]; lia. }
    assert ((Qfloor y <= roundHalfEven y)%Z).
    { destruct Hy as [[_ ->]|[[_ ->]|[_ [-> | ->]]]]; lia. }
    lia.
Qed.

Lemma pow2_52 : pow2 52 == 4503599627370496.
Proof. reflexivity. Qed.

(** The significand of a positive number lies in [[2^52, 2^53)]. *)
Lemma significand_bounds (x : Q) :
  0 < x ->
  4503599627370496 <= x / pow2 (binade x - 52) /\
  x / pow2 (binade x - 52) < 9007199254740992.
Proof.
  intros Hx. destruct (binade_spec x Hx) as [H1 H2].
  pose proof (pow2_pos (binade x - 52)) as HP.
  assert (Hb : pow2 (binade x) == 4503599627370496 * pow2 (binade x - 52)).
  { rewrite <- pow2_52, <- pow2_add. replace (52 + (binade x - 52))%Z with (binade x) by lia.
    reflexivity. }
  rewrite pow2_succ, Hb in H2. rewrite Hb in H1.
  set (P := pow2 (binade x - 52)) in *.
  split.
  - apply Qle_shift_div_l; [exact HP | exact H1].
  - apply Qlt_shift_div_r; [exact HP | lra].
Qed.

Lemma roundHalfEven_ge (x : Q) (z : Z) : inject_Z z <= x -> (z <= roundHalfEven x)%Z.
Proof. intros H. rewrite <- (roundHalfEven_Z z). apply roundHalfEven_mono, H. Qed.

Lemma roundHalfEven_le (x : Q) (z : Z) : x <= inject_Z z -> (roundHalfEven x <= z)%Z.
Proof.
  intros H. pose proof (roundHalfEven_mono _ _ H) as Hm.
  rewrite roundHalfEven_Z in Hm. exact Hm.
Qed.

Lemma roundPositive_bounds (x : Q) :
  0 < x ->
  pow2 (binade x) <= roundPositive x /\ roundPositive x <= pow2 (binade x + 1).
Proof.
  intros Hx. destruct (significand_bounds x Hx) as [H1 H2].
  unfold roundPositive.
  pose proof (pow2_pos (binade x - 52)) as HP.
  assert (Hb : pow2 (binade x) == 4503599627370496 * pow2 (binade x - 52)).
  { rewrite <- pow2_52, <- pow2_add. replace (52 + (binade x - 52))%Z with (binade x) by lia.
    reflexivity. }
  rewrite pow2_succ, Hb.
  set (P := pow2 (binade x - 52)) in *. set (s := x / P) in *.
  assert (Hlo : (4503599627370496 <= roundHalfEven s)%Z) by (apply roundHalfEven_ge; exact H1).
  assert (Hhi : (roundHalfEven s <= 9007199254740992)%Z).
  { apply roundHalfEven_le. apply Qlt_le_weak. exact H2. }
  rewrite Zle_Qle in Hlo, Hhi.
  change (inject_Z 4503599627370496) with 4503599627370496 in Hlo.
  change (inject_Z 9007199254740992) with 9007199254740992 in Hhi.
  split.
  - apply Qmult_le_compat_r; [exact Hlo | lra].
  - apply Qle_trans with (9007199254740992 * P); [|lra].
    apply Qmult_le_compat_r; [exact Hhi | lra].
Qed.

(** The relative error of rounding is at most [2^-53]. *)
Lemma roundPositive_err (x : Q) :
  0 < x ->
  x * (1 - unitRoundoff) <= roundPositive x /\ roundPositive x <= x * (1 + unitRoundoff).
Proof.
  intros Hx. destruct (significand_bounds x Hx) as [H1 H2].
  unfold roundPositive, unitRoundoff.
  pose proof (pow2_pos (binade x - 52)) as HP.
  set (P := pow2 (binade x - 52)) in *.
  assert (Hs : x == x / P * P) by (field; lra).
  set (s := x / P) in *.
  destruct (roundHalfEven_err s) as [E1 E2].
  set (m := inject_Z (roundHalfEven s)) in *.
  assert (K1 : (s - (1 # 2)) * P <= m * P) by (apply Qmult_le_compat_r; lra).
  assert (K2 : m * P <= (s + (1 # 2)) * P) by (apply Qmult_le_compat_r; lra).
  assert (K3 : 4503599627370496 * P <= s * P) by (apply Qmult_le_compat_r; lra).
  split; rewrite Hs at 1; lra.
Qed.

Lemma roundPositive_comp (x y : Q) : 0 < x -> x == y -> roundPositive x == roundPositive y.
Proof.
  intros Hx E. unfold roundPositive. rewrite <- (binade_comp x y Hx E).
  assert (E' : x / pow2 (binade x - 52) == y / pow2 (binade x - 52)).
  { unfold Qdiv. apply Qmult_comp; [exact E | reflexivity]. }
  rewrite (roundHalfEven_comp _ _ E'). reflexivity.
Qed.

Lemma roundPositive_mono (x y : Q) : 0 < x -> x <= y -> roundPositive x <= roundPositive y.
Proof.
  intros Hx Hxy. assert (Hy : 0 < y) by lra.
  pose proof (binade_le x y Hx Hxy) as Hb.
  destruct (Z.eq_dec (binade x) (binade y)) as [E|N].
  - unfold roundPositive. rewrite E.
    pose proof (pow2_pos (binade y - 52)) as HP.
    set (P := pow2 (binade y - 52)) in *.
    apply Qmult_le_compat_r; [|lra].
    rewrite <- Zle_Qle. apply roundHalfEven_mono.
    apply Qmult_le_compat_r; [exact Hxy|].
    apply Qlt_le_weak, Qinv_lt_0_compat, HP.
  - destruct (roundPositive_bounds x Hx) as [_ H1].
    destruct (roundPositive_bounds y Hy) as [H2 _].
    pose proof (pow2_le (binade x + 1) (binade y) ltac:(lia)). lra.
Qed.

(** A number with a significand of at most 53 bits is left as it is. *)
Lemma roundPositive_dyadic (m e : Z) :
  (0 < m <= 9007199254740992)%Z ->
  roundPositive (inject_Z m * pow2 e) == inject_Z m * pow2 e.
Proof.
  assert (Hlt : forall m e, (0 < m < 9007199254740992)%Z ->
            roundPositive (inject_Z m * pow2 e) == inject_Z m * pow2 e).
  { clear m e. intros m e [Hm1 Hm2].
    pose proof (pow2_pos e) as HE.
    assert (Hm1' : 1 <= inject_Z m).
    { change 1 with (inject_Z 1). rewrite <- Zle_Qle. lia. }
    assert (Hm2' : inject_Z m < 9007199254740992).
    { change 9007199254740992 with (inject_Z 9007199254740992). rewrite <- Zlt_Qlt. lia. }
    set (x := inject_Z m * pow2 e).
    assert (Hx : 0 < x) by (unfold x; nra).
    destruct (binade_spec x Hx) as [H1 _].
    assert (Hb : (binade x < e + 53)%Z).
    { apply pow2_lt_inv. apply Qle_lt_trans with x; [exact H1|].
      rewrite pow2_add. change (pow2 53) with 9007199254740992. unfold x. nra. }
    unfold roundPositive.
    set (e' := (binade x - 52)%Z) in *.
    assert (Hsplit : pow2 e == inject_Z (2 ^ (e - e')) * pow2 e').
    { rewrite pow2_Z by lia. rewrite <- pow2_add.
      replace (e - e' + e')%Z with e by lia. reflexivity. }
    pose proof (pow2_pos e') as HP.
    assert (Hs : x / pow2 e' == inject_Z (m * 2 ^ (e - e'))).
    { unfold x. rewrite Hsplit, inject_Z_mult. field. lra. }
    rewrite (roundHalfEven_comp _ _ Hs), roundHalfEven_Z.
    unfold x. rewrite Hsplit, inject_Z_mult. ring. }
  intros [Hm1 Hm2].
  destruct (Z.eq_dec m 9007199254740992%Z) as [-> | N].
  - assert (E : inject_Z 9007199254740992 * pow2 e
                == inject_Z 4503599627370496 * pow2 (e + 1)).
    { rewrite pow2_succ. change (inject_Z 9007199254740992) with 9007199254740992.
      change (inject_Z 4503599627370496) with 4503599627370496. ring. }
    assert (Hp : 0 < inject_Z 9007199254740992 * pow2 e).
    { apply Qmult_lt_0_compat; [reflexivity | apply pow2_pos]. }
    rewrite (roundPositive_comp _ _ Hp E).
    rewrite (Hlt 4503599627370496%Z (e + 1)%Z ltac:(lia)). symmetry. exact E.
  - apply Hlt. lia.
Qed.

Lemma round64_pos_eq (x : Q) : 0 < x -> round64 x = roundPositive x.
Proof.
  intros H. unfold round64.
  destruct (Qcompare_spec x 0); [exfalso; lra | exfalso; lra | reflexivity].
Qed.

Lemma round64_neg_eq (x : Q) : x < 0 -> round64 x = - roundPositive (- x).
Proof.
  intros H. unfold round64.
  destruct (Qcompare_spec x 0); [exfalso; lra | reflexivity | exfalso; lra].
Qed.

Lemma round64_zero_eq (x : Q) : x == 0 -> round64 x = 0.
Proof.
  intros H. unfold round64.
  destruct (Qcompare_spec x 0); [reflexivity | exfalso; lra | exfalso; lra].
Qed.

Lemma roundPositive_pos (x : Q) : 0 < x -> 0 < roundPositive x.
Proof.
  intros Hx. destruct (roundPositive_bounds x Hx) as [H _].
  pose proof (pow2_pos (binade x)). lra.
Qed.

Lemma round64_comp (x y : Q) : x == y -> round64 x == round64 y.
Proof.
  intros E. destruct (Qcompare_spec x 0) as [Hx|Hx|Hx].
  - rewrite (round64_zero_eq x Hx), (round64_zero_eq y) by lra. reflexivity.
  - rewrite (round64_neg_eq x Hx), (round64_neg_eq y) by lra.
    rewrite (roundPositive_comp (- x) (- y)) by lra. reflexivity.
  - rewrite (round64_pos_eq x Hx), (round64_pos_eq y) by lra.
    apply roundPositive_comp; assumption.
Qed.

Lemma round64_opp (x : Q) : round64 (- x) == - round64 x.
Proof.
  destruct (Qcompare_spec x 0) as [Hx|Hx|Hx].
  - rewrite (round64_zero_eq x Hx), (round64_zero_eq (- x)) by lra. reflexivity.
  - rewrite (round64_neg_eq x Hx), (round64_pos_eq (- x)) by lra. ring.
  - rewrite (round64_pos_eq x Hx), (round64_neg_eq (- x)) by lra.
    rewrite (roundPositive_comp (- - x) x) by lra. reflexivity.
Qed.

(** The standard model of rounding: a relative error of at most [2^-53]. *)
Lemma round64_err (x : Q) :
  0 <= x ->
  x * (1 - unitRoundoff) <= round64 x /\ round64 x <= x * (1 + unitRoundoff).
Proof.
  intros Hx. destruct (Qcompare_spec x 0) as [H0|Hneg|Hpos].
  - rewrite (round64_zero_eq x H0). rewrite H0. split; discriminate.
  - exfalso. lra.
  - rewrite (round64_pos_eq x Hpos). apply roundPositive_err, Hpos.
Qed.

Lemma round64_nonneg (x : Q) : 0 <= x -> 0 <= round64 x.
Proof.
  intros Hx. destruct (round64_err x Hx) as [H _]. unfold unitRoundoff in H.
  assert (0 <= x * (1 - (1 # 9007199254740992))) by nra. lra.
Qed.

Lemma round64_pos (x : Q) : 0 < x -> 0 < round64 x.
Proof. intros Hx. rewrite (round64_pos_eq x Hx). apply roundPositive_pos, Hx. Qed.

Lemma round64_nonpos (x : Q) : x <= 0 -> round64 x <= 0.
Proof.
  intros Hx. pose proof (round64_nonneg (- x) ltac:(lra)) as H.
  rewrite round64_opp in H. lra.
Qed.

Lemma round64_neg (x : Q) : x < 0 -> round64 x < 0.
Proof.
  intros Hx. pose proof (round64_pos (- x) ltac:(lra)) as H.
  rewrite round64_opp in H. lra.
Qed.

(** Rounding keeps the order. *)
Lemma round64_mono (x y : Q) : x <= y -> round64 x <= round64 y.
Proof.
  intros Hxy. destruct (Qcompare_spec x 0) as [Hx|Hx|Hx].
  - rewrite (round64_zero_eq x Hx). apply round64_nonneg. lra.
  - destruct (Qlt_le_dec y 0) as [Hy|Hy].
    + rewrite (round64_neg_eq x Hx), (round64_neg_eq y Hy).
      pose proof (roundPositive_mono (- y) (- x) ltac:(lra) ltac:(lra)). lra.
    + pose proof (round64_neg x Hx). pose proof (round64_nonneg y Hy). lra.
  - rewrite (round64_pos_eq x Hx), (round64_pos_eq y) by lra.
    apply roundPositive_mono; assumption.
Qed.

(** Numbers with a significand of at most 53 bits are representable. *)
Lemma round64_dyadic (m e : Z) :
  (- 9007199254740992 <= m <= 9007199254740992)%Z ->
  round64 (inject_Z m * pow2 e) == inject_Z m * pow2 e.
Proof.
  intros Hm. pose proof (pow2_pos e) as HP.
  destruct (Z.lt_trichotomy m 0) as [Hneg|[->|Hpos]].
  - assert (Hx : inject_Z m * pow2 e < 0).
    { assert (inject_Z m <= -1).
      { change (-1) with (inject_Z (-1)). rewrite <- Zle_Qle. lia. }
      nra. }
    rewrite (round64_neg_eq _ Hx).
    assert (E : - (inject_Z m * pow2 e) == inject_Z (- m) * pow2 e).
    { rewrite inject_Z_opp. ring. }
    assert (Hp : 0 < - (inject_Z m * pow2 e)) by lra.
    rewrite (roundPositive_comp _ _ Hp E).
    rewrite roundPositive_dyadic by lia. rewrite inject_Z_opp. ring.
  - rewrite (round64_zero_eq (inject_Z 0 * pow2 e)); [|change (inject_Z 0) with 0; ring].
    change (inject_Z 0) with 0. ring.
  - assert (Hx : 0 < inject_Z m * pow2 e).
    { assert (1 <= inject_Z m).
      { change 1 with (inject_Z 1). rewrite <- Zle_Qle. lia. }
      nra. }
    rewrite (round64_pos_eq _ Hx). apply roundPositive_dyadic. lia.
Qed.

Lemma round64_Z (z : Z) :
  (- 9007199254740992 <= z <= 9007199254740992)%Z -> round64 (inject_Z z) == inject_Z z.
Proof.
  intros Hz. pose proof (round64_dyadic z 0 Hz) as H.
  change (pow2 0) with 1 in H.
  rewrite (round64_comp (inject_Z z) (inject_Z z * 1)) by ring. rewrite H. ring.
Qed.

(** A rounded number is representable: rounding it again changes nothing. *)
Lemma round64_idem (x : Q) : round64 (round64 x) == round64 x.
Proof.
  assert (Hpos : forall x, 0 < x -> round64 (roundPositive x) == roundPositive x).
  { clear x. intros x Hx. destruct (significand_bounds x Hx) as [H1 H2].
    unfold roundPositive. cbv zeta.
    apply round64_dyadic.
    pose proof (roundHalfEven_ge _ 4503599627370496%Z H1).
    pose proof (roundHalfEven_le _ 9007199254740992%Z (Qlt_le_weak _ _ H2)). lia. }
  destruct (Qcompare_spec x 0) as [Hx|Hx|Hx].
  - rewrite (round64_zero_eq x Hx). reflexivity.
  - rewrite (round64_neg_eq x Hx). rewrite round64_opp, Hpos by lra. reflexivity.
  - rewrite (round64_pos_eq x Hx). apply Hpos, Hx.
Qed.

(** ** The key-to-note mapping *)

(** The [i]-th letter is the character with code [97 + i]. *)
Lemma letterKey_code (i : nat) (k : string) :
  letterKey i = Some k ->
  (i < 26)%nat /\ k = String (ascii_of_nat (97 + i)) EmptyString.
Proof.
  intros Hk.
  do 26 (destruct i as [|i]; [injection Hk as <-; split; [lia | reflexivity]|]).
  discriminate Hk.
Qed.

Lemma letterKey_defined (i : nat) : (i < 26)%nat -> exists k, letterKey i = Some k.
Proof.
  intros Hi.
  do 26 (destruct i as [|i]; [eexists; reflexivity|]).
  lia.
Qed.

Lemma letterKey_inj (i j : nat) (k : string) :
  letterKey i = Some k -> letterKey j = Some k -> i = j.
Proof.
  intros [Hi ->]%letterKey_code [Hj Heq]%letterKey_code.
  assert (H : ascii_of_nat (97 + i) = ascii_of_nat (97 + j)) by congruence.
  apply (f_equal nat_of_ascii) in H.
  rewrite !nat_ascii_embedding in H by lia.
  lia.
Qed.

Lemma letterKey_not_blank (i : nat) (k : string) :
  letterKey i = Some k -> k <> space /\ k <> newline.
Proof.
  intros [Hi ->]%letterKey_code.
  do 26 (destruct i as [|i]; [split; discriminate|]).
  lia.
Qed.

(** Indices other than [i] leave the key of letter [i] alone. *)
Lemma foldl_assign_other (pool : poolval) (i : nat) (k : string) :
  letterKey i = Some k ->
  forall (js : list nat) (m : gmap string jsnote),
    i ∉ js -> foldl (assignLetter pool) m js !! k = m !! k.
Proof.
  intros Hk js. induction js as [|j js IH]; intros m Hnot; [reflexivity|].
  cbn [foldl]. rewrite IH by (intros Hin; apply Hnot; right; exact Hin).
  unfold assignLetter. destruct (letterKey j) as [kj|] eqn:Hj; [|reflexivity].
  apply lookup_insert_ne. intros ->.
  apply Hnot. rewrite (letterKey_inj _ _ _ Hk Hj). left.
Qed.

(** The loop stores [pool[i % pool.length]] under letter [i]. *)
Lemma foldl_assign_at (pool : poolval) (i : nat) (k : string) :
  letterKey i = Some k ->
  forall (js : list nat) (m : gmap string jsnote),
    NoDup js -> i ∈ js ->
    foldl (assignLetter pool) m js !! k = Some (poolAt pool i).
Proof.
  intros Hk js. induction js as [|j js IH]; intros m Hnd Hin.
  - inversion Hin.
  - apply NoDup_cons in Hnd as [Hj Hnd]. cbn [foldl].
    destruct (decide (i = j)) as [<-|Hne].
    + rewrite (foldl_assign_other pool i k Hk) by exact Hj.
      unfold assignLetter. rewrite Hk. apply lookup_insert_eq.
    + apply IH; [exact Hnd|].
      apply elem_of_cons in Hin as [Heq|Hin]; [contradiction|exact Hin].
Qed.

Lemma buildKeyToNote_letter (P : string) (i : nat) (k : string) :
  letterKey i = Some k ->
  buildKeyToNote P !! k = Some (poolAt (poolOf P) i).
Proof.
  intros Hk. destruct (letterKey_not_blank i k Hk) as [Hs Hn].
  destruct (letterKey_code i k Hk) as [Hi _].
  unfold buildKeyToNote.
  rewrite lookup_insert_ne by (intros E; apply Hn; symmetry; exact E).
  rewrite lookup_insert_ne by (intros E; apply Hs; symmetry; exact E).
  apply foldl_assign_at; [exact Hk | apply NoDup_seq |].
  apply elem_of_seq. change (String.length letters) with 26%nat. lia.
Qed.

Lemma buildKeyToNote_blank (P : string) :
  buildKeyToNote P !! space = Some JsNull /\ buildKeyToNote P !! newline = Some JsNull.
Proof.
  unfold buildKeyToNote. split.
  - rewrite lookup_insert_ne by discriminate. apply lookup_insert_eq.
  - apply lookup_insert_eq.
Qed.

(** The own properties of [palettes] are the three palettes. *)
Lemma palettes_known (P : string) (pool : list string) :
  palettes !! P = Some pool ->
  (P = "majorC" /\ pool = ["C4"; "D4"; "E4"; "F4"; "G4"; "A4"; "B4"; "C5"]) \/
  (P = "minorA" /\ pool = ["A3"; "B3"; "C4"; "D4"; "E4"; "F4"; "G4"; "A4"]) \/
  (P = "pentatonicC" /\ pool = ["C4"; "D4"; "E4"; "G4"; "A4"; "C5"]).
Proof.
  unfold palettes. intros H.
  destruct (decide (P = "majorC")) as [->|H1].
  { rewrite lookup_insert_eq in H. injection H as <-. left. done. }
  rewrite lookup_insert_ne in H by done.
  destruct (decide (P = "minorA")) as [->|H2].
  { rewrite lookup_insert_eq in H. injection H as <-. right. left. done. }
  rewrite lookup_insert_ne in H by done.
  destruct (decide (P = "pentatonicC")) as [->|H3].
  { rewrite lookup_insert_eq in H. injection H as <-. right. right. done. }
  rewrite lookup_insert_ne in H by done.
  rewrite lookup_empty in H. discriminate H.
Qed.

Lemma palettes_nonempty (P : string) (pool : list string) :
  palettes !! P = Some pool -> (0 < length pool)%nat.
Proof.
  intros [[_ ->]|[[_ ->]|[_ ->]]]%palettes_known; cbn; lia.
Qed.

(** C6: for a palette name [P] with pitch pool [pool], the mapping built
    from [P] sends the [i]-th lowercase letter to the pitch at index
    [i mod (length pool)] of the pool, and sends space and newline to
    [null].  The mapping is a function of [P] alone: it reads nothing but
    the constant tables. *)
Theorem buildKeyToNote_cycles_pool (P : string) (pool : list string) (i : nat) :
  palettes !! P = Some pool ->
  (i < 26)%nat ->
  exists (k pitch : string),
    letterKey i = Some k /\
    pool !! (i mod length pool)%nat = Some pitch /\
    buildKeyToNote P !! k = Some (Note pitch) /\
    buildKeyToNote P !! space = Some JsNull /\
    buildKeyToNote P !! newline = Some JsNull.
Proof.
  intros HP Hi.
  destruct (letterKey_defined i Hi) as [k Hk].
  pose proof (palettes_nonempty P pool HP) as Hlen.
  assert (Hlt : (i mod length pool < length pool)%nat) by (apply Nat.mod_upper_bound; lia).
  destruct (lookup_lt_is_Some_2 pool _ Hlt) as [pitch Hpitch].
  exists k, pitch. split; [exact Hk|]. split; [exact Hpitch|].
  split; [|apply buildKeyToNote_blank].
  rewrite (buildKeyToNote_letter P i k Hk).
  unfold poolOf. rewrite HP. cbn [poolAt].
  rewrite bool_decide_eq_false_2 by lia.
  rewrite Hpitch. reflexivity.
Qed.

(** The letter [h] (index 7) under [pentatonicC], a pool of six. *)
Lemma buildKeyToNote_cycles_pool_witness :
  exists (k pitch : string),
    letterKey 7 = Some k /\
    ["C4"; "D4"; "E4"; "G4"; "A4"; "C5"] !! (7 mod 6)%nat = Some pitch /\
    buildKeyToNote "pentatonicC" !! k = Some (Note pitch) /\
    buildKeyToNote "pentatonicC" !! space = Some JsNull /\
    buildKeyToNote "pentatonicC" !! newline = Some JsNull.
Proof.
  apply (buildKeyToNote_cycles_pool "pentatonicC" ["C4"; "D4"; "E4"; "G4"; "A4"; "C5"] 7).
  - reflexivity.
  - lia.
Defined.

(** ** The line builder *)

Lemma sumWidths_nil : sumWidths [] = 0.
Proof. reflexivity. Qed.

Lemma sumWidths_cons (g : glyph) (gs : list glyph) :
  sumWidths (g :: gs) = g_width g + sumWidths gs.
Proof. reflexivity. Qed.

Lemma sumWidths_app (a b : list glyph) :
  sumWidths (a ++ b) == sumWidths a + sumWidths b.
Proof.
  induction a as [|g a IH].
  - rewrite app_nil_l, sumWidths_nil. lra.
  - rewrite <- app_comm_cons, !sumWidths_cons. lra.
Qed.

Lemma sumWidths_nonneg (gs : list glyph) :
  Forall (fun g => 0 <= g_width g) gs -> 0 <= sumWidths gs.
Proof.
  induction 1 as [|g gs Hg _ IH].
  - rewrite sumWidths_nil. lra.
  - rewrite sumWidths_cons. lra.
Qed.

Lemma width_le_sum (gs : list glyph) (g : glyph) :
  Forall (fun g => 0 <= g_width g) gs -> g ∈ gs -> g_width g <= sumWidths gs.
Proof.
  induction 1 as [|g' gs Hg Hgs IH]; intros Hin.
  - inversion Hin.
  - rewrite sumWidths_cons. pose proof (sumWidths_nonneg gs Hgs).
    apply elem_of_cons in Hin as [->|Hin]; [lra|].
    specialize (IH Hin). lra.
Qed.

Section Builder.

Variable c : container.
Hypothesis widths_nonneg : forall ch, 0 <= measureChar c ch.

Lemma emptyLine_fits (W : Q) : lineFits W (mkLine [] 0).
Proof.
  split; [|split]; cbn; [lra | constructor | lia].
Qed.

Lemma pushLine_fits (W : Q) (b : lineBuilder) :
  builderFits W b -> builderFits W (pushLine b).
Proof.
  intros [Hls Hcur]. split; cbn.
  - apply Forall_app. split; [exact Hls | constructor; [exact Hcur | constructor]].
  - apply emptyLine_fits.
Qed.

Lemma lineStep_fits (b : lineBuilder) (ev : event) :
  builderFits (rectWidth c) b -> builderFits (rectWidth c) (lineStep c b ev).
Proof.
  intros Hb. unfold lineStep.
  destruct (bool_decide (ev_char ev = newline)); [apply pushLine_fits; exact Hb|].
  set (w := measureChar c (ev_char ev)).
  assert (Hw : 0 <= w) by apply widths_nonneg.
  destruct (wraps (rectWidth c) b w) eqn:Hwrap.
  - destruct (pushLine_fits _ _ Hb) as [Hls _].
    split; [exact Hls|]. unfold pushGlyph, pushLine, lineFits.
    cbn [glyphs total currentLine currentWidth lines app length].
    rewrite sumWidths_cons, sumWidths_nil. cbn [g_width].
    split; [lra|]. split; [repeat constructor; exact Hw | lia].
  - destruct Hb as [Hls (Htot & Hnn & Hfit)]. cbn [glyphs total] in Htot, Hnn, Hfit.
    split; [exact Hls|]. unfold pushGlyph, lineFits. cbn [glyphs total currentLine currentWidth].
    split; [|split].
    + rewrite sumWidths_app, sumWidths_cons, sumWidths_nil. cbn [g_width]. lra.
    + apply Forall_app. split; [exact Hnn | repeat constructor; exact Hw].
    + rewrite length_app. cbn [length]. intros Hlen.
      unfold wraps in Hwrap. destruct (currentLine b) as [|g0 cur]; [cbn in Hlen; lia|].
      destruct (Qlt_le_dec (rectWidth c) (currentWidth b + w)) as [|Hle]; [discriminate|].
      exact Hle.
Qed.

Lemma foldl_lineStep_fits (evs : list event) (b : lineBuilder) :
  builderFits (rectWidth c) b ->
  builderFits (rectWidth c) (foldl (lineStep c) b evs).
Proof.
  revert b. induction evs as [|ev evs IH]; intros b Hb; cbn; [exact Hb|].
  apply IH, lineStep_fits, Hb.
Qed.

Lemma buildLines_fits (evs : list event) :
  Forall (lineFits (rectWidth c)) (buildLines c evs).
Proof.
  unfold buildLines.
  apply (pushLine_fits (rectWidth c)), foldl_lineStep_fits.
  split; [constructor | apply emptyLine_fits].
Qed.

End Builder.

Lemma pushLine_glyphs (b : lineBuilder) : builderGlyphs (pushLine b) = builderGlyphs b.
Proof.
  unfold builderGlyphs, pushLine. cbn.
  rewrite map_app, concat_app. cbn. rewrite !app_nil_r. reflexivity.
Qed.

Lemma lineStep_glyphs (c : container) (b : lineBuilder) (ev : event) :
  builderGlyphs (lineStep c b ev) = builderGlyphs b ++ glyphsOf c [ev].
Proof.
  unfold lineStep, glyphsOf.
  destruct (bool_decide (ev_char ev = newline)) eqn:Hnl.
  - apply bool_decide_eq_true in Hnl.
    rewrite pushLine_glyphs.
    rewrite filter_cons_False by (intros H; apply H; exact Hnl).
    cbn. rewrite app_nil_r. reflexivity.
  - apply bool_decide_eq_false in Hnl.
    rewrite filter_cons_True by exact Hnl. cbn.
    destruct (wraps (rectWidth c) b (measureChar c (ev_char ev))).
    + unfold builderGlyphs at 1. cbn -[pushLine].
      change (concat (map glyphs (lines (pushLine b))) ++ currentLine (pushLine b) ++ _)
        with (concat (map glyphs (lines (pushLine b))) ++ [] ++ [mkGlyph (ev_char ev) (measureChar c (ev_char ev))]).
      cbn. rewrite map_app, concat_app. cbn. unfold builderGlyphs.
      rewrite !app_nil_r. reflexivity.
    + unfold builderGlyphs. cbn. rewrite app_assoc. reflexivity.
Qed.

Lemma glyphsOf_cons (c : container) (ev : event) (evs : list event) :
  glyphsOf c (ev :: evs) = glyphsOf c [ev] ++ glyphsOf c evs.
Proof.
  unfold glyphsOf. rewrite <- map_app. f_equal.
  apply (filter_app _ [ev] evs).
Qed.

Lemma foldl_lineStep_glyphs (c : container) (evs : list event) (b : lineBuilder) :
  builderGlyphs (foldl (lineStep c) b evs) = builderGlyphs b ++ glyphsOf c evs.
Proof.
  revert b. induction evs as [|ev evs IH]; intros b.
  - cbn. rewrite app_nil_r. reflexivity.
  - cbn [foldl]. rewrite IH, lineStep_glyphs, <- app_assoc, <- glyphsOf_cons.
    reflexivity.
Qed.

Lemma buildLines_glyphs (c : container) (evs : list event) :
  concat (map glyphs (buildLines c evs)) = glyphsOf c evs.
Proof.
  pose proof (foldl_lineStep_glyphs c evs emptyBuilder) as H.
  rewrite <- pushLine_glyphs in H.
  unfold builderGlyphs in H. cbn in H. rewrite app_nil_r in H. exact H.
Qed.

(** ** Placement *)


Lemma count_cons (g : glyph) (gs : list glyph) : count (g :: gs) == count gs + 1.
Proof.
  unfold count. cbn [length]. rewrite Nat2Z.inj_succ, <- Z.add_1_r, inject_Z_plus.
  reflexivity.
Qed.

Lemma count_nonneg (gs : list glyph) : 0 <= count gs.
Proof.
  unfold count. change 0 with (inject_Z 0). rewrite <- Zle_Qle. lia.
Qed.

Lemma count_gt_1 (gs : list glyph) : (1 < length gs)%nat -> 1 < count gs.
Proof.
  intros H. unfold count. change 1 with (inject_Z 1). rewrite <- Zlt_Qlt. lia.
Qed.

Lemma jsdiv_nonzero (a b : Q) : ~ b == 0 -> jsdiv a b = Some (a / b).
Proof.
  intros Hb. unfold jsdiv. destruct (Qeq_dec b 0) as [E|_]; [contradiction|reflexivity].
Qed.

Lemma Qmax_0_div (x d : Q) : 0 < d -> Qmax 0 (x / d) == Qmax 0 x / d.
Proof.
  intros Hd.
  destruct (Qlt_le_dec x 0) as [Hneg|Hpos].
  - assert (x / d <= 0).
    { apply Qle_shift_div_r; [exact Hd | lra]. }
    rewrite (Q.max_l 0 (x / d)) by assumption.
    rewrite (Q.max_l 0 x) by lra. unfold Qdiv. lra.
  - assert (0 <= x / d).
    { apply Qle_shift_div_l; [exact Hd | lra]. }
    rewrite (Q.max_r 0 (x / d)) by assumption.
    rewrite (Q.max_r 0 x) by lra. reflexivity.
Qed.

(** The start offset and the extra gap of a line, in closed form. *)
Lemma lineAdjust_formula (a : alignment) (W : Q) (isLast : bool) (ln : line) :
  exists s g,
    lineAdjust a W isLast ln = Some (s, g) /\
    match a with
    | AlignLeft => s == 0 /\ g == 0
    | AlignCenter => s == Qmax 0 ((W - total ln) / 2) /\ g == 0
    | AlignRight => s == Qmax 0 (W - total ln) /\ g == 0
    | AlignJustify =>
        s == 0 /\
        if negb isLast && bool_decide (1 < length (glyphs ln))%nat
        then g == Qmax 0 (W - total ln) / (count (glyphs ln) - 1)
        else g == 0
    end.
Proof.
  destruct a; unfold lineAdjust.
  - exists 0, 0. split; [reflexivity | split; reflexivity].
  - rewrite jsdiv_nonzero by (intros E; discriminate E).
    eexists _, _. split; [reflexivity | split; reflexivity].
  - eexists _, _. split; [reflexivity | split; reflexivity].
  - destruct (negb isLast && bool_decide (1 < length (glyphs ln))%nat) eqn:Hj.
    + apply andb_prop in Hj as [_ Hn]. apply bool_decide_eq_true in Hn.
      pose proof (count_gt_1 _ Hn) as Hc. fold (count (glyphs ln)).
      rewrite jsdiv_nonzero by lra.
      eexists _, _. split; [reflexivity|]. split; [reflexivity|].
      apply Qmax_0_div. lra.
    + exists 0, 0. split; [reflexivity | split; reflexivity].
Qed.

(** Every glyph of a line starts at or after the line's start and ends at
    or before the start plus the widths plus the gaps. *)
Lemma placeGlyphs_extent (gap y : Q) (gs : list glyph) :
  0 <= gap ->
  Forall (fun g => 0 <= g_width g) gs ->
  forall x0,
    Forall2 (fun g p => x0 <= pos_x p /\
                        pos_x p + g_width g <= x0 + sumWidths gs + gap * (count gs - 1))
            gs (placeGlyphs x0 y gap gs).
Proof.
  intros Hgap Hnn. induction Hnn as [|g rest Hg Hrest IH]; intros x0; cbn [placeGlyphs].
  - constructor.
  - pose proof (sumWidths_nonneg rest Hrest) as Hsum.
    pose proof (count_nonneg rest) as Hcnt.
    pose proof (Qmult_le_0_compat _ _ Hgap Hcnt) as Hprod.
    pose proof (count_cons g rest) as Hcc.
    rewrite sumWidths_cons.
    constructor.
    + cbn [pos_x]. split; [lra|]. rewrite Hcc. lra.
    + destruct rest as [|g' rest'].
      * constructor.
      * eapply Forall2_impl; [apply IH|].
        intros g1 p1 [H1 H2]. cbn beta in *.
        rewrite Hcc. pose proof (count_cons g' rest') as Hcc'.
        split; [lra|]. lra.
Qed.

(** A line that satisfies the builder's invariant is placed inside the
    width, or is a single glyph wider than it, placed at the left edge. *)
Lemma placeLine_within (a : alignment) (W y : Q) (isLast : bool) (ln : line) :
  lineFits W ln ->
  exists ps, placeLine a W isLast y ln = Some ps /\
             Forall2 (glyphWithin W) (glyphs ln) ps.
Proof.
  intros (Htot & Hnn & Hfit). unfold placeLine.
  destruct (glyphs ln) as [|g0 rest] eqn:Hgs; [exists []; split; [reflexivity|constructor]|].
  destruct (lineAdjust_formula a W isLast ln) as (s & g & -> & Hform).
  cbn [mbind option_bind fst snd].
  exists (placeGlyphs s y g (g0 :: rest)). split; [reflexivity|].
  rewrite Hgs in Hform.
  pose proof (sumWidths_nonneg _ Hnn) as Hsum.
  destruct (Qlt_le_dec W (total ln)) as [Hover|Hin].
  - (* the line is wider than the container: a single glyph *)
    destruct rest as [|g1 rest]; [|exfalso; cbn in Hfit; specialize (Hfit ltac:(lia)); lra].
    rewrite sumWidths_cons, sumWidths_nil in Htot.
    cbn [placeGlyphs]. constructor; [|constructor].
    right. cbn [pos_x]. split; [lra|].
    destruct a; cbn in Hform; destruct Hform as [Hs Hg]; try exact Hs.
    + rewrite Hs. apply Q.max_l. apply Qle_shift_div_r; lra.
    + rewrite Hs. apply Q.max_l. lra.
  - (* the line fits *)
    assert (Hs0 : 0 <= s /\ 0 <= g /\ s + total ln + g * (count (g0 :: rest) - 1) <= W).
    { pose proof (count_cons g0 rest) as Hcc. pose proof (count_nonneg rest) as Hcnt.
      destruct a; destruct Hform as [Hs Hg].
      - rewrite Hs, Hg. lra.
      - assert (0 <= (W - total ln) / 2) by (apply Qle_shift_div_l; lra).
        rewrite (Q.max_r 0 ((W - total ln) / 2)) in Hs by assumption.
        rewrite Hs, Hg. split; [assumption|]. split; [lra|].
        assert (E : (W - total ln) / 2 == (W - total ln) * (1 # 2)) by reflexivity.
        rewrite E. lra.
      - rewrite (Q.max_r 0 (W - total ln)) in Hs by lra. rewrite Hs, Hg. lra.
      - destruct (negb isLast && bool_decide (1 < length (g0 :: rest))%nat) eqn:Hj.
        + apply andb_prop in Hj as [_ Hn]. apply bool_decide_eq_true in Hn.
          pose proof (count_gt_1 _ Hn) as Hc.
          rewrite (Q.max_r 0 (W - total ln)) in Hg by lra.
          assert (Hmul : g * (count (g0 :: rest) - 1) == W - total ln).
          { rewrite Hg. unfold Qdiv. rewrite <- Qmult_assoc.
            rewrite (Qmult_comm (/ _)), Qmult_inv_r by lra. lra. }
          assert (0 <= g).
          { rewrite Hg. apply Qle_shift_div_l; lra. }
          rewrite Hs. lra.
        + rewrite Hs, Hg. lra. }
    destruct Hs0 as (Hs & Hg & Hext).
    eapply Forall2_impl; [apply (placeGlyphs_extent g y (g0 :: rest) Hg Hnn s)|].
    intros g1 p1 [H1 H2]. left. cbn beta in H1, H2. split; lra.
Qed.

Lemma placeLines_within (a : alignment) (W lh : Q) (ls : list line) :
  Forall (lineFits W) ls ->
  forall y,
  exists ps, placeLines a W lh ls y = Some ps /\
             Forall2 (glyphWithin W) (concat (map glyphs ls)) ps.
Proof.
  induction 1 as [|ln rest Hln Hrest IH]; intros y; cbn [placeLines].
  - exists []. split; [reflexivity | constructor].
  - destruct (placeLine_within a W y (match rest with [] => true | _ :: _ => false end) ln Hln)
      as (ps0 & -> & H0).
    destruct (IH (y + lh)) as (ps & -> & Hps).
    exists (ps0 ++ ps). split; [reflexivity|].
    cbn [map concat]. apply Forall2_app; assumption.
Qed.

Lemma placeLine_total (a : alignment) (W y : Q) (isLast : bool) (ln : line) :
  exists s g,
    placeLine a W isLast y ln = Some (placeGlyphs s y g (glyphs ln)) /\
    (glyphs ln <> [] -> lineAdjust a W isLast ln = Some (s, g)).
Proof.
  destruct (lineAdjust_formula a W isLast ln) as (s & g & Hadj & _).
  exists s, g. split; [|intros _; exact Hadj].
  unfold placeLine. rewrite Hadj. destruct (glyphs ln); reflexivity.
Qed.

Lemma length_placeGlyphs (s y g : Q) (gs : list glyph) :
  length (placeGlyphs s y g gs) = length gs.
Proof.
  revert s. induction gs as [|g0 gs IH]; intros s; cbn [placeGlyphs length]; [reflexivity|].
  rewrite IH. reflexivity.
Qed.

(** The second loop never divides by zero. *)
Lemma placeLines_total (a : alignment) (W lh : Q) (ls : list line) :
  forall y,
  exists ps, placeLines a W lh ls y = Some ps /\
             length ps = length (concat (map glyphs ls)).
Proof.
  induction ls as [|l ls IH]; intros y; cbn [placeLines].
  - exists []. split; reflexivity.
  - destruct (placeLine_total a W y (match ls with [] => true | _ :: _ => false end) l)
      as (s & g & -> & _).
    destruct (IH (y + lh)) as (ps & -> & Hlen).
    eexists. split; [reflexivity|].
    cbn [map concat]. rewrite !length_app, length_placeGlyphs, Hlen. reflexivity.
Qed.


Lemma layoutEventsAligned_total (c : container) (evs : list event) (a : alignment) :
  exists ps,
    placeLines a (rectWidth c) (lineHeightOf c) (buildLines c evs) 0 = Some ps /\
    layoutEventsAligned c evs a = Some (mkLayout ps (lineHeightOf c)) /\
    length ps = length (glyphsOf c evs).
Proof.
  destruct (placeLines_total a (rectWidth c) (lineHeightOf c) (buildLines c evs) 0)
    as (ps & Hps & Hlen).
  exists ps. split; [exact Hps|].
  split; [unfold layoutEventsAligned; rewrite Hps; reflexivity|].
  rewrite Hlen, buildLines_glyphs. reflexivity.
Qed.


(** One iteration of the first loop opens a new line exactly on a newline
    or when the current line is not empty and the character is wider than
    what is left of the width. *)
Lemma lineStep_new_line (c : container) (b : lineBuilder) (ev : event) :
  length (lines (lineStep c b ev)) = S (length (lines b)) <->
  ev_char ev = newline \/
  (currentLine b <> [] /\
   rectWidth c - currentWidth b < measureChar c (ev_char ev)).
Proof.
  unfold lineStep, wraps.
  destruct (bool_decide (ev_char ev = newline)) eqn:Hnl.
  - apply bool_decide_eq_true in Hnl. cbn [pushLine lines]. rewrite length_app. cbn [length].
    split; [intros _; left; exact Hnl | intros _; lia].
  - apply bool_decide_eq_false in Hnl.
    destruct (currentLine b) as [|g0 cur].
    + cbn [pushGlyph lines]. split; [lia|].
      intros [H|[H _]]; [contradiction | exfalso; apply H; reflexivity].
    + destruct (Qlt_le_dec (rectWidth c) (currentWidth b + measureChar c (ev_char ev)))
        as [Hgt|Hle]; cbn [pushGlyph pushLine lines]; rewrite ?length_app; cbn [length].
      * split; [intros _; right; split; [discriminate | lra] | intros _; lia].
      * split; [lia|]. intros [H|[_ H]]; [contradiction | exfalso; lra].
Qed.

Lemma sampleBox_widths (w : Q) (ch : string) : 0 <= measureChar (sampleBox w) ch.
Proof.
  unfold measureChar, sampleBox, letterSpacingOf. cbn.
  destruct (bool_decide (ch = space)); lra.
Qed.



(** ** The aligned layout in binary64 *)

Lemma roundingFactor_gt_1 : 1 < roundingFactor.
Proof. reflexivity. Qed.

Lemma round64_le_factor (y : Q) : 0 <= y -> round64 y <= roundingFactor * y.
Proof.
  intros Hy. destruct (round64_err y Hy) as [_ H].
  assert (Hc : 1 + unitRoundoff <= roundingFactor) by (vm_compute; discriminate).
  apply Qle_trans with (y * (1 + unitRoundoff)); [exact H|].
  rewrite (Qmult_comm roundingFactor), !(Qmult_comm y).
  apply Qmult_le_compat_r; assumption.
Qed.

Lemma le_factor_round64 (y : Q) : 0 <= y -> y <= roundingFactor * round64 y.
Proof.
  intros Hy. destruct (round64_err y Hy) as [H _].
  assert (Hc : roundingFactor * (1 - unitRoundoff) == 1) by (vm_compute; reflexivity).
  assert (E : y == roundingFactor * (y * (1 - unitRoundoff))).
  { rewrite (Qmult_comm y), Qmult_assoc, Hc. ring. }
  rewrite E at 1. rewrite !(Qmult_comm roundingFactor).
  apply Qmult_le_compat_r; [exact H|]. pose proof roundingFactor_gt_1. lra.
Qed.

Lemma roundingSlack_ge_1 (k : nat) : 1 <= roundingSlack k.
Proof.
  induction k as [|k IH]; cbn [roundingSlack]; [lra|].
  pose proof roundingFactor_gt_1. nra.
Qed.

Lemma roundingSlack_add (a b : nat) :
  roundingSlack (a + b) == roundingSlack a * roundingSlack b.
Proof.
  induction a as [|a IH]; cbn [roundingSlack Nat.add]; [ring|]. rewrite IH. ring.
Qed.

Lemma roundingSlack_le (a b : nat) : (a <= b)%nat -> roundingSlack a <= roundingSlack b.
Proof.
  intros H. replace b with (a + (b - a))%nat by lia. rewrite roundingSlack_add.
  pose proof (roundingSlack_ge_1 a). pose proof (roundingSlack_ge_1 (b - a)). nra.
Qed.

Lemma measureChar64_double (c : container) (ch : string) :
  round64 (Binary64.measureChar c ch) == Binary64.measureChar c ch.
Proof. unfold Binary64.measureChar, add64. apply round64_idem. Qed.

Lemma emptyLine_near (W : Q) : lineNear W (mkLine [] 0).
Proof.
  unfold lineNear. cbn [glyphs total length sumWidths foldr roundingSlack].
  split; [constructor|]. split; [lra|]. split; [reflexivity|].
  split; [reflexivity|]. split; [discriminate|]. split; [lra | lia].
Qed.

Lemma pushLine_near (W : Q) (b : lineBuilder) :
  builderNear W b -> builderNear W (pushLine b).
Proof.
  intros [Hls Hcur]. split; cbn.
  - apply Forall_app. split; [exact Hls | constructor; [exact Hcur | constructor]].
  - apply emptyLine_near.
Qed.

(** One more glyph on a line: the new total is the rounded sum. *)
Lemma pushGlyph_near (W : Q) (cur : list glyph) (T : Q) (ch : string) (w : Q) :
  lineNear W (mkLine cur T) ->
  0 <= w -> round64 w == w ->
  (cur <> [] -> add64 T w <= W) ->
  lineNear W (mkLine (cur ++ [mkGlyph ch w]) (add64 T w)).
Proof.
  intros (Hg & HT & HTd & Hnil & Hsingle & Hsum & Hfit) Hw Hwd Htest.
  cbn [glyphs total] in *.
  assert (HT' : T <= add64 T w).
  { rewrite <- HTd at 1. apply round64_mono. lra. }
  assert (Hw' : w <= add64 T w).
  { rewrite <- Hwd at 1. apply round64_mono. lra. }
  unfold lineNear. cbn [glyphs total].
  split; [|split; [|split; [|split; [|split; [|split]]]]].
  - apply Forall_app. split.
    + eapply Forall_impl; [exact Hg|]. intros g (H1 & H2 & H3). cbn beta.
      split; [exact H1|]. split; [exact H2 | lra].
    + constructor; [|constructor]. cbn [g_width]. split; [exact Hw|]. split; assumption.
  - apply round64_nonneg. lra.
  - apply round64_idem.
  - intros E. destruct cur; discriminate E.
  - intros g E. destruct cur as [|g1 cur]; [|destruct cur; discriminate E].
    cbn [app] in E. injection E as <-. cbn [g_width].
    unfold add64. rewrite (round64_comp (T + w) w); [exact Hwd|].
    rewrite (Hnil eq_refl). ring.
  - rewrite sumWidths_app, sumWidths_cons, sumWidths_nil. cbn [g_width].
    rewrite length_app. cbn [length]. rewrite Nat.add_1_r. cbn [roundingSlack].
    pose proof (roundingSlack_ge_1 (length cur)) as Hs.
    pose proof (le_factor_round64 (T + w) ltac:(lra)) as Hr. fold (add64 T w) in Hr.
    set (s := roundingSlack (length cur)) in *. set (T' := add64 T w) in *.
    assert (s * (T + w) <= s * (roundingFactor * T')).
    { rewrite !(Qmult_comm s). apply Qmult_le_compat_r; lra. }
    nra.
  - rewrite length_app. cbn [length]. intros Hlen. apply Htest.
    destruct cur; [cbn in Hlen; lia | discriminate].
Qed.

Section Builder64.

Variable c : container.
Hypothesis widths_nonneg : forall ch, 0 <= Binary64.measureChar c ch.

Lemma b64_lineStep_near (b : lineBuilder) (ev : event) :
  builderNear (rectWidth c) b -> builderNear (rectWidth c) (Binary64.lineStep c b ev).
Proof.
  intros Hb. unfold Binary64.lineStep.
  destruct (bool_decide (ev_char ev = newline)); [apply pushLine_near; exact Hb|].
  set (w := Binary64.measureChar c (ev_char ev)).
  assert (Hw : 0 <= w) by apply widths_nonneg.
  assert (Hwd : round64 w == w) by apply measureChar64_double.
  destruct (Binary64.wraps (rectWidth c) b w) eqn:Hwrap.
  - destruct (pushLine_near _ _ Hb) as [Hls Hcur].
    split; [exact Hls|]. unfold Binary64.pushGlyph.
    cbn [currentLine currentWidth pushLine lines].
    apply (pushGlyph_near _ [] 0); [apply emptyLine_near | exact Hw | exact Hwd|].
    intros H. contradiction.
  - destruct Hb as [Hls Hcur]. split; [exact Hls|].
    unfold Binary64.pushGlyph. cbn [currentLine currentWidth].
    apply pushGlyph_near; [exact Hcur | exact Hw | exact Hwd|].
    intros Hne. unfold Binary64.wraps in Hwrap.
    destruct (currentLine b) as [|g0 cur]; [contradiction|].
    destruct (Qlt_le_dec (rectWidth c) (add64 (currentWidth b) w)) as [|Hle];
      [discriminate | exact Hle].
Qed.

Lemma b64_foldl_lineStep_near (evs : list event) (b : lineBuilder) :
  builderNear (rectWidth c) b ->
  builderNear (rectWidth c) (foldl (Binary64.lineStep c) b evs).
Proof.
  revert b. induction evs as [|ev evs IH]; intros b Hb; cbn; [exact Hb|].
  apply IH, b64_lineStep_near, Hb.
Qed.

Lemma b64_buildLines_near (evs : list event) :
  Forall (lineNear (rectWidth c)) (Binary64.buildLines c evs).
Proof.
  unfold Binary64.buildLines.
  apply (pushLine_near (rectWidth c)), b64_foldl_lineStep_near.
  split; [constructor | apply emptyLine_near].
Qed.

End Builder64.

Lemma b64_lineStep_glyphs (c : container) (b : lineBuilder) (ev : event) :
  builderGlyphs (Binary64.lineStep c b ev) = builderGlyphs b ++ measuredGlyphs c [ev].
Proof.
  unfold Binary64.lineStep, measuredGlyphs, lettered.
  destruct (bool_decide (ev_char ev = newline)) eqn:Hnl.
  - apply bool_decide_eq_true in Hnl.
    rewrite pushLine_glyphs.
    rewrite filter_cons_False by (intros H; apply H; exact Hnl).
    cbn. rewrite app_nil_r. reflexivity.
  - apply bool_decide_eq_false in Hnl.
    rewrite filter_cons_True by exact Hnl. cbn [filter list_filter map].
    destruct (Binary64.wraps (rectWidth c) b (Binary64.measureChar c (ev_char ev))).
    + unfold builderGlyphs, Binary64.pushGlyph, pushLine.
      cbn [lines currentLine]. rewrite map_app, concat_app. cbn [map concat].
      rewrite !app_nil_r. cbn [app]. reflexivity.
    + unfold builderGlyphs, Binary64.pushGlyph. cbn [lines currentLine].
      rewrite app_assoc. reflexivity.
Qed.

Lemma measuredGlyphs_cons (c : container) (ev : event) (evs : list event) :
  measuredGlyphs c (ev :: evs) = measuredGlyphs c [ev] ++ measuredGlyphs c evs.
Proof.
  unfold measuredGlyphs, lettered. rewrite <- map_app. f_equal.
  apply (filter_app _ [ev] evs).
Qed.

Lemma b64_foldl_lineStep_glyphs (c : container) (evs : list event) (b : lineBuilder) :
  builderGlyphs (foldl (Binary64.lineStep c) b evs) = builderGlyphs b ++ measuredGlyphs c evs.
Proof.
  revert b. induction evs as [|ev evs IH]; intros b.
  - cbn. rewrite app_nil_r. reflexivity.
  - cbn [foldl]. rewrite IH, b64_lineStep_glyphs, <- app_assoc, <- measuredGlyphs_cons.
    reflexivity.
Qed.

Lemma b64_buildLines_glyphs (c : container) (evs : list event) :
  concat (map glyphs (Binary64.buildLines c evs)) = measuredGlyphs c evs.
Proof.
  pose proof (b64_foldl_lineStep_glyphs c evs emptyBuilder) as H.
  rewrite <- pushLine_glyphs in H.
  unfold builderGlyphs in H. cbn in H. rewrite app_nil_r in H. exact H.
Qed.

(** Every glyph of a line starts at or after the left edge and ends at or
    before the start plus the widths plus the gaps, up to two roundings
    per glyph. *)
Lemma b64_placeGlyphs_extent (gap y : Q) (gs : list glyph) :
  0 <= gap ->
  Forall (fun g => 0 <= g_width g) gs ->
  forall x0,
    0 <= x0 ->
    Forall2 (fun g p => 0 <= pos_x p /\
                        pos_x p + g_width g
                        <= roundingSlack (2 * length gs)
                           * (x0 + sumWidths gs + gap * (count gs - 1)))
            gs (Binary64.placeGlyphs x0 y gap gs).
Proof.
  intros Hgap Hnn. induction Hnn as [|g rest Hg Hrest IH]; intros x0 Hx0;
    cbn [Binary64.placeGlyphs].
  - constructor.
  - pose proof (sumWidths_nonneg rest Hrest) as Hsum.
    pose proof (count_nonneg rest) as Hcnt.
    pose proof (Qmult_le_0_compat _ _ Hgap Hcnt) as Hprod.
    pose proof (count_cons g rest) as Hcc.
    pose proof roundingFactor_gt_1 as Hf.
    replace (2 * length (g :: rest))%nat with (S (S (2 * length rest))) by (cbn; lia).
    cbn [roundingSlack].
    pose proof (roundingSlack_ge_1 (2 * length rest)) as Hs.
    set (s := roundingSlack (2 * length rest)) in *. set (f := roundingFactor) in *.
    rewrite sumWidths_cons.
    assert (Hff : 1 <= f * (f * s)) by nra.
    constructor.
    + cbn [pos_x]. split; [exact Hx0|]. rewrite Hcc.
      set (A := x0 + (g_width g + sumWidths rest) + gap * (count rest + 1 - 1)).
      assert (HA : x0 + g_width g <= A) by (unfold A; lra).
      assert (0 <= A) by lra.
      assert (A <= f * (f * s) * A) by nra. lra.
    + destruct rest as [|g' rest'].
      * constructor.
      * set (y1 := add64 (g_width g) gap).
        set (x1 := add64 x0 y1).
        assert (Hy1 : 0 <= y1 /\ y1 <= f * (g_width g + gap)).
        { split; [apply round64_nonneg; lra | apply round64_le_factor; lra]. }
        assert (Hx1 : 0 <= x1 /\ x1 <= f * (x0 + y1)).
        { split; [apply round64_nonneg; lra | apply round64_le_factor; lra]. }
        specialize (IH x1 (proj1 Hx1)).
        eapply Forall2_impl; [exact IH|].
        intros g1 p1 [H1 H2]. cbn beta in *. split; [exact H1|].
        fold s in H2.
        pose proof (count_cons g' rest') as Hcc'. pose proof (count_nonneg rest') as Hcnt'.
        set (B := sumWidths (g' :: rest') + gap * (count (g' :: rest') - 1)) in *.
        assert (HB0 : 0 <= B).
        { unfold B. assert (0 <= gap * count rest') by (apply Qmult_le_0_compat; lra).
          rewrite Hcc'. nra. }
        assert (HE : x1 + sumWidths (g' :: rest') + gap * (count (g' :: rest') - 1)
                     == x1 + B) by (unfold B; ring).
        rewrite HE in H2.
        assert (P1 : f * y1 <= f * (f * (g_width g + gap))).
        { rewrite !(Qmult_comm f). apply Qmult_le_compat_r; lra. }
        assert (P2 : f * x0 <= f * (f * x0)).
        { rewrite !(Qmult_comm f). apply Qmult_le_compat_r; [|lra].
          rewrite <- (Qmult_1_r x0) at 1. rewrite !(Qmult_comm x0).
          apply Qmult_le_compat_r; lra. }
        assert (P3 : B <= f * (f * B)).
        { assert (B <= f * B).
          { rewrite <- (Qmult_1_l B) at 1. apply Qmult_le_compat_r; lra. }
          assert (f * B <= f * (f * B)).
          { rewrite !(Qmult_comm f). apply Qmult_le_compat_r; lra. }
          lra. }
        assert (Hsum1 : x1 + B <= f * (f * (x0 + g_width g + gap + B))).
        { assert (E3 : f * (f * (x0 + g_width g + gap + B))
                       == f * (f * x0) + f * (f * (g_width g + gap)) + f * (f * B)) by ring.
          assert (E4 : f * (x0 + y1) == f * x0 + f * y1) by ring.
          rewrite E3. rewrite E4 in Hx1. lra. }
        assert (Hs1 : s * (x1 + B) <= s * (f * (f * (x0 + g_width g + gap + B)))).
        { rewrite !(Qmult_comm s). apply Qmult_le_compat_r; lra. }
        rewrite Hcc.
        assert (HE2 : f * (f * s) * (x0 + (g_width g + sumWidths (g' :: rest'))
                                     + gap * (count (g' :: rest') + 1 - 1))
                      == s * (f * (f * (x0 + g_width g + gap + B)))) by (unfold B; ring).
        rewrite HE2. lra.
Qed.

Lemma div64_nonzero (a b : Q) : ~ b == 0 -> div64 a b = Some (round64 (a / b)).
Proof. intros Hb. unfold div64. rewrite jsdiv_nonzero by exact Hb. reflexivity. Qed.

Lemma Qmult_le_compat_l_nonneg (z x y : Q) : 0 <= z -> x <= y -> z * x <= z * y.
Proof. intros Hz Hxy. rewrite !(Qmult_comm z). apply Qmult_le_compat_r; assumption. Qed.

(** The start offset and the extra gap of a line that satisfies the
    builder's invariant: the line is wider than the container and starts at
    its left edge, or the start, the widths and the gaps add up to the width
    of the container up to one rounding per glyph and one more. *)
Lemma b64_lineAdjust_near (a : alignment) (W : Q) (isLast : bool) (ln : line) :
  lineNear W ln -> glyphs ln <> [] ->
  exists s g,
    Binary64.lineAdjust a W isLast ln = Some (s, g)
    /\ 0 <= s /\ 0 <= g
    /\ ((W < total ln /\ s == 0)
        \/ (total ln <= W
            /\ s + sumWidths (glyphs ln) + g * (count (glyphs ln) - 1)
               <= roundingSlack (length (glyphs ln) + 1) * W)).
Proof.
  intros (Hg & HT & HTd & Hnil & Hsingle & Hsum & Hfit) Hne.
  pose proof roundingFactor_gt_1 as Hf.
  rewrite Nat.add_1_r. cbn [roundingSlack].
  pose proof (roundingSlack_ge_1 (length (glyphs ln))) as Hs1.
  assert (Hsf : roundingFactor <= roundingSlack (length (glyphs ln))).
  { destruct (glyphs ln) as [|g0 gs]; [contradiction|].
    cbn [length roundingSlack]. pose proof (roundingSlack_ge_1 (length gs)).
    rewrite <- (Qmult_1_r roundingFactor) at 1.
    apply Qmult_le_compat_l_nonneg; lra. }
  set (n := length (glyphs ln)) in *. set (T := total ln) in *.
  set (S0 := sumWidths (glyphs ln)) in *.
  set (sn := roundingSlack n) in *. set (f := roundingFactor) in *.
  set (D := sub64 W T).
  assert (HD : (T <= W -> 0 <= D /\ D <= f * (W - T)) /\ (W < T -> D < 0)).
  { split; intros H; unfold D, sub64.
    - split; [apply round64_nonneg; lra | apply round64_le_factor; lra].
    - apply round64_neg. lra. }
  assert (Hplain : forall s g, s == 0 -> g == 0 ->
            (W < T /\ s == 0)
            \/ (T <= W /\ s + S0 + g * (count (glyphs ln) - 1) <= f * sn * W)).
  { intros s g Es Eg. destruct (Qlt_le_dec W T) as [Hover|Hin]; [left; split; assumption|].
    right. split; [exact Hin|]. rewrite Es, Eg.
    assert (sn * T <= sn * W) by (apply Qmult_le_compat_l_nonneg; lra).
    assert (0 <= sn * W) by (apply Qmult_le_0_compat; lra).
    assert (sn * W <= f * (sn * W)).
    { rewrite <- (Qmult_1_l (sn * W)) at 1. apply Qmult_le_compat_r; lra. }
    assert (E : f * sn * W == f * (sn * W)) by ring. rewrite E. lra. }
  destruct a; unfold Binary64.lineAdjust.
  - (* left *)
    exists 0, 0. split; [reflexivity|]. split; [lra|]. split; [lra|].
    apply Hplain; reflexivity.
  - (* center *)
    fold T D. rewrite div64_nonzero by (intros E; discriminate E).
    cbn [mbind option_bind].
    set (h := round64 (D / 2)).
    exists (Qmax 0 h), 0. split; [reflexivity|]. split; [apply Q.le_max_l|]. split; [lra|].
    destruct (Qlt_le_dec W T) as [Hover|Hin].
    + left. split; [exact Hover|]. apply Q.max_l.
      apply Qlt_le_weak, round64_neg. destruct HD as [_ HD]. specialize (HD Hover).
      apply Qlt_shift_div_r; lra.
    + right. split; [exact Hin|].
      destruct HD as [HD _]. destruct (HD Hin) as [HD0 HD1].
      assert (Hh2 : 0 <= D / 2) by (apply Qle_shift_div_l; lra).
      assert (Hh : 0 <= h /\ h <= f * (D / 2)).
      { split; [apply round64_nonneg; exact Hh2 | apply round64_le_factor; exact Hh2]. }
      rewrite (Q.max_r 0 h) by lra.
      assert (E2 : D / 2 == D * (1 # 2)) by reflexivity. rewrite E2 in Hh.
      assert (K1 : f * (D * (1 # 2)) <= f * (f * (W - T) * (1 # 2))).
      { apply Qmult_le_compat_l_nonneg; [lra|]. lra. }
      assert (K2 : f * (f * (W - T) * (1 # 2)) <= f * (sn * (W - T) * (1 # 2))).
      { apply Qmult_le_compat_l_nonneg; [lra|].
        assert (f * (W - T) <= sn * (W - T)) by (apply Qmult_le_compat_r; lra). lra. }
      assert (K3 : S0 <= f * (sn * T)).
      { assert (0 <= sn * T) by (apply Qmult_le_0_compat; lra).
        assert (sn * T <= f * (sn * T)).
        { rewrite <- (Qmult_1_l (sn * T)) at 1. apply Qmult_le_compat_r; lra. }
        lra. }
      assert (K4 : f * (sn * (W - T) * (1 # 2)) + f * (sn * T) <= f * sn * W).
      { assert (E : f * (sn * (W - T) * (1 # 2)) + f * (sn * T)
                    == f * sn * ((W - T) * (1 # 2) + T)) by ring.
        rewrite E. apply Qmult_le_compat_l_nonneg; [|lra].
        apply Qmult_le_0_compat; lra. }
      lra.
  - (* right *)
    fold T D. exists (Qmax 0 D), 0.
    split; [reflexivity|]. split; [apply Q.le_max_l|]. split; [lra|].
    destruct (Qlt_le_dec W T) as [Hover|Hin].
    + left. split; [exact Hover|]. apply Q.max_l.
      destruct HD as [_ HD]. specialize (HD Hover). lra.
    + right. split; [exact Hin|].
      destruct HD as [HD _]. destruct (HD Hin) as [HD0 HD1].
      rewrite (Q.max_r 0 D) by lra.
      assert (K1 : f * (W - T) <= sn * (W - T)) by (apply Qmult_le_compat_r; lra).
      assert (K2 : sn * (W - T) + sn * T == sn * W) by ring.
      assert (0 <= sn * W) by (apply Qmult_le_0_compat; lra).
      assert (sn * W <= f * (sn * W)).
      { rewrite <- (Qmult_1_l (sn * W)) at 1. apply Qmult_le_compat_r; lra. }
      assert (E : f * sn * W == f * (sn * W)) by ring. rewrite E. lra.
  - (* justify *)
    fold n T D.
    destruct (negb isLast && bool_decide (1 < n)%nat) eqn:Hj.
    + apply andb_prop in Hj as [_ Hn]. apply bool_decide_eq_true in Hn.
      pose proof (count_gt_1 _ Hn) as Hc.
      change (inject_Z (Z.of_nat n)) with (count (glyphs ln)).
      set (c1 := count (glyphs ln) - 1).
      set (m := sub64 (count (glyphs ln)) 1).
      assert (Hm : 0 < m /\ c1 <= f * m).
      { unfold m, sub64. fold c1. split; [apply round64_pos; unfold c1; lra|].
        apply le_factor_round64. unfold c1. lra. }
      rewrite div64_nonzero by lra. cbn [mbind option_bind].
      set (q := D / m). set (g := round64 q).
      specialize (Hfit ltac:(lia)).
      destruct HD as [HD _]. destruct (HD Hfit) as [HD0 HD1].
      assert (Hq : 0 <= q) by (apply Qle_shift_div_l; lra).
      assert (Hgq : 0 <= g /\ g <= f * q).
      { split; [apply round64_nonneg; exact Hq | apply round64_le_factor; exact Hq]. }
      exists 0, (Qmax 0 g). split; [reflexivity|]. split; [lra|].
      split; [apply Q.le_max_l|].
      right. split; [exact Hfit|]. rewrite (Q.max_r 0 g) by lra.
      assert (Hqm : q * m == D) by (unfold q; field; lra).
      assert (Hc1 : 0 <= c1) by (unfold c1; lra).
      assert (J1 : g * c1 <= f * q * (f * m)).
      { apply Qle_trans with (f * q * c1).
        - apply Qmult_le_compat_r; lra.
        - apply Qmult_le_compat_l_nonneg; [|lra]. apply Qmult_le_0_compat; lra. }
      assert (J2 : f * q * (f * m) == f * (f * D)) by (rewrite <- Hqm; ring).
      assert (J3 : f * (f * D) <= f * (f * (f * (W - T)))).
      { apply Qmult_le_compat_l_nonneg; [lra|]. apply Qmult_le_compat_l_nonneg; lra. }
      assert (Hsff : f * f <= sn).
      { assert (E2 : f * f == roundingSlack 2) by (cbn [roundingSlack]; fold f; ring).
        rewrite E2. apply roundingSlack_le. exact Hn. }
      assert (J4 : f * (f * (f * (W - T))) <= f * (sn * (W - T))).
      { apply Qmult_le_compat_l_nonneg; [lra|].
        assert (E3 : f * (f * (W - T)) == f * f * (W - T)) by ring. rewrite E3.
        apply Qmult_le_compat_r; lra. }
      assert (J5 : S0 <= f * (sn * T)).
      { assert (0 <= sn * T) by (apply Qmult_le_0_compat; lra).
        assert (sn * T <= f * (sn * T)).
        { rewrite <- (Qmult_1_l (sn * T)) at 1. apply Qmult_le_compat_r; lra. }
        lra. }
      assert (J6 : f * (sn * (W - T)) + f * (sn * T) == f * sn * W) by ring.
      lra.
    + exists 0, 0. split; [reflexivity|]. split; [lra|]. split; [lra|].
      apply Hplain; reflexivity.
Qed.

(** A line that satisfies the builder's invariant is placed inside the
    width up to rounding, or is a single glyph wider than the container,
    placed at the left edge. *)
Lemma b64_placeLine_near (a : alignment) (W y : Q) (isLast : bool) (ln : line) (K : nat) :
  lineNear W ln ->
  (3 * length (glyphs ln) + 1 <= K)%nat ->
  exists ps, Binary64.placeLine a W isLast y ln = Some ps /\
             Forall2 (glyphNear W K) (glyphs ln) ps.
Proof.
  intros Hln HK. unfold Binary64.placeLine.
  destruct (glyphs ln) as [|g0 rest] eqn:Hgs; [exists []; split; [reflexivity|constructor]|].
  assert (Hne : glyphs ln <> []) by (rewrite Hgs; discriminate).
  destruct (b64_lineAdjust_near a W isLast ln Hln Hne) as (s & g & -> & Hs & Hg & Hcase).
  cbn [mbind option_bind fst snd].
  exists (Binary64.placeGlyphs s y g (g0 :: rest)). split; [reflexivity|].
  destruct Hln as (Hgl & HT & HTd & Hnil & Hsingle & Hsum & Hfit).
  rewrite Hgs in Hgl, Hsingle, Hsum, Hfit, Hcase.
  destruct Hcase as [[Hover Es]|[Hin Hext]].
  - destruct rest as [|g1 rest]; [|exfalso; cbn in Hfit; specialize (Hfit ltac:(lia)); lra].
    cbn [Binary64.placeGlyphs]. constructor; [|constructor].
    right. cbn [pos_x]. split; [|exact Es].
    rewrite <- (Hsingle g0 eq_refl). exact Hover.
  - assert (Hnn : Forall (fun g => 0 <= g_width g) (g0 :: rest)).
    { eapply Forall_impl; [exact Hgl|]. intros g1 (H1 & _ & _). exact H1. }
    eapply Forall2_impl; [apply (b64_placeGlyphs_extent g y (g0 :: rest) Hg Hnn s Hs)|].
    intros g1 p1 [H1 H2]. left. cbn beta in H1, H2. split; [exact H1|].
    set (n := length (g0 :: rest)) in *.
    pose proof (roundingSlack_ge_1 (2 * n)) as Hs2.
    assert (HW : 0 <= W) by lra.
    assert (M1 : roundingSlack (2 * n) * (s + sumWidths (g0 :: rest) + g * (count (g0 :: rest) - 1))
                 <= roundingSlack (2 * n) * (roundingSlack (n + 1) * W)).
    { apply Qmult_le_compat_l_nonneg; [lra | exact Hext]. }
    assert (M2 : roundingSlack (2 * n) * (roundingSlack (n + 1) * W)
                 == W * roundingSlack (2 * n + (n + 1))).
    { pose proof (roundingSlack_add (2 * n) (n + 1)) as E. rewrite E. ring. }
    assert (M3 : W * roundingSlack (2 * n + (n + 1)) <= W * roundingSlack K).
    { apply Qmult_le_compat_l_nonneg; [exact HW|]. apply roundingSlack_le. lia. }
    lra.
Qed.

Lemma b64_placeLines_near (a : alignment) (W lh : Q) (ls : list line) (K : nat) :
  Forall (lineNear W) ls ->
  Forall (fun ln => (3 * length (glyphs ln) + 1 <= K)%nat) ls ->
  forall y,
  exists ps, Binary64.placeLines a W lh ls y = Some ps /\
             Forall2 (glyphNear W K) (concat (map glyphs ls)) ps.
Proof.
  induction 1 as [|ln rest Hln Hrest IH]; intros HK y; cbn [Binary64.placeLines].
  - exists []. split; [reflexivity | constructor].
  - apply Forall_cons in HK. destruct HK as [HK1 HK].
    destruct (b64_placeLine_near a W y (match rest with [] => true | _ :: _ => false end)
                ln K Hln HK1) as (ps0 & -> & H0).
    destruct (IH HK (add64 y lh)) as (ps & -> & Hps).
    exists (ps0 ++ ps). split; [reflexivity|].
    cbn [map concat]. apply Forall2_app; assumption.
Qed.

Lemma length_line_le (ls : list line) (ln : line) :
  ln ∈ ls -> (length (glyphs ln) <= length (concat (map glyphs ls)))%nat.
Proof.
  induction ls as [|l ls IH]; intros Hin; [inversion Hin|].
  cbn [map concat]. rewrite length_app.
  apply elem_of_cons in Hin as [-> | Hin]; [lia|]. specialize (IH Hin). lia.
Qed.

(** One iteration of the first loop opens a new line exactly on a newline
    or when the current line is not empty and the rounded sum of the
    current width and the width of the character exceeds the width of the
    container. *)
Lemma b64_lineStep_new_line (c : container) (b : lineBuilder) (ev : event) :
  length (lines (Binary64.lineStep c b ev)) = S (length (lines b)) <->
  ev_char ev = newline \/
  (currentLine b <> [] /\
   rectWidth c < add64 (currentWidth b) (Binary64.measureChar c (ev_char ev))).
Proof.
  unfold Binary64.lineStep, Binary64.wraps.
  destruct (bool_decide (ev_char ev = newline)) eqn:Hnl.
  - apply bool_decide_eq_true in Hnl. cbn [pushLine lines]. rewrite length_app. cbn [length].
    split; [intros _; left; exact Hnl | intros _; lia].
  - apply bool_decide_eq_false in Hnl.
    destruct (currentLine b) as [|g0 cur].
    + cbn [Binary64.pushGlyph lines]. split; [lia|].
      intros [H|[H _]]; [contradiction | exfalso; apply H; reflexivity].
    + destruct (Qlt_le_dec (rectWidth c)
                  (add64 (currentWidth b) (Binary64.measureChar c (ev_char ev))))
        as [Hgt|Hle]; cbn [Binary64.pushGlyph pushLine lines]; rewrite ?length_app;
        cbn [length].
      * split; [intros _; right; split; [discriminate | exact Hgt] | intros _; lia].
      * split; [lia|]. intros [H|[_ H]]; [contradiction | exfalso; lra].
Qed.

(** C3, as the code has it.  For every event list and container width
    [W], when no measured width is negative the aligned layout, computed in
    binary64, succeeds and places the glyphs of the non-newline events, in
    order, so that each glyph starts at a non-negative x and ends at or
    before [W] up to the roundings accumulated along its line (at most
    [W / (1 - 2^-53)^k] for [k = 3 n + 1] and [n] glyphs), or the glyph is
    wider than [W] and sits at [x = 0]; a glyph wider than [W] is the only
    glyph of its line; and a glyph that follows another on the current line
    opens a new line exactly when the rounded sum of the current width and
    its width exceeds [W]. *)
Theorem layout_wrap_rounded (c : container) (evs : list event) (a : alignment) :
  (forall ch, 0 <= Binary64.measureChar c ch) ->
  exists r,
    Binary64.layoutEventsAligned c evs a = Some r /\
    concat (map glyphs (Binary64.buildLines c evs)) = measuredGlyphs c evs /\
    Forall2 (glyphNear (rectWidth c) (3 * length (measuredGlyphs c evs) + 1))
            (measuredGlyphs c evs) (positions r) /\
    (forall ln g, ln ∈ Binary64.buildLines c evs -> g ∈ glyphs ln ->
       rectWidth c < g_width g -> glyphs ln = [g]) /\
    (forall pre ev post,
       evs = pre ++ ev :: post ->
       (length (lines (foldl (Binary64.lineStep c) emptyBuilder (pre ++ [ev])))
        = S (length (lines (foldl (Binary64.lineStep c) emptyBuilder pre))) <->
        ev_char ev = newline \/
        (currentLine (foldl (Binary64.lineStep c) emptyBuilder pre) <> [] /\
         rectWidth c
         < add64 (currentWidth (foldl (Binary64.lineStep c) emptyBuilder pre))
                 (Binary64.measureChar c (ev_char ev))))).
Proof.
  intros Hw.
  pose proof (b64_buildLines_near c Hw evs) as Hnear.
  assert (HK : Forall (fun ln => (3 * length (glyphs ln)
                                  + 1 <= 3 * length (measuredGlyphs c evs) + 1)%nat)
                      (Binary64.buildLines c evs)).
  { apply Forall_forall. intros ln Hln. pose proof (length_line_le _ _ Hln) as H.
    rewrite b64_buildLines_glyphs in H. lia. }
  destruct (b64_placeLines_near a (rectWidth c) (Binary64.lineHeightOf c) _ _ Hnear HK 0)
    as (ps & Hps & Hin).
  exists (mkLayout ps (Binary64.lineHeightOf c)).
  split; [unfold Binary64.layoutEventsAligned; rewrite Hps; reflexivity|].
  split; [apply b64_buildLines_glyphs|].
  split; [rewrite b64_buildLines_glyphs in Hin; exact Hin|].
  split.
  - intros ln g Hln Hg Hwide.
    rewrite Forall_forall in Hnear.
    destruct (Hnear ln Hln) as (Hgl & _ & _ & _ & _ & _ & Hfit).
    rewrite Forall_forall in Hgl. destruct (Hgl g Hg) as (_ & _ & Hle).
    destruct (glyphs ln) as [|g1 [|g2 rest]] eqn:Hgs.
    + inversion Hg.
    + apply list_elem_of_singleton in Hg. subst g1. reflexivity.
    + exfalso. specialize (Hfit ltac:(cbn; lia)). lra.
  - intros pre ev post _.
    rewrite foldl_snoc. apply b64_lineStep_new_line.
Qed.

Lemma fineBox_widths (ch : string) : 0 <= Binary64.measureChar fineBox ch.
Proof.
  unfold Binary64.measureChar, add64. apply round64_nonneg.
  unfold fineBox, letterSpacingOf. cbn [glyphWidth styleLetterSpacing].
  assert (0 <= round64 12.92) by (vm_compute; discriminate).
  assert (0 <= round64 11.780000000000001) by (vm_compute; discriminate).
  assert (0 <= round64 7.9000000000000004) by (vm_compute; discriminate).
  repeat match goal with |- context [bool_decide ?P] => destruct (bool_decide P) end; lra.
Qed.

(** The letters [a], [b], [c] right-aligned in 100 px. *)
Lemma layout_wrap_rounded_witness :
  (forall ch, 0 <= Binary64.measureChar fineBox ch) /\
  exists r,
    Binary64.layoutEventsAligned fineBox abcEvents AlignRight = Some r /\
    Forall2 (glyphNear 100 (3 * length (measuredGlyphs fineBox abcEvents) + 1))
            (measuredGlyphs fineBox abcEvents) (positions r).
Proof.
  split; [apply fineBox_widths|].
  destruct (layout_wrap_rounded fineBox abcEvents AlignRight fineBox_widths)
    as (r & Hr & _ & Hin & _).
  exists r. split; [exact Hr | exact Hin].
Defined.

(** C3 as stated fails in binary64: in a container 100 px wide the glyphs
    [a], [b], [c] of widths [12.92], [11.780000000000001] and
    [7.9000000000000004] fit one line (their rounded sum is [32.6]); right
    alignment starts the line at [100 - 32.6 = 67.4], and the two rounded
    additions that follow put [c] at [92.10000000000001], so that it ends
    beyond the width, at [100.00000000000001] as the script would add it. *)
Lemma right_aligned_glyph_overflows :
  length (Binary64.buildLines fineBox abcEvents) = 1%nat /\
  Binary64.measureChar fineBox "c" <= rectWidth fineBox /\
  exists ps x,
    Binary64.layoutEventsAligned fineBox abcEvents AlignRight
    = Some (mkLayout ps (Binary64.lineHeightOf fineBox)) /\
    ps !! 2%nat = Some (mkPos x 0) /\
    x == round64 92.10000000000001 /\
    rectWidth fineBox < x + Binary64.measureChar fineBox "c" /\
    add64 x (Binary64.measureChar fineBox "c") == round64 100.00000000000001 /\
    ~ glyphWithin (rectWidth fineBox) (mkGlyph "c" (Binary64.measureChar fineBox "c"))
                  (mkPos x 0).
Proof.
  split; [vm_compute; reflexivity|].
  split; [vm_compute; discriminate|].
  eexists _, _. split; [vm_compute; reflexivity|].
  split; [reflexivity|].
  split; [vm_compute; reflexivity|].
  split; [vm_compute; reflexivity|].
  split; [vm_compute; reflexivity|].
  intros [[_ H]|[H _]]; vm_compute in H; [apply H; reflexivity | discriminate H].
Qed.

(** ** A container of zero width *)

Lemma nextCaretPosition_fits (c : container) (k : caret) (ch : string) :
  (forall ch, 0 <= caretAdvance c ch) ->
  (hasMeasurer k = true -> 0 <= caret_x k) ->
  let '(pos, k') := nextCaretPosition c k ch in
  hasMeasurer k' = true /\ 0 <= caret_x k'
  /\ (ch <> newline ->
      0 <= pos_x pos
      /\ (pos_x pos + caretAdvance c ch <= rectWidth c \/ pos_x pos == 0)).
Proof.
  intros Hadv Hk. unfold nextCaretPosition. cbn zeta.
  set (k0 := if hasMeasurer k then k else mkCaret true 0 0 36).
  assert (Hk0 : 0 <= caret_x k0).
  { unfold k0. destruct (hasMeasurer k) eqn:E; [apply Hk; reflexivity | cbn; lra]. }
  pose proof (Hadv ch) as Ha.
  destruct (decide (ch = newline)) as [Hn|Hn].
  - rewrite bool_decide_eq_true_2 by exact Hn. cbn [hasMeasurer caret_x pos_x].
    split; [reflexivity|]. split; [lra | tauto].
  - rewrite bool_decide_eq_false_2 by exact Hn.
    destruct (Qlt_le_dec (rectWidth c - 0 * 2) (caret_x k0 + caretAdvance c ch)) as [Hw|Hw];
      cbn [hasMeasurer caret_x pos_x].
    + split; [reflexivity|]. split; [lra|]. intros _. split; [lra|]. right. reflexivity.
    + split; [reflexivity|]. split; [lra|]. intros _. split; [lra|]. left. lra.
Qed.

Lemma restoreStep_fits (c : container) (now : nat -> Q) (st : appState) (ev : event) :
  (forall ch, 0 <= caretAdvance c ch) ->
  (hasMeasurer (caretState st) = true -> 0 <= caret_x (caretState st)) ->
  Forall (letterFits c) (typedLetters st) ->
  let st' := restoreStep c now st ev in
  (hasMeasurer (caretState st') = true -> 0 <= caret_x (caretState st'))
  /\ Forall (letterFits c) (typedLetters st').
Proof.
  intros Hadv Hk Hels. cbn zeta. unfold restoreStep.
  pose proof (nextCaretPosition_fits c (caretState st) (ev_char ev) Hadv Hk) as H.
  destruct (nextCaretPosition c (caretState st) (ev_char ev)) as [pos k'].
  destruct H as (_ & Hx & Hpos).
  cbn [persistToStorage caretState typedLetters]. split; [intros _; exact Hx|].
  destruct (decide (ev_char ev = newline)) as [Hn|Hn].
  - rewrite bool_decide_eq_true_2 by exact Hn. exact Hels.
  - rewrite bool_decide_eq_false_2 by exact Hn.
    apply Forall_app. split; [exact Hels|]. constructor; [|constructor].
    unfold letterFits. cbn [el_left el_char]. apply Hpos. exact Hn.
Qed.

(** With a zero width the caret routine wraps before every character that
    advances the caret, on its first call (which resets the caret and uses
    the fallback line height) as on the later ones. *)
Lemma nextCaretPosition_zero_width_any (c : container) (k : caret) (ch : string) :
  rectWidth c == 0 -> (hasMeasurer k = true -> 0 <= caret_x k) ->
  0 < caretAdvance c ch ->
  (nextCaretPosition c k ch).1
  = let k0 := if hasMeasurer k then k else mkCaret true 0 0 36 in
    mkPos 0 (caret_y k0 + caret_lineHeight k0).
Proof.
  intros HW Hx Hadv. unfold nextCaretPosition. cbv zeta.
  set (k0 := if hasMeasurer k then k else mkCaret true 0 0 36).
  assert (Hk0 : 0 <= caret_x k0).
  { unfold k0. destruct (hasMeasurer k); [apply Hx; reflexivity | cbn; lra]. }
  destruct (bool_decide (ch = newline)); [reflexivity|].
  destruct (Qlt_le_dec (rectWidth c - 0 * 2) (caret_x k0 + caretAdvance c ch)) as [_|Hle].
  - reflexivity.
  - exfalso. lra.
Qed.

(** The loop of restore and import keeps every letter within the width of
    the container, or at its left edge. *)
Lemma restoreLoop_fits (c : container) (now : nat -> Q) (stored : list event) :
  (forall ch, 0 <= caretAdvance c ch) ->
  forall st0,
    (hasMeasurer (caretState st0) = true -> 0 <= caret_x (caretState st0)) ->
    Forall (letterFits c) (typedLetters st0) ->
    Forall (letterFits c) (typedLetters (foldl (restoreStep c now) st0 stored)).
Proof.
  intros Hadv. induction stored as [|ev stored IH]; intros st0 Hk Hels; [exact Hels|].
  cbn [foldl].
  destruct (restoreStep_fits c now st0 ev Hadv Hk Hels) as [Hk' Hels'].
  apply IH; assumption.
Qed.

(** C7, as the code has it: when the container's measured width is zero the
    layout still succeeds (the loops are structural and no divisor is
    zero), but the width is not treated as unbounded: every glyph of
    positive width is placed at [x = 0] and is the only glyph of its line;
    the caret routine wraps before every character that advances the
    caret, on its first call as on the later ones; and every letter that
    the loop of restore and import creates for such a character stands at
    [x = 0]. *)
Theorem zero_width_layout (c : container) (evs : list event) (a : alignment) :
  rectWidth c == 0 ->
  (forall ch, 0 <= measureChar c ch) ->
  exists r,
    layoutEventsAligned c evs a = Some r /\
    Forall2 (fun g p => 0 < g_width g -> pos_x p == 0) (glyphsOf c evs) (positions r) /\
    (forall ln g, ln ∈ buildLines c evs -> g ∈ glyphs ln ->
       0 < g_width g -> glyphs ln = [g]) /\
    (forall k ch, (hasMeasurer k = true -> 0 <= caret_x k) -> 0 < caretAdvance c ch ->
       (nextCaretPosition c k ch).1
       = let k0 := if hasMeasurer k then k else mkCaret true 0 0 36 in
         mkPos 0 (caret_y k0 + caret_lineHeight k0)) /\
    (forall now st stored,
       (forall ch, 0 <= caretAdvance c ch) -> typedLetters st = [] ->
       Forall (fun el => 0 < caretAdvance c (el_char el) -> el_left el == 0)
              (typedLetters (restoreEvents c now st stored))).
Proof.
  intros HW Hw.
  pose proof (buildLines_fits c Hw evs) as Hfits.
  destruct (placeLines_within a (rectWidth c) (lineHeightOf c) _ Hfits 0) as (ps & Hps & Hin).
  exists (mkLayout ps (lineHeightOf c)).
  split; [unfold layoutEventsAligned; rewrite Hps; reflexivity|].
  split; [|split; [|split]].
  - rewrite <- buildLines_glyphs. eapply Forall2_impl; [exact Hin|].
    intros g p [[Hge Hle]|[_ Hx]] Hpos; [exfalso; lra | exact Hx].
  - intros ln g Hln Hg Hpos.
    rewrite Forall_forall in Hfits. destruct (Hfits ln Hln) as (Htot & Hnn & Hfit).
    pose proof (width_le_sum _ _ Hnn Hg) as Hle.
    destruct (glyphs ln) as [|g1 [|g2 rest]] eqn:Hgs.
    + inversion Hg.
    + apply list_elem_of_singleton in Hg. subst g1. reflexivity.
    + exfalso. specialize (Hfit ltac:(cbn; lia)). lra.
  - intros k ch Hx Hadv. apply nextCaretPosition_zero_width_any; assumption.
  - intros now st stored Hadv Hempty. unfold restoreEvents.
    eapply Forall_impl.
    + apply (restoreLoop_fits c now stored Hadv); cbn [caretState typedLetters].
      * destruct (hasMeasurer (caretState st)) eqn:E; cbn; [discriminate | congruence].
      * rewrite Hempty. constructor.
    + intros el [H0 [H1|H1]] Hpos; [|exact H1]. lra.
Qed.

(** C7 as stated fails: in a container of zero width the letters [a] and
    [b], with no newline between them, are put on two lines, the second one
    line height lower, where a container wide enough for both keeps them
    on one line. *)
Lemma zero_width_is_not_unbounded :
  rectWidth (sampleBox 0) == 0 /\
  filter (fun e => ev_char e = newline) abEvents = [] /\
  length (buildLines (sampleBox 0) abEvents) = 2%nat /\
  layoutEventsAligned (sampleBox 0) abEvents AlignLeft
  = Some (mkLayout [mkPos 0 0; mkPos 0 33.6] 33.6) /\
  layoutEventsAligned (sampleBox 100) abEvents AlignLeft
  = Some (mkLayout [mkPos 0 0; mkPos 10 0] 33.6).
Proof.
  split; [reflexivity|].
  split; [reflexivity|].
  split; [vm_compute; reflexivity|].
  split; vm_compute; reflexivity.
Qed.

(** The letters [a], [b] in a container of zero width. *)
Lemma zero_width_layout_witness :
  rectWidth (sampleBox 0) == 0 /\
  (forall ch, 0 <= measureChar (sampleBox 0) ch) /\
  exists r,
    layoutEventsAligned (sampleBox 0) abEvents AlignLeft = Some r /\
    Forall2 (fun g p => 0 < g_width g -> pos_x p == 0)
            (glyphsOf (sampleBox 0) abEvents) (positions r).
Proof.
  split; [reflexivity|]. split; [apply sampleBox_widths|].
  destruct (zero_width_layout (sampleBox 0) abEvents AlignLeft
              ltac:(reflexivity) (sampleBox_widths 0)) as (r & Hr & Hx & _).
  exists r. split; [exact Hr | exact Hx].
Defined.

(** ** The note scheduler *)

(** One step of the second pass lands within the thresholds of the time
    written just before it. *)
Lemma clampAfter_gap (tn : tuning) (prevTime : Q) (r : relEvent) :
  minTimeBetweenNotes tn <= maxTimeBetweenNotes tn ->
  minTimeBetweenNotes tn <= rel_t (clampAfter tn prevTime r) - prevTime /\
  rel_t (clampAfter tn prevTime r) - prevTime <= maxTimeBetweenNotes tn /\
  rel_event (clampAfter tn prevTime r) = rel_event r.
Proof.
  intros Hle. unfold clampAfter.
  destruct (Qlt_le_dec (rel_t r - prevTime) (minTimeBetweenNotes tn)) as [Hlo|Hlo].
  - cbn [rel_t rel_event]. split; [lra|]. split; [lra | reflexivity].
  - destruct (Qlt_le_dec (maxTimeBetweenNotes tn) (rel_t r - prevTime)) as [Hhi|Hhi].
    + cbn [rel_t rel_event]. split; [lra|]. split; [lra | reflexivity].
    + split; [lra|]. split; [lra | reflexivity].
Qed.

Lemma smoothFrom_events (tn : tuning) (rest : list relEvent) (prevTime : Q) :
  map rel_event (smoothFrom tn prevTime rest) = map rel_event rest.
Proof.
  revert prevTime. induction rest as [|r rest IH]; intros prevTime; [reflexivity|].
  cbn [smoothFrom map]. rewrite IH. f_equal.
  unfold clampAfter.
  destruct (Qlt_le_dec _ _); [reflexivity|]. destruct (Qlt_le_dec _ _); reflexivity.
Qed.

Lemma relativeTimes_events (nes : list event) :
  map rel_event (relativeTimes nes) = nes.
Proof.
  unfold relativeTimes. destruct nes as [|first rest]; [reflexivity|].
  rewrite map_map. cbn [rel_event]. apply map_id.
Qed.

Lemma unitRoundoff_small : 0 < unitRoundoff /\ unitRoundoff <= 1 # 2.
Proof. split; [reflexivity | discriminate]. Qed.


(** One step of the second pass, in binary64. *)
Lemma b64_clampAfter_gap (tn : tuning) (prevTime : Q) (r : relEvent) :
  0 < minTimeBetweenNotes tn ->
  minTimeBetweenNotes tn <= maxTimeBetweenNotes tn ->
  0 <= prevTime ->
  let t := rel_t (Binary64.clampAfter tn prevTime r) in
  (t == add64 prevTime (minTimeBetweenNotes tn)
   \/ t == add64 prevTime (maxTimeBetweenNotes tn)
   \/ (minTimeBetweenNotes tn <= sub64 t prevTime
       /\ sub64 t prevTime <= maxTimeBetweenNotes tn))
  /\ minTimeBetweenNotes tn - gapSlack (maxTimeBetweenNotes tn) prevTime <= t - prevTime
  /\ t - prevTime <= maxTimeBetweenNotes tn + gapSlack (maxTimeBetweenNotes tn) prevTime.
Proof.
  intros Hpos Hle Hprev. cbv zeta. unfold Binary64.clampAfter, gapSlack.
  set (lo := minTimeBetweenNotes tn) in *. set (hi := maxTimeBetweenNotes tn) in *.
  set (u := unitRoundoff).
  assert (Hu : 0 < u /\ u <= 1 # 2) by apply unitRoundoff_small.
  destruct (Qlt_le_dec (sub64 (rel_t r) prevTime) lo) as [Hlo|Hlo].
  - cbn [rel_t]. split; [left; reflexivity|].
    destruct (round64_err (prevTime + lo) ltac:(lra)) as [E1 E2]. fold u in E1, E2.
    unfold add64.
    assert (0 <= u * (prevTime + lo)) by nra.
    assert (u * lo <= u * hi) by nra.
    split; nra.
  - destruct (Qlt_le_dec hi (sub64 (rel_t r) prevTime)) as [Hhi|Hhi].
    + cbn [rel_t]. split; [right; left; reflexivity|].
      destruct (round64_err (prevTime + hi) ltac:(lra)) as [E1 E2]. fold u in E1, E2.
      unfold add64.
      assert (0 <= u * (prevTime + hi)) by nra.
      assert (u * lo <= u * hi) by nra.
      split; nra.
    + split; [right; right; split; assumption|].
      unfold sub64 in Hlo, Hhi.
      set (x := rel_t r - prevTime) in *.
      assert (Hx : 0 < x).
      { destruct (Qlt_le_dec 0 x) as [H|H]; [exact H|].
        pose proof (round64_nonpos x H). lra. }
      destruct (round64_err x ltac:(lra)) as [E1 E2]. fold u in E1, E2.
      assert (0 <= u * prevTime) by nra.
      assert (u * lo <= u * hi) by nra.
      assert (Hxhi : x <= 2 * hi) by nra.
      assert (u * x <= u * (2 * hi)) by nra.
      split; nra.
Qed.

Lemma b64_clampAfter_nonneg (tn : tuning) (prevTime : Q) (r : relEvent) :
  0 < minTimeBetweenNotes tn ->
  minTimeBetweenNotes tn <= maxTimeBetweenNotes tn ->
  0 <= prevTime -> 0 <= rel_t r ->
  0 <= rel_t (Binary64.clampAfter tn prevTime r).
Proof.
  intros Hpos Hle Hprev Hr. unfold Binary64.clampAfter.
  destruct (Qlt_le_dec _ _); [cbn [rel_t]; apply round64_nonneg; lra|].
  destruct (Qlt_le_dec _ _); [cbn [rel_t]; apply round64_nonneg; lra | exact Hr].
Qed.

Lemma b64_smoothFrom_gaps (tn : tuning) (rest : list relEvent) :
  0 < minTimeBetweenNotes tn ->
  minTimeBetweenNotes tn <= maxTimeBetweenNotes tn ->
  Forall (fun r => 0 <= rel_t r) rest ->
  forall prevTime,
    0 <= prevTime ->
    gapsRounded (minTimeBetweenNotes tn) (maxTimeBetweenNotes tn)
                (prevTime :: times (Binary64.smoothFrom tn prevTime rest)).
Proof.
  intros Hpos Hle Hnn. induction Hnn as [|r rest Hr Hrest IH]; intros prevTime Hprev.
  - exact I.
  - cbn [Binary64.smoothFrom times map gapsRounded].
    split; [apply (b64_clampAfter_gap tn prevTime r Hpos Hle Hprev)|].
    apply IH. apply b64_clampAfter_nonneg; assumption.
Qed.



Lemma b64_relativeTimes_nonneg (nes : list event) :
  Forall (fun r => 0 <= rel_t r) (Binary64.relativeTimes nes).
Proof.
  unfold Binary64.relativeTimes. destruct nes as [|first rest]; [constructor|].
  apply Forall_forall. intros r Hr. apply list_elem_of_fmap in Hr.
  destruct Hr as (e & -> & _). cbn [rel_t]. apply Q.le_max_l.
Qed.

Lemma b64_schedule_gaps (tn : tuning) (evs : list event) :
  0 < minTimeBetweenNotes tn ->
  minTimeBetweenNotes tn <= maxTimeBetweenNotes tn ->
  gapsRounded (minTimeBetweenNotes tn) (maxTimeBetweenNotes tn)
              (times (Binary64.schedule tn evs)).
Proof.
  intros Hpos Hle. unfold Binary64.schedule, Binary64.smooth.
  pose proof (b64_relativeTimes_nonneg (noteEvents evs)) as Hnn.
  destruct (Binary64.relativeTimes (noteEvents evs)) as [|r0 rest]; [exact I|].
  apply Forall_cons in Hnn. destruct Hnn as [H0 Hrest].
  apply (b64_smoothFrom_gaps tn rest Hpos Hle Hrest). exact H0.
Qed.





(** After the timing slider is set to a [factor] between [2^-1000] and
    [2^1000] (no product overflows or underflows there), the thresholds
    [0.08 * factor] and [2.0 * factor], as rounded, are still positive and
    in order, and every gap of the schedule lies within them up to
    rounding. *)
Theorem schedule_gaps_scaled (tn : tuning) (factor : Q) (evs : list event) :
  pow2 (-1000) <= factor -> factor <= pow2 1000 ->
  let tn' := Binary64.setTimingFactor tn factor in
  minTimeBetweenNotes tn' = mul64 (round64 0.08) factor
  /\ maxTimeBetweenNotes tn' = mul64 2 factor
  /\ 0 < minTimeBetweenNotes tn'
  /\ minTimeBetweenNotes tn' <= maxTimeBetweenNotes tn'
  /\ gapsRounded (minTimeBetweenNotes tn') (maxTimeBetweenNotes tn')
                 (times (Binary64.schedule tn' evs)).
Proof.
  intros Hlo _ tn'.
  assert (Hf : 0 < factor) by (pose proof (pow2_pos (-1000)); lra).
  assert (H8 : 0 < round64 0.08 /\ round64 0.08 <= 2).
  { split; [vm_compute; reflexivity | vm_compute; discriminate]. }
  assert (Hpos : 0 < minTimeBetweenNotes tn').
  { cbn [tn' Binary64.setTimingFactor minTimeBetweenNotes]. apply round64_pos. nra. }
  assert (Hle : minTimeBetweenNotes tn' <= maxTimeBetweenNotes tn').
  { cbn [tn' Binary64.setTimingFactor minTimeBetweenNotes maxTimeBetweenNotes].
    apply round64_mono. nra. }
  split; [reflexivity|]. split; [reflexivity|].
  split; [exact Hpos|]. split; [exact Hle|].
  apply b64_schedule_gaps; assumption.
Qed.

(** The slider at one half. *)
Lemma schedule_gaps_scaled_witness :
  pow2 (-1000) <= 0.5 /\ 0.5 <= pow2 1000 /\
  let tn' := Binary64.setTimingFactor Binary64.playbackTuning 0.5 in
  gapsRounded (minTimeBetweenNotes tn') (maxTimeBetweenNotes tn')
              (times (Binary64.schedule tn' rapidEvents)).
Proof.
  assert (H1 : pow2 (-1000) <= 0.5) by (vm_compute; discriminate).
  assert (H2 : 0.5 <= pow2 1000) by (vm_compute; discriminate).
  split; [exact H1|]. split; [exact H2|].
  destruct (schedule_gaps_scaled Binary64.playbackTuning 0.5 rapidEvents H1 H2)
    as (_ & _ & _ & _ & H).
  exact H.
Defined.

(** ** Segment durations *)

Lemma Qdiv_mult_cancel (x y : Q) : ~ y == 0 -> x / y * y == x.
Proof.
  intros Hy. unfold Qdiv. rewrite <- Qmult_assoc, (Qmult_comm (/ y)), Qmult_inv_r by exact Hy.
  lra.
Qed.

Lemma hypotMicro_nonneg (dx dy : Q) : 0 <= hypotMicro dx dy.
Proof.
  unfold hypotMicro. apply Qle_shift_div_l; [reflexivity|].
  rewrite Qmult_0_l. change 0 with (inject_Z 0). rewrite <- Zle_Qle.
  apply Z.sqrt_nonneg.
Qed.

Section SegmentBounds.

Variable hypot : Q -> Q -> Q.
Hypothesis hypot_nonneg : forall dx dy, 0 <= hypot dx dy.

Variable tn : tuning.
Hypothesis cap_pos : 0 < maxPixelsPerSecond tn.
Hypothesis floor_pos : 0 < minSegmentSec tn.

Variable s : Q.
Hypothesis speed_pos : 0 < s.

Lemma segmentBetween_bounded (totalDur : Q) (a b : keyframe) :
  segmentBounded tn s totalDur (segmentBetween hypot tn s totalDur a b).
Proof.
  unfold segmentBounded, segmentBetween. cbn [seg_clamped seg_duration seg_dist seg_from seg_to].
  set (dist := hypot (kf_x b - kf_x a) (kf_y b - kf_y a)).
  set (segDur := (kf_t b - kf_t a) * totalDur).
  set (clamped := Qmax (minSegmentSec tn) (Qmax segDur (dist / maxPixelsPerSecond tn))).
  assert (Hdist : 0 <= dist) by apply hypot_nonneg.
  assert (Hfloor : minSegmentSec tn <= clamped) by apply Q.le_max_l.
  assert (Hcap : dist / maxPixelsPerSecond tn <= clamped).
  { unfold clamped. eapply Qle_trans; [apply Q.le_max_r|].
    eapply Qle_trans; [|apply Q.le_max_r]. apply Qle_refl. }
  assert (Hc : 0 < clamped) by lra.
  assert (Hmul : dist <= maxPixelsPerSecond tn * clamped).
  { rewrite <- (Qdiv_mult_cancel dist (maxPixelsPerSecond tn)) by lra.
    rewrite (Qmult_comm (maxPixelsPerSecond tn)).
    apply Qmult_le_compat_r; lra. }
  assert (Hdur : 0 < clamped / s) by (apply Qlt_shift_div_l; lra).
  assert (Hscaled : clamped / s * s == clamped) by (apply Qdiv_mult_cancel; lra).
  split; [reflexivity|]. split; [reflexivity|]. split; [exact Hfloor|].
  split; [apply Qle_shift_div_r; [exact Hc | exact Hmul]|].
  split.
  { apply Qle_shift_div_l; [exact speed_pos|].
    rewrite (Qdiv_mult_cancel (minSegmentSec tn) s) by lra. exact Hfloor. }
  split.
  { apply Qle_shift_div_r; [exact Hdur|].
    rewrite <- Qmult_assoc, (Qmult_comm s), Hscaled. exact Hmul. }
  intros Hs1.
  assert (Hlonger : clamped <= clamped / s).
  { apply Qle_shift_div_l; [exact speed_pos|].
    rewrite <- (Qmult_1_r clamped) at 2. apply Qmult_le_l; lra. }
  split; [lra|].
  apply Qle_shift_div_r; [exact Hdur|].
  eapply Qle_trans; [exact Hmul|]. apply Qmult_le_l; lra.
Qed.

Lemma segmentsOf_bounded (totalDur : Q) (kfs : list keyframe) :
  Forall (segmentBounded tn s totalDur) (segmentsOf hypot tn s totalDur kfs).
Proof.
  induction kfs as [|a [|b rest] IH]; cbn [segmentsOf]; try constructor.
  - apply segmentBetween_bounded.
  - exact IH.
Qed.

End SegmentBounds.

(** C2, as the code has it: for every playback segment, the duration
    before the speed multiplier is the maximum of the proportional time
    share, the floor [minSegmentSec] and the speed cap
    [distance / maxPixelsPerSecond]; it is at least [minSegmentSec] and
    keeps [distance / duration <= maxPixelsPerSecond].  The effective
    duration is that maximum divided by the speed multiplier [s], so it is
    at least [minSegmentSec / s] and keeps
    [distance / duration <= maxPixelsPerSecond * s]; the two bounds hold of
    it as stated when [s <= 1]. *)
Theorem segment_duration_bounds (hypot : Q -> Q -> Q) (tn : tuning)
    (playhead : option preset) (geo : sheetGeometry) (evs : list event) :
  (forall dx dy, 0 <= hypot dx dy) ->
  0 < maxPixelsPerSecond tn ->
  0 < minSegmentSec tn ->
  0 < speedRatioOf playhead ->
  Forall (segmentBounded tn (speedRatioOf playhead) (totalDurOf (schedule tn evs)))
         (playbackSegments hypot tn playhead geo evs).
Proof.
  intros Hh Hcap Hfloor Hspeed. unfold playbackSegments.
  destruct (noteEvents evs) as [|e0 nes]; [constructor|].
  destruct (buildMotionPathFromEvents geo evs) as [points|]; [|constructor].
  apply segmentsOf_bounded; assumption.
Qed.

(** The default tuning under the default playhead [kitten]. *)
Lemma segment_duration_bounds_witness :
  (forall dx dy, 0 <= hypotMicro dx dy) /\
  0 < maxPixelsPerSecond playbackTuning /\
  0 < minSegmentSec playbackTuning /\
  0 < speedRatioOf (playheadPresets !! "kitten") /\
  Forall (segmentBounded playbackTuning (speedRatioOf (playheadPresets !! "kitten"))
                         (totalDurOf (schedule playbackTuning farEvents)))
         (playbackSegments hypotMicro playbackTuning (playheadPresets !! "kitten")
                           sheetOrigin farEvents).
Proof.
  split; [exact hypotMicro_nonneg|].
  split; [reflexivity|]. split; [reflexivity|].
  assert (Hs : 0 < speedRatioOf (playheadPresets !! "kitten")) by (vm_compute; reflexivity).
  split; [exact Hs|].
  apply (segment_duration_bounds hypotMicro playbackTuning (playheadPresets !! "kitten")
           sheetOrigin farEvents hypotMicro_nonneg ltac:(reflexivity) ltac:(reflexivity) Hs).
Defined.

(** C2 as stated fails under the [diamond] preset, whose speed multiplier
    is [1.1]: two notes at the same place get a segment shorter than
    [minSegmentSec], and two notes 500 px apart get a segment travelled
    faster than [maxPixelsPerSecond]. *)
Lemma speed_ratio_breaks_bounds :
  speedRatioOf (playheadPresets !! "diamond") = 1.1 /\
  (exists sg,
     playbackSegments hypotMicro playbackTuning (playheadPresets !! "diamond")
                      sheetOrigin nearEvents = [sg] /\
     seg_duration sg < minSegmentSec playbackTuning) /\
  (exists sg,
     playbackSegments hypotMicro playbackTuning (playheadPresets !! "diamond")
                      sheetOrigin farEvents = [sg] /\
     seg_dist sg == 500 /\
     maxPixelsPerSecond playbackTuning < seg_dist sg / seg_duration sg).
Proof.
  split; [vm_compute; reflexivity|]. split.
  - eexists. split; [vm_compute; reflexivity|]. vm_compute. reflexivity.
  - eexists. split; [vm_compute; reflexivity|].
    split; vm_compute; reflexivity.
Qed.

(** ** Deleting the last event *)

Lemma length_moveLetters (els : list letterEl) (ps : list position) :
  length (moveLetters els ps) = length els.
Proof.
  revert ps. induction els as [|el els IH]; intros [|p ps]; cbn; try reflexivity.
  rewrite IH. reflexivity.
Qed.

Lemma moveLetters_chars (els : list letterEl) (ps : list position) :
  map el_char (moveLetters els ps) = map el_char els.
Proof.
  revert ps. induction els as [|el els IH]; intros [|p ps]; cbn; try reflexivity.
  rewrite IH. reflexivity.
Qed.

(** Reflow succeeds and rewrites neither the events, the alignment, the
    caret nor the stored blob; it keeps the letter elements' texts. *)
Lemma reflowExistingLetters_frame (c : container) (st : appState) :
  exists st',
    reflowExistingLetters c st = Some st' /\
    events st' = events st /\ align st' = align st /\
    caretState st' = caretState st /\ persisted st' = persisted st /\
    map el_char (typedLetters st') = map el_char (typedLetters st).
Proof.
  unfold reflowExistingLetters.
  destruct (typedLetters st) as [|el els] eqn:Hels.
  - exists st. rewrite Hels. repeat split; reflexivity.
  - destruct (layoutEventsAligned_total c (events st) (align st)) as (ps & _ & -> & _).
    eexists. split; [reflexivity|]. cbn.
    repeat split; try reflexivity.
    destruct ps as [|p ps]; cbn; [reflexivity|]. rewrite moveLetters_chars. reflexivity.
Qed.

(** C9: on an empty event log [deleteLast] returns the state it was given,
    whatever the rest of the state is; on a log [evs ++ [e]] it succeeds and
    leaves exactly [evs] (characters, notes, timestamps and positions of
    the earlier events untouched), stores [evs], keeps the alignment, and
    removes the last letter element exactly when [e] is not a newline. *)
Theorem deleteLast_spec (c : container) (al : alignment) (els : list letterEl)
    (k : caret) (cv : option position) (stored : option (list event))
    (evs : list event) (e : event) :
  deleteLast c (mkApp [] al els k cv stored) = Some (mkApp [] al els k cv stored) /\
  exists st',
    deleteLast c (mkApp (evs ++ [e]) al els k cv stored) = Some st' /\
    events st' = evs /\
    align st' = al /\
    persisted st' = Some evs /\
    map el_char (typedLetters st')
    = map el_char (if bool_decide (ev_char e = newline) then els else removelast els).
Proof.
  split; [reflexivity|].
  unfold deleteLast. cbn [events]. rewrite last_snoc, removelast_last.
  cbn [align typedLetters caretState cursorVars persisted].
  set (els' := if bool_decide (ev_char e = newline) then els else removelast els).
  destruct (reflowExistingLetters_frame c
              (persistToStorage (mkApp evs al els' k cv stored)))
    as (st2 & -> & Hev & Hal & _ & Hper & Hch).
  eexists. split; [reflexivity|].
  cbn in *. repeat split; assumption.
Qed.

(** ** Restore and import against the aligned layout *)

(** C5 fails on restore and import: their loop places the letters with
    [nextCaretPosition], not with [layoutEventsAligned].  For the stored
    events newline, [a] in a container of font size 24, restore puts the
    letter at [y = 36] (the caret's fallback line height, still in force on
    the first call), where the aligned layout of the same events under the
    same mode puts it at [y = 33.6]; and an import while the mode is
    [center] puts [a] and [b] at [x = 0] and [x = 10], where the aligned
    layout centres them at [x = 80/2 = 40] and [x = 100/2 = 50]. *)
Theorem restore_disagrees_with_layout :
  (let st := restoreEvents (sampleBox 100) frozenClock (freshApp AlignLeft) newlineThenA in
   map ev_char (events st) = map ev_char newlineThenA /\
   align st = AlignLeft /\
   typedLetters st = [mkLetter "a" 0 36] /\
   layoutEventsAligned (sampleBox 100) (events st) (align st)
   = Some (mkLayout [mkPos 0 33.6] 33.6)) /\
  (let st := restoreEvents (sampleBox 100) frozenClock (freshApp AlignCenter) abEvents in
   map ev_char (events st) = map ev_char abEvents /\
   align st = AlignCenter /\
   typedLetters st = [mkLetter "a" 0 0; mkLetter "b" 10 0] /\
   layoutEventsAligned (sampleBox 100) (events st) (align st)
   = Some (mkLayout [mkPos (80 # 2) 0; mkPos (100 # 2) 0] 33.6)).
Proof.
  split.
  - cbv zeta. split; [reflexivity|]. split; [reflexivity|].
    split; vm_compute; reflexivity.
  - cbv zeta. split; [reflexivity|]. split; [reflexivity|].
    split; vm_compute; reflexivity.
Qed.

(** ** Inherited names as palette names *)

Lemma buildKeyToNote_inherited (P : string) (i : nat) (k : string) :
  P ∈ objectPrototypeMembers -> letterKey i = Some k ->
  buildKeyToNote P !! k = Some JsUndefined.
Proof.
  intros HP Hk. rewrite (buildKeyToNote_letter P i k Hk).
  assert (Hpool : poolOf P = PoolInherited P).
  { unfold poolOf.
    assert (palettes !! P = None) as ->.
    { destruct (palettes !! P) as [pool|] eqn:Hp; [|reflexivity].
      exfalso. apply (bool_decide_eq_true_2 _) in HP.
      destruct (palettes_known P pool Hp) as [[-> _]|[[-> _]|[-> _]]];
        discriminate HP. }
    rewrite bool_decide_eq_true_2 by exact HP. reflexivity. }
  rewrite Hpool. reflexivity.
Qed.

(** C10 fails for the palette name [constructor], which an imported or a
    stored document can carry: the name is no own property of [palettes]
    but is found on [Object.prototype], so no fallback to [majorC] takes
    place, every one of the 26 letters is mapped to [undefined], and typing
    [a] yields no note. *)
Theorem buildKeyToNote_inherited_name :
  palettes !! "constructor" = None /\
  poolOf "constructor" = PoolInherited "constructor" /\
  length (omap letterKey (seq 0 26)) = 26%nat /\
  Forall (fun k => buildKeyToNote "constructor" !! k = Some JsUndefined)
         (omap letterKey (seq 0 26)) /\
  noteForKey (buildKeyToNote "constructor") "a" = JsNull.
Proof.
  split; [reflexivity|]. split; [reflexivity|]. split; [reflexivity|].
  split.
  - apply Forall_forall. intros k Hk.
    apply list_elem_of_omap in Hk as (i & _ & Hi).
    apply (buildKeyToNote_inherited "constructor" i k); [|exact Hi].
    apply (bool_decide_eq_true_1 _). reflexivity.
  - unfold noteForKey.
    rewrite (buildKeyToNote_inherited "constructor" 0 "a");
      [reflexivity | apply (bool_decide_eq_true_1 _); reflexivity | reflexivity].
Qed.

(** What does hold for every other name: a name that is neither a palette
    nor an inherited member falls back to the pool of [majorC], and every
    letter gets a pitch. *)
Theorem buildKeyToNote_total_off_prototype (P : string) (i : nat) :
  P ∉ objectPrototypeMembers ->
  (i < 26)%nat ->
  exists (k pitch : string) (pool : list string),
    poolOf P = PoolArray pool /\
    (palettes !! P = None -> palettes !! "majorC" = Some pool) /\
    letterKey i = Some k /\
    pool !! (i mod length pool)%nat = Some pitch /\
    buildKeyToNote P !! k = Some (Note pitch) /\
    buildKeyToNote P !! space = Some JsNull /\
    buildKeyToNote P !! newline = Some JsNull.
Proof.
  intros HP Hi.
  destruct (letterKey_defined i Hi) as [k Hk].
  assert (Hpool : exists pool, poolOf P = PoolArray pool /\
                    (palettes !! P = None -> palettes !! "majorC" = Some pool) /\
                    (0 < length pool)%nat).
  { unfold poolOf. destruct (palettes !! P) as [pool|] eqn:Hp.
    - exists pool. split; [reflexivity|]. split; [discriminate|].
      apply (palettes_nonempty P pool Hp).
    - rewrite bool_decide_eq_false_2 by exact HP.
      exists ["C4"; "D4"; "E4"; "F4"; "G4"; "A4"; "B4"; "C5"].
      split; [reflexivity|]. split; [intros _; reflexivity | cbn; lia]. }
  destruct Hpool as (pool & Hpool & Hfall & Hlen).
  assert (Hlt : (i mod length pool < length pool)%nat) by (apply Nat.mod_upper_bound; lia).
  destruct (lookup_lt_is_Some_2 pool _ Hlt) as [pitch Hpitch].
  exists k, pitch, pool.
  split; [exact Hpool|]. split; [exact Hfall|]. split; [exact Hk|]. split; [exact Hpitch|].
  split; [|apply buildKeyToNote_blank].
  rewrite (buildKeyToNote_letter P i k Hk), Hpool. cbn [poolAt].
  rewrite bool_decide_eq_false_2 by lia. rewrite Hpitch. reflexivity.
Qed.

(** An unknown palette name and the letter [j]. *)
Lemma buildKeyToNote_total_off_prototype_witness :
("bluesE" ∉ objectPrototypeMembers) /\
  exists (k pitch : string),
    letterKey 9 = Some k /\ buildKeyToNote "bluesE" !! k = Some (Note pitch).
Proof.
  assert (H : "bluesE" ∉ objectPrototypeMembers)
    by (apply (bool_decide_eq_false_1 _); reflexivity).
  split; [exact H|].
  destruct (buildKeyToNote_total_off_prototype "bluesE" 9 H ltac:(lia))
    as (k & pitch & pool & _ & _ & Hk & _ & Hnote & _).
  exists k, pitch. split; [exact Hk | exact Hnote].
Defined.

(** ** Playback runs *)

(** A run never detaches a part: the parts attached before it are still
    attached after it. *)
Lemma playSequence_keeps_parts (tn : tuning) (geo : sheetGeometry) (evs : list event)
    (p : playbackState) :
  attachedParts p `prefix_of` attachedParts (playSequence tn geo evs p).
Proof.
  unfold playSequence.
  destruct (noteEvents evs); [reflexivity|].
  destruct (buildMotionPathFromEvents geo evs); cbn; [|reflexivity].
  apply prefix_app_r. reflexivity.
Qed.

(** C8 fails: a run never detaches the part of an earlier run, so every
    trigger of an attached part is still pending after any later run; and
    for the two notes [a], [b], a second run leaves the first run's two
    part triggers pending beside its own, while within one run each note
    has two triggers, one in the part and one in the ball's timeline. *)
Theorem restart_keeps_previous_triggers :
  (forall tn geo evs p t,
     t ∈ flat_map partTriggers (attachedParts p) ->
     t ∈ pendingTriggers (playSequence tn geo evs p)) /\
  (let p1 := playSequence playbackTuning sheetOrigin abEvents idlePlayback in
   let p2 := playSequence playbackTuning sheetOrigin abEvents p1 in
   pendingTriggers p1
   = [mkTrigger 0 0 (Note "C4"); mkTrigger 0 1 (Note "D4");
      mkTrigger 0 0 (Note "C4"); mkTrigger 0 1 (Note "D4")] /\
   filter (fun t => trig_run t = 0%nat) (pendingTriggers p2)
   = [mkTrigger 0 0 (Note "C4"); mkTrigger 0 1 (Note "D4")] /\
   length (pendingTriggers p2) = 6%nat).
Proof.
  split.
  - intros tn geo evs p t Ht. unfold pendingTriggers.
    apply elem_of_app. left.
    destruct (playSequence_keeps_parts tn geo evs p) as [more ->].
    rewrite flat_map_app. apply elem_of_app. left. exact Ht.
  - cbv zeta. split; [vm_compute; reflexivity|].
    split; vm_compute; reflexivity.
Qed.

(** ** Re-running the aligned layout *)

Lemma lineStep_char (c : container) (b : lineBuilder) (e e' : event) :
  ev_char e = ev_char e' -> lineStep c b e = lineStep c b e'.
Proof.
  intros H. unfold lineStep. rewrite H. reflexivity.
Qed.

Lemma buildLines_chars (c : container) (evs evs' : list event) :
  map ev_char evs = map ev_char evs' -> buildLines c evs = buildLines c evs'.
Proof.
  unfold buildLines. generalize emptyBuilder as b. revert evs'.
  induction evs as [|e evs IH]; intros [|e' evs'] b H; try discriminate H; [reflexivity|].
  cbn [map] in H. injection H as Hc Hrest. cbn [foldl].
  rewrite (lineStep_char c b e e' Hc). apply IH. exact Hrest.
Qed.

(** The aligned layout reads nothing of the events but their characters:
    two event lists with the same characters get the same result under the
    same mode, whatever their notes, timestamps and stored positions. *)
Theorem layout_reads_characters_only (c : container) (evs evs' : list event)
    (a : alignment) :
  map ev_char evs = map ev_char evs' ->
  layoutEventsAligned c evs a = layoutEventsAligned c evs' a.
Proof.
  intros H. unfold layoutEventsAligned. rewrite (buildLines_chars c evs evs' H).
  reflexivity.
Qed.

(** The same letters before and after positions are stored in them. *)
Lemma layout_reads_characters_only_witness :
  map ev_char abEvents = map ev_char (withStoredPositions abEvents) /\
  layoutEventsAligned (sampleBox 25) abEvents AlignRight
  = layoutEventsAligned (sampleBox 25) (withStoredPositions abEvents) AlignRight.
Proof.
  split; [reflexivity|].
  apply (layout_reads_characters_only (sampleBox 25) abEvents (withStoredPositions abEvents)
           AlignRight).
  reflexivity.
Defined.

Lemma moveLetters_again (els : list letterEl) (ps ps' : list position) :
  length ps = length ps' ->
  moveLetters (moveLetters els ps') ps = moveLetters els ps.
Proof.
  revert ps ps'. induction els as [|el els IH]; intros [|p ps] [|p' ps'] Hlen;
    try discriminate Hlen; cbn; try reflexivity.
  rewrite IH by (cbn in Hlen; lia). reflexivity.
Qed.

(** What [setAlign] makes of a state: the mode is stored, the letters are
    sent to the positions of the aligned layout under that mode, and the
    events are persisted. *)
Lemma setAlign_result (c : container) (a : alignment) (st : appState) :
  exists ps,
    layoutEventsAligned c (events st) a = Some (mkLayout ps (lineHeightOf c)) /\
    length ps = length (glyphsOf c (events st)) /\
    setAlign c a st
    = Some (match typedLetters st with
            | [] => mkApp (events st) a [] (caretState st) (cursorVars st)
                          (Some (events st))
            | _ :: _ =>
                mkApp (events st) a (moveLetters (typedLetters st) ps) (caretState st)
                      (Some (mkPos (caret_x (caretState st)) (caret_y (caretState st))))
                      (Some (events st))
            end).
Proof.
  destruct (layoutEventsAligned_total c (events st) a) as (ps & _ & Hlay & Hlen).
  exists ps. split; [exact Hlay|]. split; [exact Hlen|].
  unfold setAlign, reflowExistingLetters. cbn [typedLetters events align].
  destruct (typedLetters st) as [|el els]; [reflexivity|].
  rewrite Hlay. reflexivity.
Qed.

(** Switching the alignment away from [left] and back, with the events
    unchanged, restores the state that [left] gave: the same letter
    positions, bit for bit, and the same stored events. *)
Theorem alignment_round_trip (c : container) (a : alignment) (st : appState) :
  exists st0 st1,
    setAlign c AlignLeft st = Some st0 /\
    setAlign c a st0 = Some st1 /\
    setAlign c AlignLeft st1 = Some st0.
Proof.
  destruct (setAlign_result c AlignLeft st) as (psL & HlayL & HlenL & H0).
  destruct (typedLetters st) as [|el els] eqn:Hels.
  - destruct (setAlign_result c a (mkApp (events st) AlignLeft [] (caretState st)
                                         (cursorVars st) (Some (events st))))
      as (psA & _ & _ & H1).
    destruct (setAlign_result c AlignLeft
                (mkApp (events st) a [] (caretState st) (cursorVars st) (Some (events st))))
      as (ps & _ & _ & H2).
    eexists _, _. split; [exact H0|]. split; [exact H1 | exact H2].
  - pose (st0 := mkApp (events st) AlignLeft (moveLetters (el :: els) psL) (caretState st)
                       (Some (mkPos (caret_x (caretState st)) (caret_y (caretState st))))
                       (Some (events st))).
    destruct (setAlign_result c a st0) as (psA & _ & HlenA & H1).
    assert (Hcons : exists el0 els0, moveLetters (el :: els) psL = el0 :: els0).
    { destruct psL; cbn; eauto. }
    destruct Hcons as (el0 & els0 & Hcons).
    cbn [typedLetters events caretState cursorVars st0] in H1, HlenA.
    rewrite Hcons in H1. rewrite <- Hcons in H1.
    pose (st1 := mkApp (events st) a (moveLetters (moveLetters (el :: els) psL) psA)
                       (caretState st)
                       (Some (mkPos (caret_x (caretState st)) (caret_y (caretState st))))
                       (Some (events st))).
    destruct (setAlign_result c AlignLeft st1) as (psL' & HlayL' & HlenL' & H2).
    cbn [typedLetters events caretState cursorVars st1] in H2, HlayL', HlenL'.
    assert (psL' = psL) by congruence. subst psL'.
    assert (Hcons' : exists el1 els1,
               moveLetters (moveLetters (el :: els) psL) psA = el1 :: els1).
    { rewrite Hcons. destruct psA; cbn; eauto. }
    destruct Hcons' as (el1 & els1 & Hcons').
    rewrite Hcons' in H2. rewrite <- Hcons' in H2.
    exists st0, st1. split; [exact H0|]. split; [exact H1|].
    rewrite H2. unfold st0. do 2 f_equal.
    rewrite (moveLetters_again _ psL psA) by lia.
    apply moveLetters_again. reflexivity.
Qed.

(** ** The WAV encoder *)

Lemma setUint8_in (view : list Z) (off : nat) (v : Z) :
  (off < length view)%nat -> setUint8 view off v = Some (<[off := (v mod 256)%Z]> view).
Proof. intros H. unfold setUint8. rewrite decide_True by exact H. reflexivity. Qed.

Lemma setUint16_app (pre post : list Z) (b0 b1 : Z) (v : Z) :
  setUint16 (pre ++ b0 :: b1 :: post) (length pre) v = Some (pre ++ le16 v ++ post).
Proof.
  unfold setUint16. rewrite decide_True by (rewrite length_app; cbn; lia).
  cbn zeta. f_equal.
  replace (S (length pre)) with (length pre + 1)%nat by lia.
  replace (length pre) with (length pre + 0)%nat at 2 by lia.
  rewrite !insert_app_r. reflexivity.
Qed.

Lemma setUint32_app (pre post : list Z) (b0 b1 b2 b3 : Z) (v : Z) :
  setUint32 (pre ++ b0 :: b1 :: b2 :: b3 :: post) (length pre) v
  = Some (pre ++ le32 v ++ post).
Proof.
  unfold setUint32. rewrite decide_True by (rewrite length_app; cbn; lia).
  cbn zeta. f_equal.
  replace (S (S (S (length pre)))) with (length pre + 3)%nat by lia.
  replace (S (S (length pre))) with (length pre + 2)%nat by lia.
  replace (S (length pre)) with (length pre + 1)%nat by lia.
  replace (length pre) with (length pre + 0)%nat at 4 by lia.
  rewrite !insert_app_r. reflexivity.
Qed.

Lemma writeString_app (str : string) :
  forall (pre old post : list Z),
    length old = String.length str ->
    writeString (pre ++ old ++ post) (length pre) str = Some (pre ++ charCodes str ++ post).
Proof.
  induction str as [|ch rest IH]; intros pre old post Hlen.
  - destruct old; [reflexivity | discriminate Hlen].
  - destruct old as [|b old]; [discriminate Hlen|]. cbn [writeString].
    rewrite setUint8_in by (rewrite length_app; cbn; lia).
    replace (length pre) with (length pre + 0)%nat at 1 by lia.
    rewrite insert_app_r. cbn [mbind option_bind insert list_insert app].
    specialize (IH (pre ++ [(Z.of_nat (nat_of_ascii ch) mod 256)%Z]) old post).
    rewrite length_app in IH. cbn [length] in IH.
    replace (S (length pre)) with (length pre + 1)%nat by lia.
    rewrite <- ?app_assoc in IH. cbn [app] in IH. rewrite IH by (cbn in Hlen; lia).
    f_equal. f_equal. unfold charCodes. cbn [list_ascii_of_string map app].
    rewrite Z.mod_small; [reflexivity|].
    pose proof (nat_ascii_bounded ch). lia.
Qed.

Lemma foldM_app {A B : Type} (f : A -> B -> option A) (l1 l2 : list B) :
  forall a, foldM f a (l1 ++ l2) = (a' ← foldM f a l1; foldM f a' l2).
Proof.
  induction l1 as [|b l1 IH]; intros a; [reflexivity|].
  cbn [foldM app]. destruct (f a b) as [a'|]; [apply IH | reflexivity].
Qed.

Lemma length_le16 (v : Z) : length (le16 v) = 2%nat.
Proof. reflexivity. Qed.

Lemma length_le32 (v : Z) : length (le32 v) = 4%nat.
Proof. reflexivity. Qed.

Lemma sampleStep_app (tb : toneBuffer) (i c : nat) (pre post : list Z) (b0 b1 : Z) :
  sampleStep tb i (pre ++ b0 :: b1 :: post, length pre) c
  = Some (pre ++ le16 (toInteger (sampleValue (getChannelData tb c i))) ++ post,
          (length pre + 2)%nat).
Proof.
  unfold sampleStep, setInt16. cbn [fst snd]. rewrite setUint16_app. reflexivity.
Qed.

Lemma frame_written (tb : toneBuffer) (i : nat) (cs : list nat) :
  forall (pre post : list Z),
    foldM (sampleStep tb i) (pre ++ replicate (2 * length cs) 0%Z ++ post, length pre) cs
    = Some (pre ++ flat_map (fun c => le16 (toInteger (sampleValue (getChannelData tb c i)))) cs
                ++ post,
            (length pre + 2 * length cs)%nat).
Proof.
  induction cs as [|c cs IH]; intros pre post.
  - cbn. rewrite Nat.add_0_r. reflexivity.
  - cbn [foldM length].
    replace (2 * S (length cs))%nat with (S (S (2 * length cs))) by lia.
    cbn [replicate app]. rewrite sampleStep_app. cbn [mbind option_bind].
    specialize (IH (pre ++ le16 (toInteger (sampleValue (getChannelData tb c i)))) post).
    rewrite length_app, length_le16 in IH. rewrite <- ?app_assoc in IH.
    rewrite <- ?app_assoc. rewrite IH. cbn [flat_map]. rewrite <- ?app_assoc.
    f_equal. f_equal. lia.
Qed.

Lemma length_flat_map_const {A B : Type} (f : A -> list B) (k : nat) (l : list A) :
  (forall a, length (f a) = k) -> length (flat_map f l) = (length l * k)%nat.
Proof.
  intros Hf. induction l as [|a l IH]; [reflexivity|].
  cbn [flat_map length]. rewrite length_app, IH, Hf. lia.
Qed.

Lemma length_frameBytes (tb : toneBuffer) (i : nat) :
  length (frameBytes tb i) = (2 * numberOfChannels tb)%nat.
Proof.
  unfold frameBytes. rewrite (length_flat_map_const _ 2) by (intros; reflexivity).
  rewrite length_seq. lia.
Qed.

Lemma frames_written (tb : toneBuffer) (frames : list nat) :
  forall (pre post : list Z),
    foldM (fun st i => foldM (sampleStep tb i) st (seq 0 (numberOfChannels tb)))
          (pre ++ replicate (length frames * numberOfChannels tb * 2) 0%Z ++ post, length pre) frames
    = Some (pre ++ flat_map (frameBytes tb) frames ++ post,
            (length pre + length frames * numberOfChannels tb * 2)%nat).
Proof.
  induction frames as [|i frames IH]; intros pre post.
  - cbn. rewrite Nat.add_0_r. reflexivity.
  - cbn [foldM length].
    replace (S (length frames) * numberOfChannels tb * 2)%nat
      with (2 * length (seq 0 (numberOfChannels tb)) + length frames * numberOfChannels tb * 2)%nat
      by (rewrite length_seq; lia).
    rewrite replicate_add, <- app_assoc, frame_written. cbn [mbind option_bind].
    fold (frameBytes tb i).
    specialize (IH (pre ++ frameBytes tb i) post).
    rewrite length_app, length_frameBytes in IH. rewrite <- ?app_assoc in IH.
    rewrite length_seq. rewrite IH. cbn [flat_map]. rewrite <- ?app_assoc.
    f_equal. f_equal. lia.
Qed.

Lemma length_wavSamples (tb : toneBuffer) :
  length (wavSamples tb) = (bufferLength tb * numberOfChannels tb * 2)%nat.
Proof.
  unfold wavSamples.
  rewrite (length_flat_map_const _ (2 * numberOfChannels tb))
    by (intros; apply length_frameBytes).
  rewrite length_seq. lia.
Qed.

Lemma length_wavHeader (tb : toneBuffer) : length (wavHeader tb) = 44%nat.
Proof. reflexivity. Qed.

Lemma split_at {A : Type} (view : list A) (off k : nat) :
  (off + k <= length view)%nat ->
  exists old, length old = k /\ view = take off view ++ old ++ drop (off + k) view
              /\ length (take off view) = off.
Proof.
  intros H. exists (take k (drop off view)). split; [|split].
  - rewrite length_take, length_drop. lia.
  - rewrite <- drop_drop. rewrite (take_drop k (drop off view)).
    symmetry. apply take_drop.
  - rewrite length_take. lia.
Qed.

Lemma writeString_splice (view : list Z) (off : nat) (str : string) :
  (off + String.length str <= length view)%nat ->
  writeString view off str
  = Some (take off view ++ charCodes str ++ drop (off + String.length str) view).
Proof.
  intros H. destruct (split_at view off _ H) as (old & Hold & Hview & Hoff).
  rewrite <- (writeString_app str _ old _ Hold). rewrite Hoff, <- Hview. reflexivity.
Qed.

Lemma setUint16_splice (view : list Z) (off : nat) (v : Z) :
  (off + 2 <= length view)%nat ->
  setUint16 view off v = Some (take off view ++ le16 v ++ drop (off + 2) view).
Proof.
  intros H. destruct (split_at view off _ H) as (old & Hold & Hview & Hoff).
  destruct old as [|b0 [|b1 [|? ?]]]; try discriminate Hold.
  cbn [app] in Hview.
  rewrite <- (setUint16_app _ _ b0 b1). rewrite Hoff, <- Hview. reflexivity.
Qed.

Lemma setUint32_splice (view : list Z) (off : nat) (v : Z) :
  (off + 4 <= length view)%nat ->
  setUint32 view off v = Some (take off view ++ le32 v ++ drop (off + 4) view).
Proof.
  intros H. destruct (split_at view off _ H) as (old & Hold & Hview & Hoff).
  destruct old as [|b0 [|b1 [|b2 [|b3 [|? ?]]]]]; try discriminate Hold.
  cbn [app] in Hview.
  rewrite <- (setUint32_app _ _ b0 b1 b2 b3). rewrite Hoff, <- Hview. reflexivity.
Qed.

Ltac header_write :=
  first [ rewrite writeString_splice by (cbn [length app String.length]; lia)
        | rewrite setUint32_splice by (cbn [length app]; lia)
        | rewrite setUint16_splice by (cbn [length app]; lia) ];
  unfold le32, le16;
  cbn [mbind option_bind String.length Nat.add firstn skipn app
       charCodes list_ascii_of_string map].

Lemma toneAudioBufferToWav_bytes (tb : toneBuffer) :
  toneAudioBufferToWav tb = Some (wavHeader tb ++ wavSamples tb).
Proof.
  unfold toneAudioBufferToWav. cbn zeta.
  set (n := (bufferLength tb * numberOfChannels tb * 2)%nat).
  rewrite (Nat.add_comm n 44), replicate_add.
  assert (Hbody : replicate n 0%Z
                  = replicate (length (seq 0 (bufferLength tb)) * numberOfChannels tb * 2) 0%Z
                    ++ []).
  { rewrite length_seq, app_nil_r. reflexivity. }
  generalize dependent (replicate n 0%Z). intros body Hbody.
  cbn [replicate app].
  do 13 header_write.
  match goal with
  | |- foldM _ (?view, _) _ ≫= _ = _ =>
      change view with (wavHeader tb ++ body);
      change 44%nat with (length (wavHeader tb))
  end.
  rewrite Hbody, frames_written. cbn [mbind option_bind fst].
  rewrite app_nil_r. reflexivity.
Qed.

Lemma lookup_flat_map_const {A B : Type} (f : A -> list B) (k : nat) (l : list A) :
  (forall a, length (f a) = k) ->
  forall (j r : nat) (a : A),
    l !! j = Some a -> (r < k)%nat -> flat_map f l !! (j * k + r)%nat = f a !! r.
Proof.
  intros Hf. induction l as [|b l IH]; intros j r a Hj Hr; [discriminate Hj|].
  cbn [flat_map]. destruct j as [|j].
  - injection Hj as ->. cbn [Nat.mul Nat.add]. apply lookup_app_l. rewrite Hf. exact Hr.
  - cbn in Hj. rewrite lookup_app_r by (rewrite Hf; lia).
    rewrite Hf. replace (S j * k + r - k)%nat with (j * k + r)%nat by lia.
    apply IH; assumption.
Qed.

Lemma wavSamples_at (tb : toneBuffer) (i c r : nat) :
  (i < bufferLength tb)%nat -> (c < numberOfChannels tb)%nat -> (r < 2)%nat ->
  wavSamples tb !! (2 * (i * numberOfChannels tb + c) + r)%nat
  = le16 (toInteger (sampleValue (getChannelData tb c i))) !! r.
Proof.
  intros Hi Hc Hr. unfold wavSamples.
  replace (2 * (i * numberOfChannels tb + c) + r)%nat
    with (i * (2 * numberOfChannels tb) + (c * 2 + r))%nat by lia.
  rewrite (lookup_flat_map_const (frameBytes tb) (2 * numberOfChannels tb) _
             (length_frameBytes tb) i (c * 2 + r) i).
  - unfold frameBytes.
    apply (lookup_flat_map_const
             (fun c => le16 (toInteger (sampleValue (getChannelData tb c i)))) 2);
      [reflexivity | | exact Hr].
    apply lookup_seq_lt. exact Hc.
  - apply lookup_seq_lt. exact Hi.
  - lia.
Qed.

Lemma le16_value (v : Z) :
  (0 <= v < 65536)%Z -> (v mod 65536 mod 256 + 256 * (v mod 65536 / 256) = v)%Z.
Proof. intros H. rewrite (Z.mod_small v 65536) by lia. Z.div_mod_to_equations. lia. Qed.

Lemma le32_value (v : Z) :
  (0 <= v < 4294967296)%Z ->
  let u := (v mod 4294967296)%Z in
  (u mod 256 + 256 * (u / 256 mod 256)
   + 65536 * (u / 65536 mod 256 + 256 * (u / 16777216)) = v)%Z.
Proof.
  intros H u. subst u. rewrite (Z.mod_small v 4294967296) by lia.
  Z.div_mod_to_equations. lia.
Qed.

Lemma signed16 (v : Z) :
  (-32768 <= v <= 32767)%Z ->
  let u := (v mod 65536 mod 256 + 256 * (v mod 65536 / 256))%Z in
  (if (u <? 32768)%Z then u else u - 65536)%Z = v.
Proof.
  intros H u.
  assert (Hu : u = (v mod 65536)%Z)
    by (subst u; Z.div_mod_to_equations; lia).
  rewrite Hu. destruct (Z.ltb_spec (v mod 65536) 32768); Z.div_mod_to_equations; lia.
Qed.

Lemma toInteger_bounds (q : Q) (lo hi : Z) :
  inject_Z lo <= q -> q <= inject_Z hi -> (lo <= toInteger q <= hi)%Z.
Proof.
  destruct q as [n d]. unfold Qle, toInteger. cbn [Qnum Qden inject_Z].
  rewrite !Z.mul_1_r. intros Hlo Hhi.
  pose proof (Pos2Z.is_pos d) as Hd.
  Z.to_euclidean_division_equations. nia.
Qed.

Lemma toInteger_trunc (q : Q) :
  (0 <= q -> inject_Z (toInteger q) <= q /\ q < inject_Z (toInteger q) + 1)
  /\ (q <= 0 -> inject_Z (toInteger q) - 1 < q /\ q <= inject_Z (toInteger q)).
Proof.
  destruct q as [n d]. unfold Qle, Qlt, Qminus, Qplus, Qopp, toInteger.
  cbn [Qnum Qden inject_Z].
  pose proof (Pos2Z.is_pos d) as Hd.
  split; intros H; split; Z.to_euclidean_division_equations; nia.
Qed.

Lemma sample_clamp (x : Q) :
  let sample := Qmax (-1) (Qmin 1 x) in
  -1 <= sample /\ sample <= 1
  /\ (1 <= x -> sample == 1) /\ (x <= -1 -> sample == -1)
  /\ (-1 <= x -> x <= 1 -> sample == x).
Proof.
  cbn zeta.
  destruct (Q.max_spec (-1) (Qmin 1 x)) as [[H1 ->]|[H1 ->]];
    destruct (Q.min_spec 1 x) as [[H2 E]|[H2 E]]; rewrite ?E in *;
    repeat split; intros; try lra.
Qed.

Lemma sampleValue_range (x : Q) : -32768 <= sampleValue x /\ sampleValue x <= 32767.
Proof.
  unfold sampleValue. cbn zeta.
  destruct (sample_clamp x) as (Hlo & Hhi & _). cbn zeta in Hlo, Hhi.
  destruct (Qlt_le_dec _ 0); split; lra.
Qed.

Lemma toInteger_sampleValue_range (x : Q) :
  (-32768 <= toInteger (sampleValue x) <= 32767)%Z.
Proof.
  destruct (sampleValue_range x). apply toInteger_bounds; assumption.
Qed.

Lemma getInt16_sample (tb : toneBuffer) (i c : nat) :
  (i < bufferLength tb)%nat -> (c < numberOfChannels tb)%nat ->
  getInt16 (wavHeader tb ++ wavSamples tb) (44 + 2 * (i * numberOfChannels tb + c))
  = Some (toInteger (sampleValue (getChannelData tb c i))).
Proof.
  intros Hi Hc. unfold getInt16, getUint16.
  rewrite !lookup_app_r by (rewrite length_wavHeader; lia).
  rewrite length_wavHeader.
  replace (44 + 2 * (i * numberOfChannels tb + c) - 44)%nat
    with (2 * (i * numberOfChannels tb + c) + 0)%nat by lia.
  replace (S (44 + 2 * (i * numberOfChannels tb + c)) - 44)%nat
    with (2 * (i * numberOfChannels tb + c) + 1)%nat by lia.
  rewrite !wavSamples_at by (assumption || lia).
  cbn [le16 lookup list_lookup mbind option_bind]. cbn zeta. f_equal.
  apply signed16. apply toInteger_sampleValue_range.
Qed.

(** The encoder never raises a [RangeError], whatever the buffer's
    channel count and length, and its output has 44 bytes of header and
    two bytes for each sample of each channel. *)
Theorem wav_export_size (tb : toneBuffer) :
  exists out, toneAudioBufferToWav tb = Some out
              /\ length out = (44 + 2 * (bufferLength tb * numberOfChannels tb))%nat.
Proof.
  exists (wavHeader tb ++ wavSamples tb). split; [apply toneAudioBufferToWav_bytes|].
  rewrite length_app, length_wavHeader, length_wavSamples. lia.
Qed.

Ltac read32 v :=
  unfold getUint32, getUint16, wavHeader, charCodes, le32, le16;
  cbn [app map list_ascii_of_string lookup list_lookup mbind option_bind];
  f_equal; apply (le32_value v); lia.

Ltac read16 v :=
  unfold getUint16, wavHeader, charCodes, le32, le16;
  cbn [app map list_ascii_of_string lookup list_lookup mbind option_bind];
  f_equal; apply (le16_value v); lia.

(** The header is a canonical PCM header: read back with the [DataView]
    readers, the tags are RIFF, WAVE, fmt and data, the RIFF size is the
    file size less 8, the format chunk has size 16, format 1 and 16 bits per
    sample, the channel count and the sample rate are the buffer's, the
    block size is two bytes per channel, the byte rate is the sample rate
    times the block size, and the data size is the file size less 44.  The
    hypotheses say that each value fits its field. *)
Theorem wav_header_fields (tb : toneBuffer) (out : list Z) :
  let ch := Z.of_nat (numberOfChannels tb) in
  toneAudioBufferToWav tb = Some out ->
  (Z.of_nat (length out) - 8 < 4294967296)%Z ->
  (0 <= sampleRate tb < 4294967296)%Z ->
  (sampleRate tb * ch * 2 < 4294967296)%Z ->
  (ch * 2 < 65536)%Z ->
  take 4 out = charCodes "RIFF"
  /\ getUint32 out 4 = Some (Z.of_nat (length out) - 8)%Z
  /\ take 4 (drop 8 out) = charCodes "WAVE"
  /\ take 4 (drop 12 out) = charCodes "fmt "
  /\ getUint32 out 16 = Some 16%Z
  /\ getUint16 out 20 = Some 1%Z
  /\ getUint16 out 22 = Some ch
  /\ getUint32 out 24 = Some (sampleRate tb)
  /\ getUint32 out 28 = Some (sampleRate tb * ch * 2)%Z
  /\ getUint16 out 32 = Some (ch * 2)%Z
  /\ getUint16 out 34 = Some 16%Z
  /\ take 4 (drop 36 out) = charCodes "data"
  /\ getUint32 out 40 = Some (Z.of_nat (length out) - 44)%Z.
Proof.
  intros ch Hout Hsize Hrate Hbyte Hblock.
  assert (E : out = wavHeader tb ++ wavSamples tb)
    by (rewrite toneAudioBufferToWav_bytes in Hout; congruence).
  subst out. clear Hout.
  rewrite length_app, length_wavHeader, length_wavSamples in *.
  set (n := (bufferLength tb * numberOfChannels tb * 2)%nat) in *.
  assert (Hch : (0 <= ch)%Z) by (subst ch; lia).
  replace (Z.of_nat (44 + n) - 8)%Z with (36 + Z.of_nat n)%Z in * by lia.
  replace (Z.of_nat (44 + n) - 44)%Z with (Z.of_nat n) by lia.
  split; [reflexivity|]. split; [read32 (36 + Z.of_nat n)%Z|].
  split; [reflexivity|]. split; [reflexivity|].
  split; [read32 16%Z|]. split; [read16 1%Z|].
  split; [read16 ch|]. split; [read32 (sampleRate tb)|].
  split; [read32 (sampleRate tb * ch * 2)%Z|].
  split; [read16 (ch * 2)%Z|]. split; [read16 16%Z|].
  split; [reflexivity|]. read32 (Z.of_nat n).
Qed.

Lemma wav_header_fields_witness :
  exists out, toneAudioBufferToWav stereoClip = Some out
              /\ getUint32 out 4 = Some 48%Z /\ getUint16 out 22 = Some 2%Z
              /\ getUint32 out 28 = Some 176400%Z /\ getUint32 out 40 = Some 12%Z.
Proof.
  destruct (toneAudioBufferToWav stereoClip) as [out|] eqn:E; [|discriminate E].
  exists out. split; [reflexivity|].
  pose proof (wav_header_fields stereoClip out E) as H.
  assert (L : length out = 56%nat) by (vm_compute in E; injection E as <-; reflexivity).
  cbn zeta in H. rewrite L in H. cbn [numberOfChannels sampleRate stereoClip] in H.
  destruct H as (_ & H4 & _ & _ & _ & _ & H22 & _ & H28 & _ & _ & _ & H40); try lia.
  repeat split; assumption.
Defined.

(** The sample of channel [c] at frame [i] is stored at the byte offset
    [44 + 2 * (i * numChannels + c)] (frames in order, the channels of a
    frame interleaved), and reads back as a signed 16-bit integer as the
    quantised sample. *)
Theorem wav_sample_at (tb : toneBuffer) (i c : nat) :
  (i < bufferLength tb)%nat -> (c < numberOfChannels tb)%nat ->
  exists out,
    toneAudioBufferToWav tb = Some out
    /\ getInt16 out (44 + 2 * (i * numberOfChannels tb + c))
       = Some (toInteger (sampleValue (getChannelData tb c i))).
Proof.
  intros Hi Hc. exists (wavHeader tb ++ wavSamples tb).
  split; [apply toneAudioBufferToWav_bytes | apply getInt16_sample; assumption].
Qed.

Lemma wav_sample_at_witness :
  exists out,
    toneAudioBufferToWav stereoClip = Some out
    /\ getInt16 out 50 = Some (toInteger (sampleValue (getChannelData stereoClip 1 1))).
Proof. apply (wav_sample_at stereoClip 1 1); cbn; lia. Defined.

(** Quantisation: the stored integer lies within the signed 16-bit range
    for every input; an input of 1 or more saturates at 32767, one of -1 or
    less at -32768; in between it is the scaled sample rounded toward
    zero, less than one step away from it. *)
Theorem sample_quantised (x : Q) :
  let v := toInteger (sampleValue x) in
  (-32768 <= v <= 32767)%Z
  /\ (1 <= x -> v = 32767%Z)
  /\ (x <= -1 -> v = (-32768)%Z)
  /\ (0 <= x -> x <= 1 -> inject_Z v <= x * 32767 /\ x * 32767 < inject_Z v + 1)
  /\ (-1 <= x -> x < 0 -> inject_Z v - 1 < x * 32768 /\ x * 32768 <= inject_Z v).
Proof.
  cbn zeta. split; [apply toInteger_sampleValue_range|].
  destruct (sample_clamp x) as (Hlo & Hhi & Hone & Hneg & Hmid). cbn zeta in *.
  unfold sampleValue. cbn zeta.
  set (sample := Qmax (-1) (Qmin 1 x)) in *.
  split; [|split; [|split]].
  - intros Hx. specialize (Hone Hx).
    destruct (Qlt_le_dec sample 0); [lra|].
    assert (32767%Z <= toInteger (sample * 32767) <= 32767%Z)%Z; [|lia].
    apply toInteger_bounds; unfold inject_Z; lra.
  - intros Hx. specialize (Hneg Hx).
    destruct (Qlt_le_dec sample 0); [|lra].
    assert ((-32768)%Z <= toInteger (sample * 32768) <= (-32768)%Z)%Z; [|lia].
    apply toInteger_bounds; unfold inject_Z; lra.
  - intros H0 H1. specialize (Hmid ltac:(lra) H1).
    destruct (Qlt_le_dec sample 0); [lra|].
    destruct (toInteger_trunc (sample * 32767)) as [Hpos _].
    destruct Hpos as [Ha Hb]; [lra|]. split; lra.
  - intros H0 H1. specialize (Hmid H0 ltac:(lra)).
    destruct (Qlt_le_dec sample 0); [|lra].
    destruct (toInteger_trunc (sample * 32768)) as [_ Hnp].
    destruct Hnp as [Ha Hb]; [lra|]. split; lra.
Qed.

(** ** The offline render *)

Lemma nonDecreasing_from (t : Q) (ts : list Q) :
  nonDecreasing (t :: ts) -> Forall (fun u => t <= u) ts.
Proof.
  revert t. induction ts as [|u ts IH]; intros t H; [constructor|].
  destruct H as [Htu Hrest]. constructor; [exact Htu|].
  specialize (IH u Hrest). eapply Forall_impl; [exact IH|].
  intros v Hv. cbn beta in Hv. lra.
Qed.

Lemma nonDecreasing_tail (t : Q) (ts : list Q) :
  nonDecreasing (t :: ts) -> nonDecreasing ts.
Proof. destruct ts as [|u ts]; [intros; exact I | intros [_ H]; exact H]. Qed.

(** In a list whose entries never go back, the last entry kept by a filter
    is at least every kept entry. *)
Lemma last_filter_max {A : Type} (f : A -> Q) (P : A -> Prop) `{!forall x, Decision (P x)}
    (l : list A) :
  nonDecreasing (map f l) ->
  forall x, x ∈ filter P l -> exists y, last (filter P l) = Some y /\ f x <= f y.
Proof.
  induction l as [|a l IH]; intros Hs x Hx; [inversion Hx|].
  cbn [map] in Hs. pose proof (nonDecreasing_from _ _ Hs) as Hall.
  pose proof (nonDecreasing_tail _ _ Hs) as Hs'.
  rewrite filter_cons in *. destruct (decide (P a)) as [Ha|Ha].
  - destruct (filter P l) as [|b rest] eqn:E.
    + apply list_elem_of_singleton in Hx. subst x. exists a. split; [reflexivity|lra].
    + assert (Hlast : forall y, last (b :: rest) = Some y -> f a <= f y).
      { intros y Hy. apply last_Some_elem_of in Hy. rewrite <- E in Hy.
        apply list_elem_of_filter in Hy. rewrite Forall_forall in Hall.
        apply (Hall (f y)). apply list_elem_of_fmap. exists y. tauto. }
      apply elem_of_cons in Hx. destruct Hx as [->|Hx].
      * destruct (IH Hs' b ltac:(left)) as (y & Hy & Hby).
        exists y. split; [exact Hy | apply Hlast; exact Hy].
      * destruct (IH Hs' x Hx) as (y & Hy & Hxy).
        exists y. split; [exact Hy | exact Hxy].
  - apply IH; assumption.
Qed.

Lemma nonDecreasing_rel (first : Q) (evs : list event) :
  nonDecreasing (map ev_time evs) ->
  nonDecreasing (map (fun r : Q * jsnote => r.1)
                     (map (fun e => (Qmax 0 (ev_time e - first), ev_note e)) evs)).
Proof.
  induction evs as [|e [|e' evs] IH]; intros H; try exact I.
  destruct H as [Hee' Hrest]. split; [|apply IH; exact Hrest].
  cbn [fst]. apply Q.max_le_compat_l. lra.
Qed.

(** The offline render keeps the rhythm as typed: with timestamps that
    never go back, every note of the render plan is at the very offset of
    its keystroke from the first keystroke (silent keys before the first
    note included, and no gap is clamped), no offset is negative, and the
    rendered duration leaves 0.8 seconds after every note. *)
Theorem export_keeps_rhythm (first : event) (rest : list event) :
  nonDecreasing (map ev_time (first :: rest)) ->
  exists plan,
    exportAsWav (first :: rest) = Some plan
    /\ Forall2 (fun r e => r.1 == ev_time e - ev_time first /\ r.2 = ev_note e)
               (plan_part plan) (noteEvents (first :: rest))
    /\ Forall (fun r => 0 <= r.1 /\ r.1 + 0.8 <= plan_duration plan) (plan_part plan).
Proof.
  intros Hs. eexists. split; [reflexivity|]. cbn [plan_part plan_duration].
  set (evs := first :: rest) in *.
  pose proof (nonDecreasing_from _ _ Hs) as Hfirst.
  assert (Hall : Forall (fun e => ev_time first <= ev_time e) evs).
  { subst evs. constructor; [lra|]. rewrite Forall_forall in Hfirst.
    apply Forall_forall. intros e He. apply Hfirst.
    apply list_elem_of_fmap. exists e. tauto. }
  split.
  - unfold exportRel. fold evs. unfold evs at 1. fold evs. unfold noteEvents.
    clear Hs Hfirst. induction evs as [|e evs IH]; [constructor|].
    apply Forall_cons in Hall. destruct Hall as [He Hall].
    cbn [map]. rewrite !filter_cons. cbn [snd].
    destruct (decide (truthy (ev_note e) = true)) as [Hn|Hn].
    + constructor; [|apply IH; exact Hall]. cbn [fst snd]. split; [|reflexivity].
      apply Q.max_r. lra.
    + apply IH. exact Hall.
  - apply Forall_forall. intros r Hr. split.
    + unfold exportRel in Hr. fold evs in Hr. unfold evs at 1 in Hr. fold evs in Hr.
      apply list_elem_of_filter in Hr. destruct Hr as [_ Hr].
      apply list_elem_of_fmap in Hr. destruct Hr as (e & -> & _). cbn [fst].
      apply Q.le_max_l.
    + unfold exportTotalDur.
      assert (Hmax : exists y, last (exportRel evs) = Some y /\ r.1 <= y.1).
      { unfold exportRel in *. fold evs in Hr |- *. unfold evs at 1 in Hr.
        unfold evs at 1. fold evs in Hr |- *.
        apply (last_filter_max (fun r : Q * jsnote => r.1)); [|exact Hr].
        apply nonDecreasing_rel. exact Hs. }
      destruct Hmax as (y & -> & Hy). lra.
Qed.

Lemma export_keeps_rhythm_witness :
  exists plan,
    exportAsWav leadInEvents = Some plan
    /\ Forall2 (fun r e => r.1 == ev_time e - 3 /\ r.2 = ev_note e)
               (plan_part plan) (noteEvents leadInEvents)
    /\ Forall (fun r => 0 <= r.1 /\ r.1 + 0.8 <= plan_duration plan) (plan_part plan).
Proof.
  apply (export_keeps_rhythm (typed " " JsNull 3)
           [typed "a" (Note "C4") 5; typed "b" (Note "D4") 5.5]).
  cbn. repeat split; lra.
Defined.

(** ** Themes and playhead styles *)

Lemma themeSoundPalette_known (theme : string) :
  themeSoundPalette theme = "majorC" \/ themeSoundPalette theme = "minorA"
  \/ themeSoundPalette theme = "pentatonicC".
Proof.
  unfold themeSoundPalette, themes.
  destruct (decide (theme = "classic")) as [->|H1]; [left; reflexivity|].
  rewrite lookup_insert_ne by congruence.
  destruct (decide (theme = "midnight")) as [->|H2]; [right; left; reflexivity|].
  rewrite lookup_insert_ne by congruence.
  destruct (decide (theme = "pastel")) as [->|H3]; [right; right; reflexivity|].
  rewrite lookup_insert_ne by congruence. left. reflexivity.
Qed.

Lemma themeFontFamily_known (theme : string) :
  themeFontFamily theme = "Playfair Display" \/ themeFontFamily theme = "Poppins".
Proof.
  unfold themeFontFamily, themes.
  destruct (decide (theme = "classic")) as [->|H1]; [left; reflexivity|].
  rewrite lookup_insert_ne by congruence.
  destruct (decide (theme = "midnight")) as [->|H2]; [right; reflexivity|].
  rewrite lookup_insert_ne by congruence.
  destruct (decide (theme = "pastel")) as [->|H3]; [left; reflexivity|].
  rewrite lookup_insert_ne by congruence. left. reflexivity.
Qed.

Lemma known_palette_sounds (P : string) (i : nat) (k : string) :
  P = "majorC" \/ P = "minorA" \/ P = "pentatonicC" ->
  letterKey i = Some k ->
  truthy (noteForKey (buildKeyToNote P) k) = true.
Proof.
  intros HP Hk. unfold noteForKey. rewrite (buildKeyToNote_letter P i k Hk).
  destruct (letterKey_code i k Hk) as [Hi _].
  destruct HP as [-> | [-> | ->]];
    do 26 (destruct i as [|i]; [reflexivity|]); lia.
Qed.

(** Whatever the theme name (a known theme, an unknown one, or a name that
    every object inherits), [setTheme] leaves a mapping in which each of
    the 26 letters has a pitch that sounds, taken from one of the three
    palettes, and a font of the two theme fonts with its own spacing. *)
Theorem setTheme_always_sounds (theme : string) (i : nat) (k : string) :
  letterKey i = Some k ->
  let s := setTheme theme in
  truthy (noteForKey (set_keyToNote s) k) = true
  /\ (exists pool, palettes !! set_palette s = Some pool)
  /\ ((set_font s = "Playfair Display" /\ set_spacingEm s = 0.02)
      \/ (set_font s = "Poppins" /\ set_spacingEm s = 0.01)).
Proof.
  intros Hk s. subst s. unfold setTheme.
  cbn [set_keyToNote set_palette set_font set_spacingEm].
  pose proof (themeSoundPalette_known theme) as HP.
  split; [apply (known_palette_sounds _ i k HP Hk)|]. split.
  - destruct HP as [-> | [-> | ->]]; eexists; reflexivity.
  - destruct (themeFontFamily_known theme) as [E|E]; rewrite E;
      [left | right]; split; reflexivity.
Qed.

Lemma setTheme_always_sounds_witness :
  let s := setTheme "constructor" in
  truthy (noteForKey (set_keyToNote s) "q") = true
  /\ (exists pool, palettes !! set_palette s = Some pool)
  /\ ((set_font s = "Playfair Display" /\ set_spacingEm s = 0.02)
      \/ (set_font s = "Poppins" /\ set_spacingEm s = 0.01)).
Proof. apply (setTheme_always_sounds "constructor" 16 "q"). reflexivity. Defined.

Lemma setPlayheadStyle_speed (style : string) :
  let s := speedRatioOf (playheadFields (setPlayheadStyle style)) in
  0.85 <= s /\ s <= 1.1.
Proof.
  cbn zeta. unfold setPlayheadStyle, playheadPresets.
  destruct (decide (style = "classic")) as [->|H1]; [split; vm_compute; discriminate|].
  rewrite (lookup_insert_ne _ "classic" style) by congruence.
  destruct (decide (style = "comet")) as [->|H2]; [split; vm_compute; discriminate|].
  rewrite (lookup_insert_ne _ "comet" style) by congruence.
  destruct (decide (style = "star")) as [->|H3]; [split; vm_compute; discriminate|].
  rewrite (lookup_insert_ne _ "star" style) by congruence.
  destruct (decide (style = "heart")) as [->|H4]; [split; vm_compute; discriminate|].
  rewrite (lookup_insert_ne _ "heart" style) by congruence.
  destruct (decide (style = "flame")) as [->|H5]; [split; vm_compute; discriminate|].
  rewrite (lookup_insert_ne _ "flame" style) by congruence.
  destruct (decide (style = "kitten")) as [->|H6]; [split; vm_compute; discriminate|].
  rewrite (lookup_insert_ne _ "kitten" style) by congruence.
  destruct (decide (style = "diamond")) as [->|H7]; [split; vm_compute; discriminate|].
  rewrite (lookup_insert_ne _ "diamond" style) by congruence.
  rewrite lookup_empty.
  destruct (bool_decide (style ∈ objectPrototypeMembers)); split; vm_compute; discriminate.
Qed.

(** Whatever the style name handed to [setPlayheadStyle] (a preset, an
    unknown name, or a name that every object inherits), the speed
    multiplier that [playSequence] reads lies within [0.85, 1.1]; so every
    segment of the playback lasts at least [minSegmentSec / 1.1] and is
    travelled no faster than [maxPixelsPerSecond * 1.1]. *)
Theorem playhead_style_bounds (hypot : Q -> Q -> Q) (tn : tuning) (style : string)
    (geo : sheetGeometry) (evs : list event) :
  (forall dx dy, 0 <= hypot dx dy) ->
  0 < maxPixelsPerSecond tn ->
  0 < minSegmentSec tn ->
  let playhead := playheadFields (setPlayheadStyle style) in
  0.85 <= speedRatioOf playhead /\ speedRatioOf playhead <= 1.1
  /\ Forall (fun sg => minSegmentSec tn / 1.1 <= seg_duration sg
                       /\ seg_dist sg / seg_duration sg <= maxPixelsPerSecond tn * 1.1)
            (playbackSegments hypot tn playhead geo evs).
Proof.
  intros Hh Hcap Hfloor playhead. subst playhead.
  destruct (setPlayheadStyle_speed style) as [Hlo Hhi]. cbn zeta in Hlo, Hhi.
  set (s := speedRatioOf (playheadFields (setPlayheadStyle style))) in *.
  split; [exact Hlo|]. split; [exact Hhi|].
  assert (Hs : 0 < s) by lra.
  unfold playbackSegments.
  destruct (noteEvents evs) as [|e0 nes]; [constructor|].
  destruct (buildMotionPathFromEvents geo evs) as [points|]; [|constructor].
  eapply Forall_impl; [apply (segmentsOf_bounded hypot Hh tn Hcap Hfloor s Hs)|].
  intros sg (_ & _ & _ & _ & Hdur & Hspeed & _). cbn beta. split.
  - eapply Qle_trans; [|exact Hdur].
    apply Qle_shift_div_l; [exact Hs|].
    assert (E : minSegmentSec tn / 1.1 * s == minSegmentSec tn * s / 1.1)
      by (field; lra).
    rewrite E.
    apply Qle_shift_div_r; [lra|].
    apply Qmult_le_l; [exact Hfloor | exact Hhi].
  - eapply Qle_trans; [exact Hspeed|]. apply Qmult_le_l; [exact Hcap | exact Hhi].
Qed.

Lemma playhead_style_bounds_witness :
  let playhead := playheadFields (setPlayheadStyle "toString") in
  0.85 <= speedRatioOf playhead /\ speedRatioOf playhead <= 1.1
  /\ Forall (fun sg => minSegmentSec playbackTuning / 1.1 <= seg_duration sg
                       /\ seg_dist sg / seg_duration sg
                          <= maxPixelsPerSecond playbackTuning * 1.1)
            (playbackSegments hypotMicro playbackTuning playhead sheetOrigin farEvents).
Proof.
  apply (playhead_style_bounds hypotMicro playbackTuning "toString" sheetOrigin farEvents
           hypotMicro_nonneg); reflexivity.
Defined.

(** ** Keystrokes and sessions *)

Lemma lettered_app (evs evs' : list event) :
  lettered (evs ++ evs') = lettered evs ++ lettered evs'.
Proof. apply filter_app. Qed.

Lemma length_glyphsOf (c : container) (evs : list event) :
  length (glyphsOf c evs) = length (lettered evs).
Proof. unfold glyphsOf, lettered. apply length_map. Qed.

Lemma layout_positions (c : container) (evs : list event) (a : alignment) :
  exists ps,
    layoutEventsAligned c evs a = Some (mkLayout ps (lineHeightOf c))
    /\ length ps = length (lettered evs).
Proof.
  destruct (layoutEventsAligned_total c evs a) as (ps & _ & Hlay & Hlen).
  exists ps. split; [exact Hlay|]. rewrite Hlen. apply length_glyphsOf.
Qed.

Lemma layout_chars (c : container) (evs evs' : list event) (a : alignment) :
  map ev_char evs = map ev_char evs' ->
  layoutEventsAligned c evs a = layoutEventsAligned c evs' a.
Proof.
  intros H. unfold layoutEventsAligned. rewrite (buildLines_chars c evs evs' H).
  reflexivity.
Qed.

Lemma lettered_chars (evs evs' : list event) :
  map ev_char evs = map ev_char evs' ->
  map ev_char (lettered evs) = map ev_char (lettered evs').
Proof.
  revert evs'. induction evs as [|e evs IH]; intros [|e' evs'] H; try discriminate H;
    [reflexivity|].
  cbn [map] in H. injection H as Hc Hrest. unfold lettered. rewrite !filter_cons.
  rewrite <- Hc.
  destruct (decide (ev_char e <> newline)); [cbn [map]; f_equal; [exact Hc|]|];
    apply IH; exact Hrest.
Qed.

Lemma zip_letters_chars (evs evs' : list event) (ps : list position) :
  map ev_char evs = map ev_char evs' ->
  zip_with (fun e p => mkLetter (ev_char e) (pos_x p) (pos_y p)) evs ps
  = zip_with (fun e p => mkLetter (ev_char e) (pos_x p) (pos_y p)) evs' ps.
Proof.
  revert evs' ps. induction evs as [|e evs IH]; intros [|e' evs'] ps H; try discriminate H;
    [reflexivity|].
  cbn [map] in H. injection H as Hc Hrest. destruct ps as [|p ps]; [reflexivity|].
  cbn [zip_with]. rewrite Hc. f_equal. apply IH. exact Hrest.
Qed.

Lemma moveLetters_zip (els : list letterEl) (evs : list event) (ps : list position) :
  map el_char els = map ev_char evs ->
  (length evs <= length ps)%nat ->
  moveLetters els ps
  = zip_with (fun e p => mkLetter (ev_char e) (pos_x p) (pos_y p)) evs ps.
Proof.
  revert evs ps. induction els as [|el els IH]; intros [|e evs] ps H Hlen;
    try discriminate H.
  - destruct ps; reflexivity.
  - cbn [map] in H. injection H as Hc Hrest.
    destruct ps as [|p ps]; [cbn in Hlen; lia|].
    cbn [moveLetters zip_with]. rewrite Hc. f_equal.
    apply IH; [exact Hrest | cbn in Hlen; lia].
Qed.

Lemma zip_letters_chars_of (evs : list event) (ps : list position) :
  length ps = length evs ->
  map el_char (zip_with (fun e p => mkLetter (ev_char e) (pos_x p) (pos_y p)) evs ps)
  = map ev_char evs.
Proof.
  revert ps. induction evs as [|e evs IH]; intros [|p ps] H; try discriminate H;
    [reflexivity|].
  cbn [zip_with map el_char]. f_equal. apply IH. cbn in H. lia.
Qed.

Lemma inStep_lettersMatch (c : container) (st : appState) :
  inStep c st -> lettersMatch st.
Proof.
  intros (ps & _ & Hels & Hlen). unfold lettersMatch. rewrite Hels.
  apply zip_letters_chars_of. exact Hlen.
Qed.

(** What a reflow makes of a state whose letters spell the events. *)
Lemma reflow_inStep (c : container) (st : appState) :
  lettersMatch st ->
  exists st',
    reflowExistingLetters c st = Some st'
    /\ inStep c st'
    /\ events st' = events st /\ align st' = align st
    /\ persisted st' = persisted st /\ caretState st' = caretState st
    /\ (cursorVars st' = cursorVars st
        \/ cursorVars st' = Some (mkPos (caret_x (caretState st)) (caret_y (caretState st)))).
Proof.
  intros Hm. destruct (layout_positions c (events st) (align st)) as (ps & Hlay & Hlen).
  unfold reflowExistingLetters.
  destruct (typedLetters st) as [|el els] eqn:Hels.
  - exists st. split; [reflexivity|]. split; [|tauto].
    exists ps. split; [exact Hlay|]. split; [|exact Hlen].
    unfold lettersMatch in Hm. rewrite Hels in Hm. cbn [map] in Hm.
    destruct (lettered (events st)); [exact Hels | discriminate Hm].
  - rewrite Hlay. cbn [mbind option_bind positions]. eexists. split; [reflexivity|].
    cbn [updateCursorPosition events align typedLetters caretState cursorVars persisted].
    split; [|tauto].
    exists ps. cbn [events align typedLetters]. split; [exact Hlay|]. split; [|exact Hlen].
    apply (moveLetters_zip _ (lettered (events st))); [|rewrite Hlen; reflexivity].
    rewrite <- Hels. exact Hm.
Qed.

Lemma eventCore_chars (evs evs' : list event) :
  map eventCore evs = map eventCore evs' -> map ev_char evs = map ev_char evs'.
Proof.
  intros H. apply (f_equal (map (fun t : string * jsnote * Q => t.1.1))) in H.
  rewrite !map_map in H. exact H.
Qed.

Lemma syncEvents_core (evs : list event) :
  forall (n : nat) (ps : list position),
    map eventCore (syncEvents evs n ps) = map eventCore evs.
Proof.
  induction evs as [|e evs IH]; intros n ps; [reflexivity|].
  cbn [syncEvents]. destruct (bool_decide (ev_char e = newline)).
  - cbn [map]. rewrite IH. reflexivity.
  - destruct n as [|n]; [cbn [map]; rewrite IH; reflexivity|].
    destruct ps as [|p ps]; cbn [map]; rewrite IH; reflexivity.
Qed.

Lemma syncEvents_positions (evs : list event) :
  forall (n : nat) (ps : list position),
    (length (lettered evs) <= n)%nat ->
    (length (lettered evs) <= length ps)%nat ->
    map (fun e => mkPos (ev_x e) (ev_y e)) (lettered (syncEvents evs n ps))
    = take (length (lettered evs)) ps.
Proof.
  induction evs as [|e evs IH]; intros n ps Hn Hps; [reflexivity|].
  cbn [syncEvents]. unfold lettered in *. rewrite filter_cons in Hn, Hps |- *.
  destruct (decide (ev_char e <> newline)) as [Hc|Hc].
  - rewrite bool_decide_eq_false_2 by exact Hc.
    cbn [length] in Hn, Hps.
    destruct n as [|n]; [lia|]. destruct ps as [|p ps]; [cbn in Hps; lia|].
    rewrite filter_cons. cbn [ev_char]. rewrite decide_True by exact Hc.
    cbn [map length take ev_x ev_y]. destruct p as [x y]. cbn [pos_x pos_y]. f_equal.
    apply IH; [lia | cbn in Hps; lia].
  - rewrite bool_decide_eq_true_2 by (destruct (decide (ev_char e = newline)); tauto).
    rewrite filter_cons, decide_False by exact Hc. apply IH; assumption.
Qed.

Lemma dismissWelcome_app (pg : page) :
  let st := pageApp (dismissWelcome pg) in
  events st = events (pageApp pg) /\ align st = align (pageApp pg)
  /\ typedLetters st = typedLetters (pageApp pg)
  /\ caretState st = caretState (pageApp pg)
  /\ persisted st = persisted (pageApp pg)
  /\ keyToNote (dismissWelcome pg) = keyToNote pg
  /\ scheduledTimeout (dismissWelcome pg) = scheduledTimeout pg
  /\ pendingTimers (dismissWelcome pg) = pendingTimers pg
  /\ timersSet (dismissWelcome pg) = timersSet pg
  /\ (cursorVars st = cursorVars (pageApp pg)
      \/ cursorVars st = Some (mkPos (caret_x (caretState (pageApp pg)))
                                     (caret_y (caretState (pageApp pg))))).
Proof.
  unfold dismissWelcome. destruct (welcomeShown pg); cbn; tauto.
Qed.

Lemma keyChar_not_delete (key : string) :
  keyChar key <> EmptyString -> ~ (key = "Backspace" \/ key = "Delete").
Proof. intros H [->| ->]; apply H; reflexivity. Qed.

Lemma zip_letters_snoc (evs : list event) (e : event) (ps : list position) :
  length ps = S (length evs) ->
  exists p,
    last ps = Some p
    /\ zip_with (fun e p => mkLetter (ev_char e) (pos_x p) (pos_y p)) (evs ++ [e]) ps
       = zip_with (fun e p => mkLetter (ev_char e) (pos_x p) (pos_y p)) evs ps
         ++ [mkLetter (ev_char e) (pos_x p) (pos_y p)].
Proof.
  intros Hlen. destruct ps as [|p0 ps0] using rev_ind; [discriminate Hlen|].
  clear IHps0. rewrite length_app in Hlen. cbn in Hlen.
  exists p0. split; [apply last_snoc|].
  rewrite zip_with_app by lia. cbn [zip_with]. f_equal.
  rewrite <- (app_nil_r evs) at 2. rewrite zip_with_app by lia.
  cbn [zip_with]. rewrite app_nil_r. reflexivity.
Qed.

(** The page after a character key (a one-character key or Enter), when
    the letters spell the events: the event is appended with its note and
    time, every letter is at its position of the aligned layout of all the
    events, and every non-newline event stores that position. *)
Lemma handleKeyDown_char (c : container) (key : string) (now : Q) (pg : page) :
  keyChar key <> EmptyString ->
  lettersMatch (pageApp pg) ->
  let pg0 := dismissWelcome pg in
  let st := pageApp pg in
  let new := mkEvent (keyChar key)
                     (noteForKey (keyToNote pg) (toLowerCase (keyChar key))) now 0 0 in
  exists ps evs',
    layoutEventsAligned c (events st ++ [new]) (align st)
    = Some (mkLayout ps (lineHeightOf c))
    /\ length ps = length (lettered (events st ++ [new]))
    /\ map eventCore evs' = map eventCore (events st ++ [new])
    /\ map (fun e => mkPos (ev_x e) (ev_y e)) (lettered evs') = ps
    /\ handleKeyDown c key now pg
       = Some (scheduleInactivityPlayback
                 (withApp pg0
                    (mkApp evs' (align st)
                       (zip_with (fun e p => mkLetter (ev_char e) (pos_x p) (pos_y p))
                                 (lettered (events st ++ [new])) ps)
                       (caretState st)
                       (Some (mkPos (caret_x (caretState st)) (caret_y (caretState st))))
                       (Some (events st ++ [new]))))).
Proof.
  intros Hkey Hm pg0 st new.
  destruct (dismissWelcome_app pg) as (Hev & Hal & Hels & Hcar & Hper & Hk2n & _).
  fold pg0 in Hev, Hal, Hels, Hcar, Hper, Hk2n. fold st in Hev, Hal, Hels, Hcar, Hper.
  destruct (layout_positions c (events st ++ [new]) (align st)) as (ps & Hlay & Hlen).
  set (evs1 := events st ++ [new]) in *.
  set (letters1 := zip_with (fun e p => mkLetter (ev_char e) (pos_x p) (pos_y p))
                            (lettered evs1) ps).
  exists ps, (syncEvents evs1 (length letters1) ps).
  assert (Hl1 : length letters1 = length ps).
  { unfold letters1. rewrite length_zip_with. lia. }
  split; [exact Hlay|]. split; [exact Hlen|]. split; [apply syncEvents_core|].
  split.
  { rewrite syncEvents_positions by lia. rewrite <- Hlen. apply firstn_all. }
  unfold handleKeyDown. fold pg0.
  rewrite bool_decide_eq_false_2 by (apply keyChar_not_delete; exact Hkey).
  rewrite bool_decide_eq_false_2 by exact Hkey.
  cbn zeta. unfold recordEvent, persistToStorage.
  cbn [events align typedLetters caretState cursorVars persisted pos_x pos_y].
  rewrite Hev, Hal, Hels, Hcar, Hk2n. fold new. fold evs1. rewrite Hlay.
  cbn [mbind option_bind positions]. do 2 f_equal.
  assert (Hletters :
            (if negb (bool_decide (keyChar key = newline))
             then moveLetters (typedLetters st)
                              (take (length (filter (fun e => ev_char e <> newline) evs1)) ps)
                  ++ [mkLetter (keyChar key) (pos_x (default (mkPos 0 0) (last ps)))
                               (pos_y (default (mkPos 0 0) (last ps)))]
             else moveLetters (typedLetters st)
                              (take (length (filter (fun e => ev_char e <> newline) evs1)) ps))
            = letters1).
  { fold (lettered evs1). rewrite <- Hlen, firstn_all.
    unfold letters1, evs1 in *. rewrite lettered_app in *.
    unfold lettered at 2. unfold lettered at 2 in Hlen.
    rewrite filter_cons, filter_nil in *. cbn [ev_char new] in *.
    destruct (decide (keyChar key <> newline)) as [Hc|Hc].
    - rewrite bool_decide_eq_false_2 by exact Hc. cbn [negb].
      rewrite length_app in Hlen. cbn [length] in Hlen.
      destruct (zip_letters_snoc (lettered (events st)) new ps ltac:(lia))
        as (p & Hlast & Hzip).
      rewrite Hzip, Hlast. cbn [default ev_char new]. f_equal.
      apply moveLetters_zip; [exact Hm | lia].
    - rewrite bool_decide_eq_true_2 by (destruct (decide (keyChar key = newline)); tauto).
      cbn [negb]. rewrite app_nil_r in *.
      apply moveLetters_zip; [exact Hm | lia]. }
  rewrite Hletters. unfold updateCursorPosition.
  cbn [events align typedLetters caretState cursorVars persisted]. reflexivity.
Qed.

Lemma scheduled_app (pg : page) : pageApp (scheduleInactivityPlayback pg) = pageApp pg.
Proof. reflexivity. Qed.

(** After a character key (a one-character key or Enter) on a page whose
    letters spell the events, whatever their positions were: the event is
    appended with the key's character, its note and the time; every letter
    is at its position of the aligned layout of all the events; and every
    non-newline event stores the position of its letter, which is what the
    motion path of the playback reads. *)
Theorem keystroke_places_letters (c : container) (key : string) (now : Q) (pg : page) :
  keyChar key <> EmptyString ->
  lettersMatch (pageApp pg) ->
  exists pg',
    handleKeyDown c key now pg = Some pg'
    /\ map eventCore (events (pageApp pg'))
       = map eventCore (events (pageApp pg))
         ++ [(keyChar key, noteForKey (keyToNote pg) (toLowerCase (keyChar key)), now)]
    /\ inStep c (pageApp pg')
    /\ map (fun e => (ev_char e, ev_x e, ev_y e)) (lettered (events (pageApp pg')))
       = map (fun l => (el_char l, el_left l, el_top l)) (typedLetters (pageApp pg')).
Proof.
  intros Hkey Hm.
  destruct (handleKeyDown_char c key now pg Hkey Hm)
    as (ps & evs' & Hlay & Hlen & Hcore & Hpos & Hres).
  cbn zeta in *. eexists. split; [exact Hres|].
  rewrite scheduled_app. unfold withApp.
  cbn [pageApp events align typedLetters].
  set (new := mkEvent (keyChar key)
                (noteForKey (keyToNote pg) (toLowerCase (keyChar key))) now 0 0) in *.
  pose proof (eventCore_chars _ _ Hcore) as Hchars.
  pose proof (lettered_chars _ _ Hchars) as Hlch.
  assert (Hlen' : length (lettered evs') = length ps).
  { rewrite <- Hpos. rewrite length_map. reflexivity. }
  split; [rewrite Hcore, map_app; reflexivity|]. split.
  - exists ps. cbn [events align typedLetters]. split; [|split].
    + rewrite (layout_chars c evs' _ _ Hchars). exact Hlay.
    + apply zip_letters_chars. symmetry. exact Hlch.
    + symmetry. exact Hlen'.
  - rewrite (zip_letters_chars _ (lettered evs') ps) by (symmetry; exact Hlch).
    rewrite <- Hpos. clear. induction (lettered evs') as [|e l IH]; [reflexivity|].
    cbn [map zip_with el_char el_left el_top pos_x pos_y]. f_equal. exact IH.
Qed.

Lemma keystroke_places_letters_witness :
  exists pg',
    handleKeyDown (sampleBox 25) "A" 1 initialPage = Some pg'
    /\ map eventCore (events (pageApp pg'))
       = map eventCore (events (pageApp initialPage))
         ++ [(keyChar "A", noteForKey (keyToNote initialPage) (toLowerCase (keyChar "A")), 1)]
    /\ inStep (sampleBox 25) (pageApp pg')
    /\ map (fun e => (ev_char e, ev_x e, ev_y e)) (lettered (events (pageApp pg')))
       = map (fun l => (el_char l, el_left l, el_top l)) (typedLetters (pageApp pg')).
Proof.
  apply (keystroke_places_letters (sampleBox 25) "A" 1 initialPage).
  - discriminate.
  - reflexivity.
Defined.

Lemma inStep_frame (c : container) (st st' : appState) :
  events st' = events st -> align st' = align st -> typedLetters st' = typedLetters st ->
  inStep c st -> inStep c st'.
Proof.
  intros He Ha Hl (ps & H1 & H2 & H3). exists ps. rewrite He, Ha, Hl. tauto.
Qed.

Lemma lettersMatch_empty (c : container) (st : appState) :
  events st = [] -> lettersMatch st -> inStep c st.
Proof.
  intros He Hm. destruct (layout_positions c (events st) (align st)) as (ps & Hlay & Hlen).
  exists ps. split; [exact Hlay|]. split; [|exact Hlen].
  unfold lettersMatch in Hm. rewrite He in *. cbn in Hm.
  destruct (typedLetters st); [reflexivity | discriminate Hm].
Qed.

(** What [deleteLast] makes of a state whose letters spell the events. *)
Lemma deleteLast_inStep (c : container) (st : appState) :
  lettersMatch st ->
  exists st',
    deleteLast c st = Some st'
    /\ inStep c st'
    /\ events st' = removelast (events st) /\ align st' = align st
    /\ caretState st' = caretState st
    /\ (persisted st' = Some (events st') \/ (events st = [] /\ st' = st))
    /\ (cursorVars st' = cursorVars st
        \/ cursorVars st' = Some (mkPos (caret_x (caretState st)) (caret_y (caretState st)))).
Proof.
  intros Hm. unfold deleteLast. destruct (last (events st)) as [lastEv|] eqn:Hlast.
  - apply last_Some in Hlast. destruct Hlast as [evs0 Hevs].
    cbn zeta.
    set (els' := if bool_decide (ev_char lastEv = newline) then typedLetters st
                 else removelast (typedLetters st)).
    set (st1 := mkApp (removelast (events st)) (align st) els' (caretState st)
                      (cursorVars st) (persisted st)).
    assert (Hrem : removelast (events st) = evs0) by (rewrite Hevs; apply removelast_last).
    assert (Hm1 : lettersMatch (persistToStorage st1)).
    { unfold lettersMatch, persistToStorage, st1. cbn [typedLetters events].
      rewrite Hrem. unfold lettersMatch in Hm. rewrite Hevs, lettered_app in Hm.
      unfold lettered at 2 in Hm. rewrite filter_cons, filter_nil in Hm.
      unfold els'. destruct (decide (ev_char lastEv <> newline)) as [Hc|Hc].
      - rewrite bool_decide_eq_false_2 by exact Hc.
        destruct (typedLetters st) as [|el0 els0] using rev_ind.
        + rewrite map_app in Hm. cbn in Hm. destruct (map ev_char (lettered evs0)); discriminate Hm.
        + rewrite removelast_last. rewrite !map_app in Hm. cbn [map] in Hm.
          apply app_inj_tail in Hm. tauto.
      - rewrite bool_decide_eq_true_2 by (destruct (decide (ev_char lastEv = newline)); tauto).
        rewrite app_nil_r in Hm. exact Hm. }
    destruct (reflow_inStep c (persistToStorage st1) Hm1)
      as (st2 & Hreflow & Hin & He & Ha & Hp & Hk & Hcur).
    rewrite Hreflow. cbn [mbind option_bind]. eexists. split; [reflexivity|].
    cbn [persistToStorage st1 events align persisted caretState cursorVars] in He, Ha, Hp, Hk, Hcur.
    split; [apply (inStep_frame c st2); [reflexivity .. | exact Hin]|].
    cbn [updateCursorPosition events align caretState persisted cursorVars].
    rewrite He, Ha, Hp, Hk. repeat split; try reflexivity; tauto.
  - apply last_None in Hlast. exists st. split; [reflexivity|].
    split; [apply lettersMatch_empty; assumption|]. rewrite Hlast. cbn. tauto.
Qed.

Lemma restoreStep_spec (c : container) (now : nat -> Q) (st : appState) (ev : event) :
  let st' := restoreStep c now st ev in
  (exists x y, events st' = events st
                 ++ [mkEvent (ev_char ev) (ev_note ev) (now (length (events st))) x y])
  /\ map el_char (typedLetters st')
     = map el_char (typedLetters st) ++ map ev_char (lettered [ev])
  /\ align st' = align st
  /\ persisted st' = Some (events st').
Proof.
  cbn zeta. unfold restoreStep.
  destruct (nextCaretPosition c (caretState st) (ev_char ev)) as [pos k].
  cbn [persistToStorage events typedLetters align persisted].
  split; [eexists _, _; reflexivity|]. split; [|split; reflexivity].
  unfold lettered. rewrite filter_cons, filter_nil.
  destruct (decide (ev_char ev <> newline)) as [Hc|Hc].
  - rewrite bool_decide_eq_false_2 by exact Hc. rewrite map_app. reflexivity.
  - rewrite bool_decide_eq_true_2 by (destruct (decide (ev_char ev = newline)); tauto).
    cbn [map]. rewrite app_nil_r. reflexivity.
Qed.

Lemma restoreLoop_spec (c : container) (now : nat -> Q) (stored : list event) :
  forall st,
    let st' := foldl (restoreStep c now) st stored in
    map ev_char (events st') = map ev_char (events st) ++ map ev_char stored
    /\ map ev_note (events st') = map ev_note (events st) ++ map ev_note stored
    /\ map ev_time (events st')
       = map ev_time (events st)
         ++ map (fun i => now (length (events st) + i)%nat) (seq 0 (length stored))
    /\ map el_char (typedLetters st')
       = map el_char (typedLetters st) ++ map ev_char (lettered stored)
    /\ align st' = align st
    /\ (stored = [] \/ persisted st' = Some (events st')).
Proof.
  induction stored as [|ev stored IH]; intros st; cbn zeta.
  - cbn [foldl map seq length lettered filter]. rewrite !app_nil_r. tauto.
  - cbn [foldl]. destruct (restoreStep_spec c now st ev) as ((x & y & He) & Hl & Ha & Hp).
    cbn zeta in He, Hl, Ha, Hp.
    destruct (IH (restoreStep c now st ev)) as (Hc & Hn & Ht & Hls & Hal & Hper).
    cbn zeta in Hc, Hn, Ht, Hls, Hal, Hper.
    rewrite Hc, Hn, Ht, Hls, Hal, He, Hl, Ha. rewrite !map_app, <- !app_assoc.
    cbn [map ev_char ev_note ev_time app length seq].
    change (ev :: stored) with ([ev] ++ stored). rewrite lettered_app, map_app.
    split; [reflexivity|]. split; [reflexivity|]. split.
    { do 2 f_equal. rewrite Nat.add_0_r. f_equal.
      rewrite <- seq_shift, map_map. apply map_ext. intros i.
      rewrite length_app. cbn [length]. f_equal. lia. }
    split; [reflexivity|]. split; [reflexivity|]. right.
    destruct Hper as [->|Hper]; [exact Hp | exact Hper].
Qed.

Lemma reflow_total (c : container) (st : appState) :
  exists st', reflowExistingLetters c st = Some st'.
Proof.
  unfold reflowExistingLetters. destruct (typedLetters st); [eexists; reflexivity|].
  destruct (layout_positions c (events st) (align st)) as (ps & -> & _).
  eexists. reflexivity.
Qed.

Lemma deleteLast_total (c : container) (st : appState) :
  exists st', deleteLast c st = Some st'.
Proof.
  unfold deleteLast. destruct (last (events st)); [|eexists; reflexivity].
  cbn zeta. match goal with |- context [reflowExistingLetters c ?s] =>
    destruct (reflow_total c s) as [st2 ->] end.
  eexists. reflexivity.
Qed.

Lemma setAlign_total (c : container) (a : alignment) (st : appState) :
  exists st', setAlign c a st = Some st'.
Proof.
  unfold setAlign. match goal with |- context [reflowExistingLetters c ?s] =>
    destruct (reflow_total c s) as [st2 ->] end.
  eexists. reflexivity.
Qed.

(** The timers a page holds. *)
Lemma handleKeyDown_timers (c : container) (key : string) (now : Q) (pg : page) :
  exists pg',
    handleKeyDown c key now pg = Some pg'
    /\ ((scheduledTimeout pg' = scheduledTimeout pg
         /\ pendingTimers pg' = pendingTimers pg)
        \/ (scheduledTimeout pg' = scheduledTimeout (scheduleInactivityPlayback pg)
            /\ pendingTimers pg' = pendingTimers (scheduleInactivityPlayback pg))).
Proof.
  destruct (dismissWelcome_app pg) as (_ & _ & _ & _ & _ & _ & Hs & Hp & Ht & _).
  cbn zeta in Hs, Hp, Ht.
  unfold handleKeyDown. destruct (bool_decide (key = "Backspace" \/ key = "Delete")).
  - destruct (deleteLast_total c (pageApp (dismissWelcome pg))) as [st' ->].
    eexists. split; [reflexivity|]. right.
    unfold scheduleInactivityPlayback, withApp.
    cbn [scheduledTimeout pendingTimers timersSet]. rewrite Hs, Hp, Ht. tauto.
  - destruct (bool_decide (keyChar key = EmptyString)).
    + eexists. split; [reflexivity|]. left. tauto.
    + cbn zeta. match goal with |- context [layoutEventsAligned c ?e ?a] =>
        destruct (layout_positions c e a) as (ps & -> & _) end.
      eexists. split; [reflexivity|]. right.
      unfold scheduleInactivityPlayback, withApp.
      cbn [scheduledTimeout pendingTimers timersSet]. rewrite Hs, Hp, Ht. tauto.
Qed.

Lemma step_total (pg : page) (ci : container * input) : exists pg', step pg ci = Some pg'.
Proof.
  destruct ci as [c [key now|a|name| |d now|id]]; unfold step; cbn [fst snd];
    try (eexists; reflexivity).
  - destruct (handleKeyDown_timers c key now pg) as (pg' & H & _). eauto.
  - destruct (setAlign_total c a (pageApp pg)) as [st' ->]. eexists. reflexivity.
Qed.

Lemma run_invariant_on (I : page -> Prop) (ok : container * input -> Prop) :
  (forall pg ci pg', ok ci -> step pg ci = Some pg' -> I pg -> I pg') ->
  forall inputs pg,
    Forall ok inputs -> I pg -> exists pg', runSession pg inputs = Some pg' /\ I pg'.
Proof.
  intros Hstep. unfold runSession.
  induction inputs as [|ci inputs IH]; intros pg Hok Hpg;
    [exists pg; split; [reflexivity|exact Hpg]|].
  apply Forall_cons in Hok. destruct Hok as [Hci Hok].
  cbn [foldM]. destruct (step_total pg ci) as [pg1 H1]. rewrite H1.
  cbn [mbind option_bind]. apply IH; [exact Hok|]. apply (Hstep pg ci pg1 Hci H1 Hpg).
Qed.

Lemma run_invariant (I : page -> Prop) :
  (forall pg ci pg', step pg ci = Some pg' -> I pg -> I pg') ->
  forall inputs pg, I pg -> exists pg', runSession pg inputs = Some pg' /\ I pg'.
Proof.
  intros Hstep inputs pg Hpg.
  apply (run_invariant_on I (fun _ => True)); [eauto | | exact Hpg].
  apply Forall_forall. intros; exact Logic.I.
Qed.

Lemma clearTimeout_single (id : nat) : clearTimeout id [id] = [].
Proof.
  unfold clearTimeout. rewrite filter_cons, decide_False by tauto. reflexivity.
Qed.

Lemma schedule_single (pg : page) :
  singleTimer pg -> singleTimer (scheduleInactivityPlayback pg).
Proof.
  intros [Hpend Hpos]. unfold singleTimer, scheduleInactivityPlayback.
  cbn [pendingTimers scheduledTimeout]. split.
  - right. exists (S (timersSet pg)). split; [|reflexivity].
    destruct Hpend as [Hnil|(id & Hone & Hkept)].
    + rewrite Hnil. destruct (scheduledTimeout pg) as [id|]; [|reflexivity].
      destruct (bool_decide (id = 0%nat)); reflexivity.
    + rewrite Hkept, Hone. specialize (Hpos id Hkept).
      rewrite bool_decide_eq_false_2 by lia. rewrite clearTimeout_single. reflexivity.
  - intros id [= <-]. lia.
Qed.

Lemma singleTimer_same (pg pg' : page) :
  scheduledTimeout pg' = scheduledTimeout pg -> pendingTimers pg' = pendingTimers pg ->
  singleTimer pg -> singleTimer pg'.
Proof. unfold singleTimer. intros -> ->. tauto. Qed.

Lemma step_timers (pg : page) (ci : container * input) (pg' : page) :
  step pg ci = Some pg' -> singleTimer pg -> singleTimer pg'.
Proof.
  destruct ci as [c [key now|a|name| |d now|id]]; unfold step; cbn [fst snd]; intros H Hs.
  - destruct (handleKeyDown_timers c key now pg) as (pg1 & H1 & Ht).
    rewrite H1 in H. injection H as <-.
    destruct Ht as [[E1 E2]|[E1 E2]].
    + apply (singleTimer_same pg); assumption.
    + apply (singleTimer_same (scheduleInactivityPlayback pg)); [assumption..|].
      apply schedule_single. exact Hs.
  - destruct (setAlign c a (pageApp pg)); [|discriminate H]. injection H as <-.
    apply (singleTimer_same pg); [reflexivity..|exact Hs].
  - injection H as <-. apply (singleTimer_same pg); [reflexivity..|exact Hs].
  - injection H as <-. apply (singleTimer_same pg); [reflexivity..|exact Hs].
  - injection H as <-. apply (singleTimer_same pg); [reflexivity..|exact Hs].
  - injection H as <-. unfold inactivityFires.
    destruct (bool_decide (id ∈ pendingTimers pg)) eqn:Hin; [|exact Hs].
    apply bool_decide_eq_true_1 in Hin. cbn [fst].
    destruct Hs as [[Hnil|(id0 & Hone & Hkept)] Hpos].
    + rewrite Hnil in Hin. inversion Hin.
    + split; [|exact Hpos]. left. cbn [pendingTimers]. rewrite Hone in *.
      apply list_elem_of_singleton in Hin. subst id0. apply clearTimeout_single.
Qed.

(** In every session (keys of any kind, alignment and palette changes,
    clears, imports and timers firing, in any order) every input succeeds
    and at most one inactivity timer is pending at any time, the one whose
    handle is kept in [state.scheduledTimeout]: a typing key clears the
    kept timer before it sets its own. *)
Theorem session_single_timer (pg : page) (inputs : list (container * input)) :
  singleTimer pg ->
  exists pg', runSession pg inputs = Some pg' /\ singleTimer pg'.
Proof. apply run_invariant. exact step_timers. Qed.

Lemma session_single_timer_witness :
  exists pg',
    runSession initialPage
        [(sampleBox 25, KeyDown "a" 1); (sampleBox 25, KeyDown "b" 2);
         (sampleBox 25, KeyDown "Backspace" 3); (sampleBox 25, TimerFires 1)]
    = Some pg'
    /\ singleTimer pg'.
Proof.
  apply (session_single_timer initialPage).
  split; [left; reflexivity | discriminate].
Defined.

Lemma step_letters (pg : page) (ci : container * input) (pg' : page) :
  step pg ci = Some pg' ->
  lettersMatch (pageApp pg) /\ storageInStep (pageApp pg) ->
  lettersMatch (pageApp pg') /\ storageInStep (pageApp pg').
Proof.
  destruct ci as [c [key now|a|name| |d now|id]]; unfold step; cbn [fst snd];
    intros H [Hm Hst].
  - destruct (dismissWelcome_app pg) as (Hev & Hal & Hels & Hcar & Hper & _).
    cbn zeta in Hev, Hal, Hels, Hcar, Hper.
    assert (Hm0 : lettersMatch (pageApp (dismissWelcome pg)))
      by (unfold lettersMatch; rewrite Hev, Hels; exact Hm).
    destruct (decide (keyChar key = EmptyString)) as [Hk|Hk].
    + unfold handleKeyDown in H.
      destruct (bool_decide (key = "Backspace" \/ key = "Delete")).
      * destruct (deleteLast_inStep c _ Hm0) as (st' & Hdel & Hin & He & _ & _ & Hp & _).
        rewrite Hdel in H. cbn [mbind option_bind] in H. injection H as <-.
        rewrite scheduled_app. unfold withApp. cbn [pageApp].
        split; [apply (inStep_lettersMatch c); exact Hin|].
        destruct Hp as [Hp|[_ ->]].
        -- exists (events st'). tauto.
        -- unfold storageInStep. rewrite Hev, Hper. exact Hst.
      * rewrite bool_decide_eq_true_2 in H by exact Hk. injection H as <-.
        split; [exact Hm0|]. unfold storageInStep. rewrite Hev, Hper. exact Hst.
    + destruct (handleKeyDown_char c key now pg Hk Hm)
        as (ps & evs' & Hlay & Hlen & Hcore & Hpos & Hres).
      cbn zeta in Hres. rewrite Hres in H. injection H as <-.
      rewrite scheduled_app. unfold withApp. cbn [pageApp].
      pose proof (eventCore_chars _ _ Hcore) as Hchars. split.
      * unfold lettersMatch. cbn [typedLetters events].
        rewrite zip_letters_chars_of by exact Hlen.
        symmetry. apply lettered_chars. exact Hchars.
      * eexists. cbn [persisted events]. split; [reflexivity|]. symmetry. exact Hcore.
  - unfold setAlign in H.
    set (st0 := mkApp (events (pageApp pg)) a (typedLetters (pageApp pg))
                      (caretState (pageApp pg)) (cursorVars (pageApp pg))
                      (persisted (pageApp pg))) in *.
    assert (Hm0 : lettersMatch st0) by exact Hm.
    destruct (reflow_inStep c st0 Hm0) as (st' & Hre & Hin & He & _).
    rewrite Hre in H. cbn [mbind option_bind] in H. injection H as <-.
    unfold withApp. cbn [pageApp]. split.
    + apply (inStep_lettersMatch c). apply (inStep_frame c st'); [reflexivity..|exact Hin].
    + eexists. split; reflexivity.
  - injection H as <-. cbn [pageApp]. split; [exact Hm|]. eexists. split; reflexivity.
  - injection H as <-. split; [reflexivity|]. eexists. split; reflexivity.
  - injection H as <-. unfold handleImportJson. cbn [pageApp]. split.
    + unfold lettersMatch, persistToStorage. cbn [typedLetters events].
      unfold restoreEvents.
      match goal with |- context [foldl (restoreStep c now) ?s (data_events d)] =>
        destruct (restoreLoop_spec c now (data_events d) s) as (Hc & _ & _ & Hls & _) end.
      cbn zeta in Hc, Hls. cbn [events typedLetters] in Hc, Hls.
      rewrite Hls.
      match goal with |- _ = map ev_char (lettered ?E) =>
        rewrite (lettered_chars E (data_events d)) by (rewrite Hc; reflexivity) end.
      reflexivity.
    + eexists. split; reflexivity.
  - injection H as <-. unfold inactivityFires.
    destruct (bool_decide (id ∈ pendingTimers pg)); cbn [fst pageApp]; tauto.
Qed.

(** In every session that starts with the letters spelling the events (a
    fresh page, or a page already typed on), every input succeeds, the
    letters on the page keep spelling the non-newline characters of the
    event log in their order, and the stored blob keeps holding the
    characters, notes and times of the log. *)
Theorem session_letters_and_storage (pg : page) (inputs : list (container * input)) :
  lettersMatch (pageApp pg) -> storageInStep (pageApp pg) ->
  exists pg',
    runSession pg inputs = Some pg'
    /\ lettersMatch (pageApp pg') /\ storageInStep (pageApp pg').
Proof.
  intros Hm Hs.
  apply (run_invariant (fun pg => lettersMatch (pageApp pg) /\ storageInStep (pageApp pg)));
    [exact step_letters | tauto].
Qed.

Lemma session_letters_and_storage_witness :
  exists pg',
    runSession initialPage
        [(sampleBox 25, KeyDown "H" 1); (sampleBox 25, KeyDown "Enter" 2);
         (sampleBox 25, KeyDown "i" 3); (sampleBox 25, AlignChange AlignCenter);
         (sampleBox 40, KeyDown "Delete" 4);
         (sampleBox 40, ImportFile (mkImport None (Some "minorA") abEvents) frozenClock)]
    = Some pg'
    /\ lettersMatch (pageApp pg') /\ storageInStep (pageApp pg').
Proof.
  apply (session_letters_and_storage initialPage).
  - reflexivity.
  - exists []. split; reflexivity.
Defined.

(** What a character key records, whatever the letters on the page. *)
Lemma handleKeyDown_records (c : container) (key : string) (now : Q) (pg : page) :
  keyChar key <> EmptyString ->
  exists pg',
    handleKeyDown c key now pg = Some pg'
    /\ map eventCore (events (pageApp pg'))
       = map eventCore (events (pageApp pg))
         ++ [(keyChar key, noteForKey (keyToNote pg) (toLowerCase (keyChar key)), now)].
Proof.
  intros Hkey.
  destruct (dismissWelcome_app pg) as (Hev & _ & _ & _ & _ & Hk2n & _).
  cbn zeta in Hev, Hk2n.
  unfold handleKeyDown.
  rewrite bool_decide_eq_false_2 by (apply keyChar_not_delete; exact Hkey).
  rewrite bool_decide_eq_false_2 by exact Hkey. cbn zeta.
  match goal with |- context [layoutEventsAligned c ?e ?a] =>
    destruct (layout_positions c e a) as (ps & -> & _) end.
  eexists. split; [reflexivity|].
  rewrite scheduled_app. unfold withApp, updateCursorPosition, recordEvent, persistToStorage.
  cbn [pageApp events]. rewrite syncEvents_core, map_app, Hev, Hk2n. reflexivity.
Qed.

Lemma foldl_assign_none (pool : poolval) (k : string) :
  (forall i, letterKey i <> Some k) ->
  forall (js : list nat) (m : gmap string jsnote),
    m !! k = None -> foldl (assignLetter pool) m js !! k = None.
Proof.
  intros Hk js. induction js as [|j js IH]; intros m Hm; [exact Hm|].
  cbn [foldl]. apply IH. unfold assignLetter.
  destruct (letterKey j) as [k'|] eqn:Hj; [|exact Hm].
  rewrite lookup_insert_ne; [exact Hm|]. intros ->. apply (Hk j). exact Hj.
Qed.

Lemma buildKeyToNote_other (P k : string) :
  (forall i, letterKey i <> Some k) ->
  noteForKey (buildKeyToNote P) k = JsNull.
Proof.
  intros Hk. unfold noteForKey, buildKeyToNote.
  destruct (decide (k = newline)) as [->|Hn]; [rewrite lookup_insert_eq; reflexivity|].
  rewrite lookup_insert_ne by congruence.
  destruct (decide (k = space)) as [->|Hs]; [rewrite lookup_insert_eq; reflexivity|].
  rewrite lookup_insert_ne by congruence.
  rewrite (foldl_assign_none _ k Hk); [reflexivity | apply lookup_empty].
Qed.

Lemma off_prototype_sounds (P : string) (i : nat) (k : string) :
  P ∉ objectPrototypeMembers ->
  letterKey i = Some k ->
  noteForKey (buildKeyToNote P) k = poolAt (poolOf P) i
  /\ truthy (poolAt (poolOf P) i) = true.
Proof.
  intros HP Hk. unfold noteForKey. rewrite (buildKeyToNote_letter P i k Hk).
  destruct (letterKey_code i k Hk) as [Hi _].
  assert (Hpool : poolOf P = PoolArray ["C4"; "D4"; "E4"; "F4"; "G4"; "A4"; "B4"; "C5"]
                  \/ poolOf P = PoolArray ["A3"; "B3"; "C4"; "D4"; "E4"; "F4"; "G4"; "A4"]
                  \/ poolOf P = PoolArray ["C4"; "D4"; "E4"; "G4"; "A4"; "C5"]).
  { unfold poolOf. destruct (palettes !! P) as [pool|] eqn:Hp.
    - destruct (palettes_known P pool Hp) as [[_ ->]|[[_ ->]|[_ ->]]]; tauto.
    - rewrite bool_decide_eq_false_2 by exact HP. left. reflexivity. }
  destruct Hpool as [-> | [-> | ->]];
    do 26 (destruct i as [|i]; [split; reflexivity|]); lia.
Qed.

(** Which keys sound.  With the mapping of any palette name that is not
    inherited, a character key records its character as typed, the time,
    and a note that is the pitch of the lower-cased character when that is
    one of the 26 letters (so capitals sound as their small letters), and
    [null] for every other key: digits, punctuation, space, Enter,
    accented letters. *)
Theorem keystroke_note (c : container) (key : string) (now : Q) (pg : page) (P : string) :
  keyToNote pg = buildKeyToNote P ->
  P ∉ objectPrototypeMembers ->
  keyChar key <> EmptyString ->
  exists pg' e,
    handleKeyDown c key now pg = Some pg'
    /\ last (events (pageApp pg')) = Some e
    /\ ev_char e = keyChar key /\ ev_time e = now
    /\ (forall i, letterKey i = Some (toLowerCase (keyChar key)) ->
                  ev_note e = poolAt (poolOf P) i /\ truthy (ev_note e) = true)
    /\ ((forall i, letterKey i <> Some (toLowerCase (keyChar key))) -> ev_note e = JsNull).
Proof.
  intros Hmap HP Hkey.
  destruct (handleKeyDown_records c key now pg Hkey) as (pg' & Hres & Hcore).
  exists pg'.
  destruct (events (pageApp pg')) as [|e0 evs0] using rev_ind.
  { destruct (map eventCore (events (pageApp pg))); discriminate Hcore. }
  clear IHevs0. rewrite map_app in Hcore. cbn [map] in Hcore.
  apply app_inj_tail in Hcore. destruct Hcore as [_ Hcore].
  unfold eventCore in Hcore. injection Hcore as Hc Hn Ht.
  exists e0. split; [exact Hres|]. split; [apply last_snoc|].
  split; [exact Hc|]. split; [exact Ht|]. rewrite Hn, Hmap. split.
  - intros i Hi. destruct (off_prototype_sounds P i _ HP Hi) as [E T].
    rewrite E. split; [reflexivity | exact T].
  - intros Hno. apply buildKeyToNote_other. exact Hno.
Qed.

Lemma keystroke_note_witness :
  exists pg' e,
    handleKeyDown (sampleBox 25) "Q" 7 initialPage = Some pg'
    /\ last (events (pageApp pg')) = Some e
    /\ ev_char e = keyChar "Q" /\ ev_time e = 7
    /\ (forall i, letterKey i = Some (toLowerCase (keyChar "Q")) ->
                  ev_note e = poolAt (poolOf "majorC") i /\ truthy (ev_note e) = true)
    /\ ((forall i, letterKey i <> Some (toLowerCase (keyChar "Q"))) -> ev_note e = JsNull).
Proof.
  apply (keystroke_note (sampleBox 25) "Q" 7 initialPage "majorC").
  - reflexivity.
  - apply (bool_decide_eq_false_1 _). reflexivity.
  - discriminate.
Defined.

Lemma map_removelast {A B : Type} (f : A -> B) (l : list A) :
  map f (removelast l) = removelast (map f l).
Proof.
  induction l as [|a [|b l] IH]; [reflexivity..|].
  change (removelast (a :: b :: l)) with (a :: removelast (b :: l)).
  cbn [map]. cbn [map] in IH. rewrite IH. reflexivity.
Qed.

(** Typing a character and then pressing Backspace, on a page whose
    letters are in step with the aligned layout, gives back the events
    (characters, notes and times) and the very letters, at the positions
    they had. *)
Theorem type_then_backspace (c : container) (key : string) (now now' : Q) (pg : page) :
  keyChar key <> EmptyString ->
  inStep c (pageApp pg) ->
  exists pg1 pg2,
    handleKeyDown c key now pg = Some pg1
    /\ handleKeyDown c "Backspace" now' pg1 = Some pg2
    /\ map eventCore (events (pageApp pg2)) = map eventCore (events (pageApp pg))
    /\ typedLetters (pageApp pg2) = typedLetters (pageApp pg)
    /\ align (pageApp pg2) = align (pageApp pg)
    /\ persisted (pageApp pg2) = Some (events (pageApp pg2)).
Proof.
  intros Hkey Hin. pose proof (inStep_lettersMatch c _ Hin) as Hm.
  destruct (handleKeyDown_char c key now pg Hkey Hm)
    as (ps1 & evs1 & Hlay1 & Hlen1 & Hcore1 & Hpos1 & Hres1).
  cbn zeta in *.
  set (new := mkEvent (keyChar key)
                (noteForKey (keyToNote pg) (toLowerCase (keyChar key))) now 0 0) in *.
  match type of Hres1 with _ = Some ?p => set (pg1 := p) in * end.
  destruct (dismissWelcome_app pg1) as (Hev & Hal & Hels & Hcar & Hper & _).
  cbn zeta in Hev, Hal, Hels, Hcar, Hper.
  assert (Hm1 : lettersMatch (pageApp (dismissWelcome pg1))).
  { unfold lettersMatch. rewrite Hev, Hels. unfold pg1. rewrite scheduled_app.
    unfold withApp. cbn [pageApp typedLetters events].
    rewrite zip_letters_chars_of by exact Hlen1.
    symmetry. apply lettered_chars. apply eventCore_chars. exact Hcore1. }
  destruct (deleteLast_inStep c _ Hm1) as (st2 & Hdel & Hin2 & He2 & Ha2 & _ & Hp2 & _).
  exists pg1. eexists. split; [exact Hres1|]. split.
  { unfold handleKeyDown. rewrite bool_decide_eq_true_2 by (left; reflexivity).
    rewrite Hdel. reflexivity. }
  rewrite scheduled_app. unfold withApp. cbn [pageApp].
  assert (Hev1 : events (pageApp pg1) = evs1) by reflexivity.
  assert (Hal1 : align (pageApp pg1) = align (pageApp pg)) by reflexivity.
  assert (Hcore2 : map eventCore (events st2) = map eventCore (events (pageApp pg))).
  { rewrite He2, Hev, Hev1, map_removelast, Hcore1, map_app. apply removelast_last. }
  split; [exact Hcore2|].
  pose proof (eventCore_chars _ _ Hcore2) as Hchars.
  destruct Hin2 as (ps2 & Hlay2 & Hels2 & _). destruct Hin as (ps & Hlay & Hels0 & _).
  rewrite Ha2, Hal, Hal1 in *.
  rewrite (layout_chars c _ _ _ Hchars) in Hlay2.
  assert (ps2 = ps) by congruence. subst ps2.
  split; [|split].
  - rewrite Hels2, Hels0. apply zip_letters_chars. apply lettered_chars. exact Hchars.
  - reflexivity.
  - destruct Hp2 as [Hp2|[Hnil _]]; [exact Hp2|].
    exfalso. rewrite Hev, Hev1 in Hnil. rewrite Hnil in Hcore1.
    destruct (events (pageApp pg)); discriminate Hcore1.
Qed.

Lemma type_then_backspace_witness :
  exists pg1 pg2,
    handleKeyDown (sampleBox 25) "x" 1 initialPage = Some pg1
    /\ handleKeyDown (sampleBox 25) "Backspace" 2 pg1 = Some pg2
    /\ map eventCore (events (pageApp pg2)) = map eventCore (events (pageApp initialPage))
    /\ typedLetters (pageApp pg2) = typedLetters (pageApp initialPage)
    /\ align (pageApp pg2) = align (pageApp initialPage)
    /\ persisted (pageApp pg2) = Some (events (pageApp pg2)).
Proof.
  apply (type_then_backspace (sampleBox 25) "x" 1 2 initialPage).
  - discriminate.
  - apply lettersMatch_empty; reflexivity.
Defined.

Lemma restoreEvents_log (c : container) (now : nat -> Q) (st : appState)
    (stored : list event) :
  let evs := events (restoreEvents c now st stored) in
  map ev_char evs = map ev_char stored
  /\ map ev_note evs = map ev_note stored
  /\ map ev_time evs = map now (seq 0 (length stored)).
Proof.
  cbn zeta. unfold restoreEvents.
  match goal with |- context [foldl (restoreStep c now) ?s stored] =>
    destruct (restoreLoop_spec c now stored s) as (Hc & Hn & Ht & _) end.
  cbn zeta in Hc, Hn, Ht. cbn [events map app length] in Hc, Hn, Ht.
  rewrite Hc, Hn, Ht. repeat split; reflexivity.
Qed.

Lemma Qmax_0_round64 (x : Q) : round64 (Qmax 0 (round64 x)) == Qmax 0 (round64 x).
Proof.
  destruct (Qlt_le_dec (round64 x) 0) as [H|H].
  - rewrite (round64_comp _ 0) by (apply Q.max_l; lra).
    rewrite (Q.max_l 0 (round64 x)) by lra. reflexivity.
  - rewrite (round64_comp _ (round64 x)) by (apply Q.max_r; exact H).
    rewrite (Q.max_r 0 (round64 x)) by exact H. apply round64_idem.
Qed.

(** Times that are doubles below the lower threshold are all pulled to the
    rounded sum of the time before and the threshold. *)
Lemma b64_smoothFrom_even (tn : tuning) (rest : list relEvent) :
  0 < minTimeBetweenNotes tn ->
  Forall (fun r => rel_t r < minTimeBetweenNotes tn /\ round64 (rel_t r) == rel_t r) rest ->
  forall prevTime prevTime',
    prevTime == prevTime' -> 0 <= prevTime ->
    Forall2 Qeq (times (Binary64.smoothFrom tn prevTime rest))
                (evenTimes (minTimeBetweenNotes tn)
                           (add64 prevTime' (minTimeBetweenNotes tn)) (length rest)).
Proof.
  intros Hpos Hall. induction Hall as [|r rest [Hr Hd] Hrest IH];
    intros prevTime prevTime' E Hprev; [constructor|].
  cbn [Binary64.smoothFrom times map length evenTimes].
  assert (Ec : Binary64.clampAfter tn prevTime r
               = mkRel (rel_event r) (add64 prevTime (minTimeBetweenNotes tn))).
  { unfold Binary64.clampAfter.
    destruct (Qlt_le_dec _ _) as [_|Hge]; [reflexivity|]. exfalso.
    pose proof (round64_mono (rel_t r - prevTime) (rel_t r) ltac:(lra)) as Hm.
    unfold sub64 in Hge. lra. }
  rewrite Ec. cbn [rel_t].
  assert (E' : add64 prevTime (minTimeBetweenNotes tn)
               == add64 prevTime' (minTimeBetweenNotes tn)).
  { unfold add64. apply round64_comp. rewrite E. reflexivity. }
  constructor; [exact E'|].
  apply IH; [exact E'|]. apply round64_nonneg. lra.
Qed.

(** Restore and import keep the text and the notes but not the rhythm: the
    events rebuilt by the loop of [restoreFromStorage] and
    [handleImportJson] have the characters and the notes of the stored
    ones, in order, and the readings of the clock during the loop in place
    of the stored times; when the loop runs within less than
    [minTimeBetweenNotes] seconds, the next playback schedule, computed in
    binary64, starts at [0] and every later time is the rounded sum of the
    time before it and [minTimeBetweenNotes]. *)
Theorem restore_flattens_rhythm (c : container) (now : nat -> Q) (st : appState)
    (stored : list event) (tn : tuning) :
  0 < minTimeBetweenNotes tn ->
  (forall i j, sub64 (now j) (now i) < minTimeBetweenNotes tn) ->
  let evs := events (restoreEvents c now st stored) in
  map ev_char evs = map ev_char stored
  /\ map ev_note evs = map ev_note stored
  /\ map ev_time evs = map now (seq 0 (length stored))
  /\ Forall2 Qeq (times (Binary64.schedule tn evs))
                 (evenTimes (minTimeBetweenNotes tn) 0 (length (noteEvents evs))).
Proof.
  intros Hpos Hclock evs.
  destruct (restoreEvents_log c now st stored) as (Hc & Hn & Ht). fold evs in Hc, Hn, Ht.
  split; [exact Hc|]. split; [exact Hn|]. split; [exact Ht|].
  assert (Hrange : Forall (fun e => exists i, ev_time e = now i) evs).
  { apply Forall_forall. intros e He.
    assert (Hin : ev_time e ∈ map ev_time evs) by (apply list_elem_of_fmap; eauto).
    rewrite Ht in Hin. apply list_elem_of_fmap in Hin. destruct Hin as (i & Hi & _). eauto. }
  unfold Binary64.schedule, Binary64.smooth, Binary64.relativeTimes, noteEvents.
  assert (Hnotes : Forall (fun e => exists i, ev_time e = now i)
                          (filter (fun e => truthy (ev_note e) = true) evs)).
  { apply Forall_forall. intros e He. apply list_elem_of_filter in He.
    rewrite Forall_forall in Hrange. apply Hrange. tauto. }
  destruct (filter (fun e => truthy (ev_note e) = true) evs) as [|first rest]; [constructor|].
  cbn [map length evenTimes times rel_t].
  apply Forall_cons in Hnotes. destruct Hnotes as [[i0 Hfirst] Hrest].
  assert (E0 : Qmax 0 (sub64 (ev_time first) (ev_time first)) == 0).
  { unfold sub64. rewrite (round64_zero_eq (ev_time first - ev_time first)) by ring.
    reflexivity. }
  constructor; [exact E0|].
  rewrite <- (length_map (fun e => mkRel e (Qmax 0 (sub64 (ev_time e) (ev_time first)))) rest).
  apply b64_smoothFrom_even; [exact Hpos | | exact E0 | apply Q.le_max_l].
  apply Forall_forall. intros r Hr. apply list_elem_of_fmap in Hr.
  destruct Hr as (e & -> & He). cbn [rel_t].
  rewrite Forall_forall in Hrest. destruct (Hrest e He) as [i Hi].
  split; [|apply Qmax_0_round64].
  rewrite Hi, Hfirst. apply Q.max_lub_lt; [exact Hpos | apply Hclock].
Qed.

Lemma restore_flattens_rhythm_witness :
  0 < minTimeBetweenNotes Binary64.playbackTuning /\
  (forall i j, sub64 (frozenClock j) (frozenClock i)
               < minTimeBetweenNotes Binary64.playbackTuning) /\
  let evs := events (restoreEvents (sampleBox 25) frozenClock (freshApp AlignLeft)
                                   burstEvents) in
  Forall2 Qeq (times (Binary64.schedule Binary64.playbackTuning evs))
              (evenTimes (minTimeBetweenNotes Binary64.playbackTuning) 0
                         (length (noteEvents evs))).
Proof.
  assert (H1 : 0 < minTimeBetweenNotes Binary64.playbackTuning) by (vm_compute; reflexivity).
  assert (H2 : forall i j, sub64 (frozenClock j) (frozenClock i)
                           < minTimeBetweenNotes Binary64.playbackTuning).
  { intros i j. vm_compute. reflexivity. }
  split; [exact H1|]. split; [exact H2|].
  destruct (restore_flattens_rhythm (sampleBox 25) frozenClock (freshApp AlignLeft)
              burstEvents Binary64.playbackTuning H1 H2) as (_ & _ & _ & H).
  exact H.
Defined.

(** Seven notes restored at once: the schedule reaches
    [0.48000000000000004] after [0.4], a gap above the threshold, after a
    gap below it between [0.16] and [0.24]. *)
Lemma even_times_drift :
  Forall2 Qeq (evenTimes (round64 0.08) 0 7)
              [0; round64 0.08; round64 0.16; round64 0.24; round64 0.32; round64 0.4;
               round64 0.48000000000000004] /\
  round64 0.24 - round64 0.16 < round64 0.08 /\
  round64 0.08 < round64 0.48000000000000004 - round64 0.4.
Proof.
  split; [vm_compute; repeat (constructor; [reflexivity|]); constructor|].
  split; vm_compute; reflexivity.
Qed.

Lemma handleKeyDown_caret (c : container) (key : string) (now : Q) (pg pg' : page) :
  handleKeyDown c key now pg = Some pg' ->
  caretState (pageApp pg') = caretState (pageApp pg)
  /\ (cursorVars (pageApp pg') = cursorVars (pageApp pg)
      \/ cursorVars (pageApp pg')
         = Some (mkPos (caret_x (caretState (pageApp pg)))
                       (caret_y (caretState (pageApp pg))))).
Proof.
  destruct (dismissWelcome_app pg) as (_ & _ & _ & Hcar & _ & _ & _ & _ & _ & Hcur).
  cbn zeta in Hcar, Hcur.
  unfold handleKeyDown. destruct (bool_decide (key = "Backspace" \/ key = "Delete")).
  - unfold deleteLast. destruct (last (events (pageApp (dismissWelcome pg)))).
    + cbn zeta. match goal with |- context [reflowExistingLetters c ?s] =>
        destruct (reflowExistingLetters_frame c s) as (st2 & -> & _ & _ & Hk & _) end.
      cbn [mbind option_bind]. intros [= <-]. rewrite scheduled_app. unfold withApp.
      cbn [pageApp updateCursorPosition caretState cursorVars].
      cbn [persistToStorage caretState] in Hk. rewrite Hk, Hcar. tauto.
    + cbn [mbind option_bind]. intros [= <-]. rewrite scheduled_app. unfold withApp.
      cbn [pageApp]. tauto.
  - destruct (bool_decide (keyChar key = EmptyString)); [intros [= <-]; tauto|].
    cbn zeta. match goal with |- context [layoutEventsAligned c ?e ?a] =>
      destruct (layout_positions c e a) as (ps & -> & _) end.
    cbn [mbind option_bind]. intros [= <-]. rewrite scheduled_app.
    unfold withApp, recordEvent, persistToStorage, updateCursorPosition.
    cbn [pageApp caretState cursorVars]. rewrite Hcar. tauto.
Qed.

Lemma step_cursor (pg : page) (ci : container * input) (pg' : page) :
  notImport ci -> step pg ci = Some pg' ->
  cursorAtOrigin (pageApp pg) -> cursorAtOrigin (pageApp pg').
Proof.
  unfold cursorAtOrigin.
  destruct ci as [c [key now|a|name| |d now|id]]; unfold step, notImport; cbn [fst snd];
    intros Hok H (Hx & Hy & Hv); try contradiction.
  - destruct (handleKeyDown_caret c key now pg pg' H) as [Hk Hcur].
    rewrite Hk. split; [exact Hx|]. split; [exact Hy|].
    destruct Hcur as [->| ->]; [exact Hv | rewrite Hx, Hy; reflexivity].
  - unfold setAlign in H.
    match type of H with context [reflowExistingLetters c ?s] =>
      destruct (reflowExistingLetters_frame c s) as (st2 & Hre & _ & _ & Hk & _);
      pose proof (reflow_total c s) as Htot end.
    rewrite Hre in H. cbn [mbind option_bind] in H. injection H as <-.
    unfold withApp. cbn [pageApp persistToStorage caretState cursorVars].
    cbn [caretState] in Hk. rewrite Hk. split; [exact Hx|]. split; [exact Hy|].
    unfold reflowExistingLetters in Hre. cbn [typedLetters events align] in Hre.
    destruct (typedLetters (pageApp pg)); [injection Hre as <-; exact Hv|].
    destruct (layoutEventsAligned c (events (pageApp pg)) a); [|discriminate Hre].
    cbn [mbind option_bind] in Hre. injection Hre as <-.
    cbn [updateCursorPosition cursorVars caretState]. rewrite Hx, Hy. reflexivity.
  - injection H as <-. cbn [pageApp persistToStorage caretState cursorVars]. tauto.
  - injection H as <-. cbn. tauto.
  - injection H as <-. unfold inactivityFires.
    destruct (bool_decide (id ∈ pendingTimers pg)); cbn [fst pageApp]; tauto.
Qed.

(** The cursor does not follow the typing.  In a session without an
    import that starts with the caret and the cursor at the origin (a fresh
    page), whatever is typed, deleted, realigned or cleared, the cursor
    variables stay at the origin: [handleKeyDown] and the reflow copy the
    caret of [nextCaretPosition] into them, and typing does not advance
    that caret. *)
Theorem session_cursor_stays (pg : page) (inputs : list (container * input)) :
  cursorAtOrigin (pageApp pg) ->
  Forall notImport inputs ->
  exists pg', runSession pg inputs = Some pg' /\ cursorAtOrigin (pageApp pg').
Proof.
  intros Hpg Hok.
  apply (run_invariant_on (fun pg => cursorAtOrigin (pageApp pg)) notImport);
    [exact step_cursor | exact Hok | exact Hpg].
Qed.

Lemma session_cursor_stays_witness :
  exists pg',
    runSession initialPage
        [(sampleBox 25, KeyDown "a" 1); (sampleBox 25, KeyDown "Enter" 2);
         (sampleBox 25, KeyDown "b" 3); (sampleBox 25, AlignChange AlignRight)]
    = Some pg'
    /\ cursorAtOrigin (pageApp pg').
Proof.
  apply (session_cursor_stays initialPage).
  - repeat split.
  - repeat constructor.
Defined.

(** ** The ball against the notes *)

Lemma smoothFrom_nonneg (tn : tuning) (rest : list relEvent) :
  0 < minTimeBetweenNotes tn ->
  minTimeBetweenNotes tn <= maxTimeBetweenNotes tn ->
  forall prevTime,
    0 <= prevTime -> Forall (fun r => 0 <= rel_t r) (smoothFrom tn prevTime rest).
Proof.
  intros Hpos Hle. induction rest as [|r rest IH]; intros prevTime Hprev; [constructor|].
  cbn [smoothFrom]. destruct (clampAfter_gap tn prevTime r Hle) as (Hlo & _ & _).
  constructor; [lra|]. apply IH. lra.
Qed.

Lemma schedule_nonneg (tn : tuning) (evs : list event) :
  0 < minTimeBetweenNotes tn ->
  minTimeBetweenNotes tn <= maxTimeBetweenNotes tn ->
  Forall (fun r => 0 <= rel_t r) (schedule tn evs).
Proof.
  intros Hpos Hle. unfold schedule, smooth.
  destruct (relativeTimes (noteEvents evs)) as [|r0 rest] eqn:E; [constructor|].
  assert (H0 : 0 <= rel_t r0).
  { unfold relativeTimes in E. destruct (noteEvents evs) as [|first nes]; [discriminate E|].
    cbn [map] in E. injection E as <- _. cbn [rel_t]. apply Q.le_max_l. }
  constructor; [exact H0|]. apply smoothFrom_nonneg; assumption.
Qed.

Lemma totalDurOf_pos (rel : list relEvent) :
  Forall (fun r => 0 <= rel_t r) rel -> 0 < totalDurOf rel.
Proof.
  intros H. unfold totalDurOf. destruct (last rel) as [r|] eqn:E; [|reflexivity].
  apply last_Some_elem_of in E. rewrite Forall_forall in H. specialize (H r E).
  cbn beta in H. lra.
Qed.

Lemma length_schedule (tn : tuning) (evs : list event) :
  length (schedule tn evs) = length (noteEvents evs).
Proof.
  unfold schedule, smooth.
  rewrite <- (relativeTimes_events (noteEvents evs)) at 2.
  destruct (relativeTimes (noteEvents evs)) as [|r0 rest]; [reflexivity|].
  cbn [length map]. f_equal.
  rewrite <- (length_map rel_event), smoothFrom_events, length_map. reflexivity.
Qed.

Lemma length_path_le (geo : sheetGeometry) (evs : list event) (points : list position) :
  buildMotionPathFromEvents geo evs = Some points ->
  (length points <= length (noteEvents evs))%nat.
Proof.
  unfold buildMotionPathFromEvents, noteEvents.
  set (pts := map _ _). intros H.
  assert (E : points = pts) by (destruct pts; [discriminate H | congruence]).
  rewrite E. unfold pts. rewrite length_map. clear.
  induction evs as [|e evs IH]; [reflexivity|].
  rewrite !filter_cons.
  destruct (decide (truthy (ev_note e) = true /\ ev_char e <> newline)) as [[Hn _]|Hn].
  - rewrite decide_True by exact Hn. cbn [length]. lia.
  - destruct (decide (truthy (ev_note e) = true)); cbn [length]; lia.
Qed.

Lemma keyframesOf_at (rel : list relEvent) (points : list position) (i : nat)
    (kf : keyframe) :
  0 < totalDurOf rel ->
  (length points <= length rel)%nat ->
  keyframesOf rel points !! i = Some kf ->
  exists r, rel !! i = Some r /\ kf_t kf = rel_t r / totalDurOf rel.
Proof.
  intros Htot Hlen H. unfold keyframesOf in H. rewrite list_lookup_imap in H.
  destruct (points !! i) as [p|] eqn:Hp; [|discriminate H].
  cbn [fmap option_fmap option_map] in H. injection H as <-.
  assert (Hi : (i < length rel)%nat).
  { apply lookup_lt_Some in Hp. lia. }
  destruct (lookup_lt_is_Some_2 rel i Hi) as [r Hr].
  exists r. split; [exact Hr|]. cbn [kf_t]. unfold keyframeTime. rewrite Hr.
  cbn [mbind option_bind]. unfold jsdiv.
  destruct (Qeq_dec (totalDurOf rel) 0) as [E|_]; [lra | reflexivity].
Qed.

Lemma segmentsOf_at (hypot : Q -> Q -> Q) (tn : tuning) (s totalDur : Q)
    (kfs : list keyframe) :
  forall (i : nat) (sg : segment),
    segmentsOf hypot tn s totalDur kfs !! i = Some sg ->
    exists a b,
      kfs !! i = Some a /\ kfs !! S i = Some b
      /\ sg = segmentBetween hypot tn s totalDur a b.
Proof.
  induction kfs as [|a [|b rest] IH]; intros i sg H; try discriminate H.
  cbn [segmentsOf] in H. destruct i as [|i].
  - injection H as <-. exists a, b. repeat split; reflexivity.
  - cbn [lookup list_lookup] in H. destruct (IH i sg H) as (a' & b' & Ha & Hb & E).
    exists a', b'. repeat split; assumption.
Qed.

(** The keyframes of the timeline take their times from the schedule.
    With thresholds [0 < min <= max], the total duration is positive and
    the keyframes of the [i]-th segment carry the times of the [i]-th and
    the next note of the schedule over the total duration: neither the
    index fallback [i / (points.length - 1) * lastT] nor the fallback for a
    non-finite quotient is ever taken. *)
Theorem keyframe_times_from_schedule (hypot : Q -> Q -> Q) (tn : tuning)
    (playhead : option preset) (geo : sheetGeometry) (evs : list event) :
  0 < minTimeBetweenNotes tn ->
  minTimeBetweenNotes tn <= maxTimeBetweenNotes tn ->
  let rel := schedule tn evs in
  let segs := playbackSegments hypot tn playhead geo evs in
  0 < totalDurOf rel
  /\ forall i sg,
       segs !! i = Some sg ->
       exists r0 r1,
         rel !! i = Some r0 /\ rel !! S i = Some r1
         /\ kf_t (seg_from sg) = rel_t r0 / totalDurOf rel
         /\ kf_t (seg_to sg) = rel_t r1 / totalDurOf rel.
Proof.
  intros Hpos Hle rel segs.
  pose proof (schedule_nonneg tn evs Hpos Hle) as Hnn. fold rel in Hnn.
  pose proof (totalDurOf_pos rel Hnn) as Htot.
  split; [exact Htot|].
  intros i sg H. unfold segs, playbackSegments in H.
  destruct (noteEvents evs) as [|e0 nes] eqn:Hnotes; [discriminate H|].
  destruct (buildMotionPathFromEvents geo evs) as [points|] eqn:Hpath; [|discriminate H].
  fold rel in H.
  assert (Hlen : (length points <= length rel)%nat).
  { unfold rel. rewrite length_schedule. apply (length_path_le geo). exact Hpath. }
  destruct (segmentsOf_at _ _ _ _ _ i sg H) as (a & b & Ha & Hb & ->).
  destruct (keyframesOf_at rel points i a Htot Hlen Ha) as (r0 & Hr0 & Eta).
  destruct (keyframesOf_at rel points (S i) b Htot Hlen Hb) as (r1 & Hr1 & Etb).
  exists r0, r1. split; [exact Hr0|]. split; [exact Hr1|].
  unfold segmentBetween. cbn [seg_from seg_to].
  split; [exact Eta | exact Etb].
Qed.

Lemma keyframe_times_from_schedule_witness :
  let rel := schedule playbackTuning farEvents in
  let segs := playbackSegments hypotMicro playbackTuning (playheadPresets !! "kitten")
                               sheetOrigin farEvents in
  length segs = 1%nat
  /\ 0 < totalDurOf rel
  /\ forall i sg,
       segs !! i = Some sg ->
       exists r0 r1,
         rel !! i = Some r0 /\ rel !! S i = Some r1
         /\ kf_t (seg_from sg) = rel_t r0 / totalDurOf rel
         /\ kf_t (seg_to sg) = rel_t r1 / totalDurOf rel.
Proof.
  cbv zeta. split; [vm_compute; reflexivity|].
  apply (keyframe_times_from_schedule hypotMicro playbackTuning (playheadPresets !! "kitten")
           sheetOrigin farEvents).
  - reflexivity.
  - discriminate.
Defined.

(** The arc between two letters always rises.  When [arcLiftMin <=
    arcLiftMax], the lift lies between the two, it is the scaled distance
    [|a.x - b.x| * arcLiftFactor] whenever that lies between them, and the
    control point is midway between the ends and at least [arcLiftMin]
    above the higher of them (smaller [y] is higher on the screen). *)
Theorem arc_rises (tn : tuning) (a b : keyframe) :
  arcLiftMin tn <= arcLiftMax tn ->
  let cp := arcControl tn a b in
  let scaled := Qabs (kf_x a - kf_x b) * arcLiftFactor tn in
  arcLiftMin tn <= arcLift tn a b /\ arcLift tn a b <= arcLiftMax tn
  /\ (arcLiftMin tn <= scaled -> scaled <= arcLiftMax tn -> arcLift tn a b == scaled)
  /\ pos_y cp <= kf_y a - arcLiftMin tn /\ pos_y cp <= kf_y b - arcLiftMin tn
  /\ Qmin (kf_y a) (kf_y b) - arcLiftMax tn <= pos_y cp
  /\ Qmin (kf_x a) (kf_x b) <= pos_x cp /\ pos_x cp <= Qmax (kf_x a) (kf_x b).
Proof.
  intros Hle cp scaled. subst cp. unfold arcControl, arcLift. fold scaled.
  cbn [pos_x pos_y].
  assert (Hlift : arcLiftMin tn <= Qmax (arcLiftMin tn) (Qmin (arcLiftMax tn) scaled)
                  /\ Qmax (arcLiftMin tn) (Qmin (arcLiftMax tn) scaled) <= arcLiftMax tn).
  { split; [apply Q.le_max_l|]. apply Q.max_lub; [exact Hle | apply Q.le_min_l]. }
  destruct Hlift as [Hlo Hhi].
  pose proof (Q.le_min_l (kf_y a) (kf_y b)) as Hya.
  pose proof (Q.le_min_r (kf_y a) (kf_y b)) as Hyb.
  split; [exact Hlo|]. split; [exact Hhi|]. split.
  { intros H1 H2. rewrite Q.min_r by exact H2. apply Q.max_r. exact H1. }
  split; [lra|]. split; [lra|]. split; [lra|].
  assert (E : (kf_x a + kf_x b) / 2 == (kf_x a + kf_x b) * (1 # 2)) by reflexivity.
  rewrite E.
  destruct (Q.min_spec (kf_x a) (kf_x b)) as [[H1 ->]|[H1 ->]];
    destruct (Q.max_spec (kf_x a) (kf_x b)) as [[H2 ->]|[H2 ->]]; split; lra.
Qed.

Lemma arc_rises_witness :
  let a := mkKeyframe 32 40 0 in
  let b := mkKeyframe 232 73.6 0.5 in
  let cp := arcControl playbackTuning a b in
  let scaled := Qabs (kf_x a - kf_x b) * arcLiftFactor playbackTuning in
  arcLiftMin playbackTuning <= arcLift playbackTuning a b
  /\ arcLift playbackTuning a b <= arcLiftMax playbackTuning
  /\ (arcLiftMin playbackTuning <= scaled -> scaled <= arcLiftMax playbackTuning ->
      arcLift playbackTuning a b == scaled)
  /\ pos_y cp <= kf_y a - arcLiftMin playbackTuning
  /\ pos_y cp <= kf_y b - arcLiftMin playbackTuning
  /\ Qmin (kf_y a) (kf_y b) - arcLiftMax playbackTuning <= pos_y cp
  /\ Qmin (kf_x a) (kf_x b) <= pos_x cp /\ pos_x cp <= Qmax (kf_x a) (kf_x b).
Proof.
  apply (arc_rises playbackTuning (mkKeyframe 32 40 0) (mkKeyframe 232 73.6 0.5)).
  discriminate.
Defined.

(** ** Lines, heights and drops *)

Lemma b64_lineAdjust_total (a : alignment) (W : Q) (isLast : bool) (ln : line) :
  exists s g, Binary64.lineAdjust a W isLast ln = Some (s, g).
Proof.
  destruct a; unfold Binary64.lineAdjust.
  - eexists _, _. reflexivity.
  - rewrite div64_nonzero by (intros E; discriminate E). eexists _, _. reflexivity.
  - eexists _, _. reflexivity.
  - destruct (negb isLast && bool_decide (1 < length (glyphs ln))%nat) eqn:Hj.
    + apply andb_prop in Hj as [_ Hn]. apply bool_decide_eq_true in Hn.
      pose proof (count_gt_1 _ Hn) as Hc.
      assert (Hm : 0 < sub64 (inject_Z (Z.of_nat (length (glyphs ln)))) 1).
      { apply round64_pos. unfold count in Hc. lra. }
      rewrite div64_nonzero by lra. eexists _, _. reflexivity.
    + eexists _, _. reflexivity.
Qed.

Lemma b64_placeGlyphs_y (s y g : Q) (gs : list glyph) :
  Forall (fun p => pos_y p = y) (Binary64.placeGlyphs s y g gs)
  /\ length (Binary64.placeGlyphs s y g gs) = length gs.
Proof.
  revert s. induction gs as [|g0 gs IH]; intros s; [split; [constructor | reflexivity]|].
  cbn [Binary64.placeGlyphs length]. destruct (IH (add64 s (add64 (g_width g0)
      (match gs with [] => 0 | _ :: _ => g end)))) as [H1 H2].
  split; [constructor; [reflexivity | exact H1] | rewrite H2; reflexivity].
Qed.

Lemma b64_placeLine_y (a : alignment) (W : Q) (isLast : bool) (y : Q) (ln : line) :
  exists ps,
    Binary64.placeLine a W isLast y ln = Some ps
    /\ Forall (fun p => pos_y p = y) ps /\ length ps = length (glyphs ln).
Proof.
  unfold Binary64.placeLine. destruct (glyphs ln) as [|g gs] eqn:E.
  - exists []. split; [reflexivity|]. split; [constructor | reflexivity].
  - destruct (b64_lineAdjust_total a W isLast ln) as (s & g0 & ->).
    cbn [mbind option_bind fst snd]. eexists. split; [reflexivity|].
    apply (b64_placeGlyphs_y s y g0 (g :: gs)).
Qed.

Lemma b64_placeLines_total (a : alignment) (W lh : Q) (ls : list line) :
  forall y,
  exists ps, Binary64.placeLines a W lh ls y = Some ps /\
             length ps = length (concat (map glyphs ls)).
Proof.
  induction ls as [|l ls IH]; intros y; cbn [Binary64.placeLines].
  - exists []. split; reflexivity.
  - destruct (b64_placeLine_y a W (match ls with [] => true | _ :: _ => false end) y l)
      as (ps0 & -> & _ & Hl0).
    destruct (IH (add64 y lh)) as (ps & -> & Hlen).
    eexists. split; [reflexivity|].
    cbn [map concat]. rewrite !length_app, Hl0, Hlen. reflexivity.
Qed.

Lemma b64_placeLines_stack (a : alignment) (W lh : Q) (ls1 : list line) (ln : line)
    (ls2 : list line) :
  forall y0,
  exists ps1 ps ps2,
    Binary64.placeLines a W lh (ls1 ++ ln :: ls2) y0 = Some (ps1 ++ ps ++ ps2)
    /\ length ps1 = length (concat (map glyphs ls1))
    /\ length ps = length (glyphs ln)
    /\ Forall (fun p => pos_y p = Nat.iter (length ls1) (fun y => add64 y lh) y0) ps.
Proof.
  induction ls1 as [|l0 ls1 IH]; intros y0.
  - cbn [app Binary64.placeLines length Nat.iter nat_rect].
    destruct (b64_placeLine_y a W (match ls2 with [] => true | _ :: _ => false end) y0 ln)
      as (ps0 & -> & Hy & Hl).
    destruct (b64_placeLines_total a W lh ls2 (add64 y0 lh)) as (psr & -> & _).
    exists [], ps0, psr. cbn [mbind option_bind app length map concat].
    split; [reflexivity|]. split; [reflexivity|]. split; [exact Hl | exact Hy].
  - cbn [app Binary64.placeLines].
    destruct (IH (add64 y0 lh)) as (ps1 & ps & ps2 & Hall & Hlen & Hl & Hy).
    destruct (b64_placeLine_y a W
                (match ls1 ++ ln :: ls2 with [] => true | _ :: _ => false end) y0 l0)
      as (ps0 & -> & _ & Hl0).
    exists (ps0 ++ ps1), ps, ps2.
    rewrite Hall. cbn [mbind option_bind].
    split; [rewrite <- app_assoc; reflexivity|].
    split; [cbn [map concat]; rewrite !length_app, Hl0, Hlen; reflexivity|].
    split; [exact Hl|].
    eapply Forall_impl; [exact Hy|]. intros p Hp. cbn beta in Hp |- *. rewrite Hp.
    cbn [length]. rewrite Nat.iter_succ_r. reflexivity.
Qed.

(** The [y] reached after [i] rounded additions of a non-negative line
    height is [i] line heights up to [i] roundings. *)
Lemma lineTop_near (lh : Q) (i : nat) :
  0 <= lh ->
  0 <= lineTop lh i
  /\ lineTop lh i <= roundingSlack i * (inject_Z (Z.of_nat i) * lh)
  /\ inject_Z (Z.of_nat i) * lh <= roundingSlack i * lineTop lh i.
Proof.
  intros Hlh. induction i as [|i (H0 & H1 & H2)].
  - unfold lineTop. cbn [Nat.iter nat_rect roundingSlack].
    change (inject_Z (Z.of_nat 0)) with 0.
    split; [lra|]. split; lra.
  - change (lineTop lh (S i)) with (add64 (lineTop lh i) lh). cbn [roundingSlack].
    set (y := lineTop lh i) in *.
    pose proof (roundingSlack_ge_1 i) as Hs. pose proof roundingFactor_gt_1 as Hf.
    set (s := roundingSlack i) in *. set (f := roundingFactor) in *.
    assert (Hn : inject_Z (Z.of_nat (S i)) == inject_Z (Z.of_nat i) + 1).
    { rewrite Nat2Z.inj_succ, <- Z.add_1_r, inject_Z_plus. reflexivity. }
    assert (Hi : 0 <= inject_Z (Z.of_nat i)).
    { change 0 with (inject_Z 0). rewrite <- Zle_Qle. lia. }
    set (k := inject_Z (Z.of_nat i)) in *.
    assert (Hk : 0 <= k * lh) by (apply Qmult_le_0_compat; lra).
    pose proof (round64_nonneg (y + lh) ltac:(lra)) as R0.
    pose proof (round64_le_factor (y + lh) ltac:(lra)) as R1.
    pose proof (le_factor_round64 (y + lh) ltac:(lra)) as R2.
    fold (add64 y lh) in R0, R1, R2. fold f in R1, R2. set (y' := add64 y lh) in *.
    rewrite Hn.
    split; [exact R0|]. split.
    + assert (A1 : f * (y + lh) <= f * (s * (k * lh) + lh)).
      { apply Qmult_le_compat_l_nonneg; lra. }
      assert (A2 : lh <= s * lh).
      { rewrite <- (Qmult_1_l lh) at 1. apply Qmult_le_compat_r; lra. }
      assert (A3 : f * (s * (k * lh) + lh) <= f * (s * (k * lh) + s * lh)).
      { apply Qmult_le_compat_l_nonneg; lra. }
      assert (A4 : f * (s * (k * lh) + s * lh) == f * s * ((k + 1) * lh)) by ring.
      lra.
    + assert (B1 : k * lh + lh <= s * y + lh) by lra.
      assert (B2 : lh <= s * lh).
      { rewrite <- (Qmult_1_l lh) at 1. apply Qmult_le_compat_r; lra. }
      assert (B3 : s * (y + lh) <= s * (f * y')).
      { apply Qmult_le_compat_l_nonneg; lra. }
      assert (B4 : s * (f * y') == f * s * y') by ring.
      assert (B5 : (k + 1) * lh == k * lh + lh) by ring.
      assert (B6 : s * (y + lh) == s * y + s * lh) by ring.
      lra.
Qed.

(** Lines are stacked from the top.  Under every alignment, the glyphs of
    the line at index [i] of the lines the layout builds (a line ends at a
    newline or at a wrap; an empty line counts) all sit at the [y] reached
    after [i] additions of the line height, each rounded to a double; with
    a non-negative line height that [y] is [i * lineHeight] up to [i]
    roundings. *)
Theorem layout_lines_stack (c : container) (evs : list event) (a : alignment)
    (ls1 : list line) (ln : line) (ls2 : list line) :
  Binary64.buildLines c evs = ls1 ++ ln :: ls2 ->
  let lh := Binary64.lineHeightOf c in
  let i := length ls1 in
  exists ps1 ps ps2,
    Binary64.layoutEventsAligned c evs a = Some (mkLayout (ps1 ++ ps ++ ps2) lh)
    /\ length ps1 = length (concat (map glyphs ls1))
    /\ length ps = length (glyphs ln)
    /\ Forall (fun p => pos_y p = lineTop lh i) ps
    /\ (0 <= lh ->
        lineTop lh i <= roundingSlack i * (inject_Z (Z.of_nat i) * lh)
        /\ inject_Z (Z.of_nat i) * lh <= roundingSlack i * lineTop lh i).
Proof.
  intros Hls lh i.
  destruct (b64_placeLines_stack a (rectWidth c) lh ls1 ln ls2 0)
    as (ps1 & ps & ps2 & Hall & Hlen & Hl & Hy).
  exists ps1, ps, ps2. unfold Binary64.layoutEventsAligned. rewrite Hls. fold lh.
  rewrite Hall.
  split; [reflexivity|]. split; [exact Hlen|]. split; [exact Hl|].
  split; [exact Hy|].
  intros Hlh. destruct (lineTop_near lh i Hlh) as (_ & H1 & H2). split; assumption.
Qed.

Lemma layout_lines_stack_witness :
  let lh := Binary64.lineHeightOf (sampleBox 25) in
  exists ps1 ps ps2,
    Binary64.layoutEventsAligned (sampleBox 25) newlineThenA AlignCenter
    = Some (mkLayout (ps1 ++ ps ++ ps2) lh)
    /\ length ps1 = 0%nat /\ length ps = 1%nat
    /\ Forall (fun p => pos_y p = lineTop lh 1) ps.
Proof.
  cbv zeta.
  destruct (layout_lines_stack (sampleBox 25) newlineThenA AlignCenter
           [mkLine [] 0] (mkLine [mkGlyph "a" (round64 (10 + 0))] (round64 (0 + round64 (10 + 0)))) [])
    as (ps1 & ps & ps2 & H1 & H2 & H3 & H4 & _).
  - reflexivity.
  - exists ps1, ps, ps2. split; [exact H1|]. split; [exact H2|]. split; [exact H3 | exact H4].
Defined.

(** At font size 24 the line height is [33.599999999999994] and ten
    additions of it give [336], which is not ten times the line height
    ([335.99999999999994] as a double). *)
Lemma tenth_line_off_grid :
  Binary64.lineHeightOf (sampleBox 25) == round64 33.599999999999994 /\
  lineTop (Binary64.lineHeightOf (sampleBox 25)) 10 == 336 /\
  mul64 10 (Binary64.lineHeightOf (sampleBox 25)) == round64 335.99999999999994 /\
  10 * Binary64.lineHeightOf (sampleBox 25) < 336.
Proof.
  split; [vm_compute; reflexivity|]. split; [vm_compute; reflexivity|].
  split; vm_compute; reflexivity.
Qed.

Lemma maxOf_ge (ys : list Q) :
  forall y0, y0 <= maxOf y0 ys /\ Forall (fun y => y <= maxOf y0 ys) ys.
Proof.
  unfold maxOf. induction ys as [|y ys IH]; intros y0; cbn [foldl].
  - split; [lra | constructor].
  - destruct (IH (Qmax y0 y)) as [H0 Hall].
    pose proof (Q.le_max_l y0 y). pose proof (Q.le_max_r y0 y).
    split; [lra|]. constructor; [lra | exact Hall].
Qed.

(** The container is made tall enough for what the layout places.  After
    [updateContainerHeight] on the positions of the aligned layout, when
    there is a letter the height is set, it is at least the minimum
    height, and every letter's line (its [y] plus one line height) ends at
    least 40 pixels above the bottom; with no letter nothing is changed. *)
Theorem container_holds_letters (c : container) (styleMinHeight height : option Q)
    (evs : list event) (a : alignment) :
  exists r,
    layoutEventsAligned c evs a = Some r
    /\ match positions r with
       | [] => updateContainerHeight c styleMinHeight height (positions r) = (height, false)
       | _ :: _ =>
           exists h scroll,
             updateContainerHeight c styleMinHeight height (positions r) = (Some h, scroll)
             /\ minHeightOf styleMinHeight <= h
             /\ Forall (fun p => pos_y p + lineHeightOf c + 40 <= h) (positions r)
       end.
Proof.
  destruct (layoutEventsAligned_total c evs a) as (ps & _ & Hlay & _).
  exists (mkLayout ps (lineHeightOf c)). split; [exact Hlay|]. cbn [positions].
  destruct ps as [|p rest]; [reflexivity|].
  unfold updateContainerHeight. cbn zeta. eexists _, _. split; [reflexivity|].
  destruct (maxOf_ge (map pos_y rest) (pos_y p)) as [H0 Hall].
  set (m := maxOf (pos_y p) (map pos_y rest)) in *.
  pose proof (Q.le_max_l (m + lineHeightOf c + 40) (minHeightOf styleMinHeight)) as Hreq.
  split; [apply Q.le_max_r|].
  constructor; [lra|]. rewrite Forall_forall in Hall. apply Forall_forall. intros q Hq.
  assert (Hy : pos_y q <= m).
  { apply Hall. apply list_elem_of_fmap. exists q. split; [reflexivity | exact Hq]. }
  lra.
Qed.

(** A new letter always drops from above the sheet and starts inside it.
    For the two values [r1] and [r2] of [Math.random()], both in [0, 1),
    the start of the letter is between 60 and 140 pixels above the top
    edge, and its left edge is not negative and, when the span fits the
    container, leaves room for the span. *)
Theorem letter_drops_from_above (c : container) (spanWidth targetLeft r1 r2 : Q) :
  0 <= r1 -> r1 < 1 -> 0 <= r2 -> r2 < 1 ->
  let start := letterStart c spanWidth targetLeft r1 r2 in
  let w := if Qeq_dec spanWidth 0 then 16 else spanWidth in
  -140 < pos_y start /\ pos_y start <= -60
  /\ 0 <= pos_x start
  /\ (w <= rectWidth c -> pos_x start + w <= rectWidth c)
  /\ (0 <= targetLeft -> targetLeft + w <= rectWidth c ->
      targetLeft - 140 <= pos_x start /\ pos_x start < targetLeft + 140).
Proof.
  intros H1 H1' H2 H2' start w. subst start. unfold letterStart, rand. fold w.
  cbn [pos_x pos_y].
  set (jitter := targetLeft + (r2 * (140 - -140) + -140)).
  assert (Hj : targetLeft - 140 <= jitter /\ jitter < targetLeft + 140)
    by (unfold jitter; split; lra).
  pose proof (Q.le_max_l 0 (Qmin (rectWidth c - w) jitter)) as Hx0.
  pose proof (Q.le_min_l (rectWidth c - w) jitter) as Hm1.
  pose proof (Q.le_min_r (rectWidth c - w) jitter) as Hm2.
  split; [lra|]. split; [lra|]. split; [exact Hx0|]. split.
  - intros Hfit.
    destruct (Q.max_spec 0 (Qmin (rectWidth c - w) jitter)) as [[_ ->]|[_ ->]]; lra.
  - intros Ht Hroom.
    destruct (Q.max_spec 0 (Qmin (rectWidth c - w) jitter)) as [[Hlt ->]|[Hge ->]];
      destruct (Q.min_spec (rectWidth c - w) jitter) as [[Hc E]|[Hc E]];
      rewrite ?E in *; split; lra.
Qed.

Lemma letter_drops_from_above_witness :
  let start := letterStart (sampleBox 100) 10 30 (1 # 2) (3 # 4) in
  let w := if Qeq_dec 10 0 then 16 else 10 in
  -140 < pos_y start /\ pos_y start <= -60
  /\ 0 <= pos_x start
  /\ (w <= rectWidth (sampleBox 100) -> pos_x start + w <= rectWidth (sampleBox 100))
  /\ (0 <= 30 -> 30 + w <= rectWidth (sampleBox 100) ->
      30 - 140 <= pos_x start /\ pos_x start < 30 + 140).
Proof.
  apply (letter_drops_from_above (sampleBox 100) 10 30 (1 # 2) (3 # 4));
    [discriminate | reflexivity | discriminate | reflexivity].
Defined.

(** ** Restored letters and the width of the container *)

(** Restored and imported letters wrap within the container too.  When no
    character has a negative advance, every letter that the loop of
    [restoreFromStorage] and [handleImportJson] creates in an empty
    container starts at a non-negative [x] and either ends within the
    width of the container or stands at the left edge (it is wider than
    the container, or the first of its line). *)
Theorem restored_letters_fit (c : container) (now : nat -> Q) (st : appState)
    (stored : list event) :
  (forall ch, 0 <= caretAdvance c ch) ->
  typedLetters st = [] ->
  Forall (letterFits c) (typedLetters (restoreEvents c now st stored)).
Proof.
  intros Hadv Hempty. unfold restoreEvents.
  set (st0 := mkApp [] (align st) (typedLetters st)
                    (if hasMeasurer (caretState st) then noCaret else caretState st)
                    (cursorVars st) (persisted st)).
  assert (H0 : (hasMeasurer (caretState st0) = true -> 0 <= caret_x (caretState st0))
               /\ Forall (letterFits c) (typedLetters st0)).
  { unfold st0. cbn [caretState typedLetters]. rewrite Hempty. split; [|constructor].
    destruct (hasMeasurer (caretState st)) eqn:E; cbn; [discriminate | congruence]. }
  clearbody st0. revert st0 H0.
  induction stored as [|ev stored IH]; intros st0 [Hk Hels]; [exact Hels|].
  cbn [foldl]. apply IH. apply restoreStep_fits; assumption.
Qed.

Lemma restored_letters_fit_witness :
  Forall (letterFits (sampleBox 25))
         (typedLetters (restoreEvents (sampleBox 25) frozenClock (freshApp AlignLeft)
                                      abcEvents)).
Proof.
  apply (restored_letters_fit (sampleBox 25) frozenClock (freshApp AlignLeft) abcEvents).
  - intros ch. unfold caretAdvance. cbn [sampleBox glyphWidth letterSpacingOf
      styleLetterSpacing]. cbn zeta.
    destruct (bool_decide (ch = newline)); [discriminate|].
    destruct (bool_decide (ch = space)); discriminate.
  - reflexivity.
Defined.

(** ** The two triggers of every note *)

Lemma flat_map_ext_elem {A B : Type} (f g : A -> list B) (l : list A) :
  (forall a, a ∈ l -> f a = g a) -> flat_map f l = flat_map g l.
Proof.
  induction l as [|a l IH]; intros H; [reflexivity|].
  cbn [flat_map]. rewrite (H a) by left. rewrite IH; [reflexivity|].
  intros b Hb. apply H. right. exact Hb.
Qed.

Lemma noteTriggers_snoc (r : nat) (l : list relEvent) (x : relEvent) :
  noteTriggers r (l ++ [x])
  = noteTriggers r l
    ++ (if truthy (ev_note (rel_event x))
        then [mkTrigger r (length l) (ev_note (rel_event x))] else []).
Proof.
  unfold noteTriggers. rewrite length_app. cbn [length].
  rewrite seq_app, flat_map_app. cbn [seq flat_map Nat.add]. rewrite app_nil_r. f_equal.
  - apply flat_map_ext_elem. intros i Hi. apply elem_of_seq in Hi.
    unfold playNoteAtIndex. rewrite lookup_app_l by lia. reflexivity.
  - unfold playNoteAtIndex. rewrite list_lookup_middle by reflexivity. reflexivity.
Qed.

Lemma partTriggers_snoc (r : nat) (l : list relEvent) (x : relEvent) :
  partTriggers (partOf r (l ++ [x]))
  = partTriggers (partOf r l)
    ++ (if truthy (ev_note (rel_event x))
        then [mkTrigger r (length l) (ev_note (rel_event x))] else []).
Proof.
  unfold partTriggers, partOf. cbn [part_entries part_run].
  rewrite map_app, imap_app, omap_app. f_equal.
  cbn [map imap omap snd]. rewrite length_map, Nat.add_0_r.
  destruct (truthy (ev_note (rel_event x))); reflexivity.
Qed.

Lemma partTriggers_notes (r : nat) (rel : list relEvent) :
  partTriggers (partOf r rel) = noteTriggers r rel.
Proof.
  induction rel as [|x l IH] using rev_ind; [reflexivity|].
  rewrite partTriggers_snoc, noteTriggers_snoc, IH. reflexivity.
Qed.

Lemma tweenTriggers_later (r : nat) (rel : list relEvent) (k : nat) :
  forall j,
    flat_map tweenTriggers (map (fun i => mkTween r i rel) (seq (S j) k))
    = flat_map (playNoteAtIndex r rel) (seq (S (S j)) k).
Proof.
  induction k as [|k IH]; intros j; [reflexivity|].
  cbn [seq map flat_map]. rewrite IH. reflexivity.
Qed.

Lemma tweenTriggers_notes (r : nat) (rel : list relEvent) (m : nat) :
  (1 <= m)%nat ->
  flat_map tweenTriggers (tweensOf r rel m)
  = flat_map (playNoteAtIndex r rel) (seq 0 (S m)).
Proof.
  intros Hm. destruct m as [|m]; [lia|]. unfold tweensOf.
  cbn [seq map flat_map]. rewrite tweenTriggers_later.
  unfold tweenTriggers at 1. cbn [tween_index tween_run tween_rel].
  rewrite <- app_assoc. reflexivity.
Qed.

Lemma noteTriggers_all (r : nat) (rel : list relEvent) :
  Forall (fun e => truthy (ev_note (rel_event e)) = true) rel ->
  length (noteTriggers r rel) = length rel
  /\ forall i e, rel !! i = Some e ->
                 noteTriggers r rel !! i = Some (mkTrigger r i (ev_note (rel_event e))).
Proof.
  induction rel as [|x l IH] using rev_ind; intros H.
  - split; [reflexivity | intros i e Hi; discriminate Hi].
  - apply Forall_app in H. destruct H as [Hl Hx]. apply Forall_cons in Hx.
    destruct Hx as [Hx _]. destruct (IH Hl) as [Hlen Hat].
    rewrite noteTriggers_snoc, Hx. split.
    + rewrite !length_app, Hlen. reflexivity.
    + intros i e Hi. destruct (decide (i < length l)%nat) as [Hlt|Hge].
      * rewrite lookup_app_l in Hi by exact Hlt.
        rewrite lookup_app_l by (rewrite Hlen; exact Hlt). apply Hat. exact Hi.
      * assert (Hi' : i = length l).
        { apply lookup_lt_Some in Hi. rewrite length_app in Hi. cbn in Hi. lia. }
        subst i. rewrite list_lookup_middle in Hi by reflexivity. injection Hi as <-.
        rewrite list_lookup_middle by (symmetry; exact Hlen). reflexivity.
Qed.

Lemma path_all_notes (geo : sheetGeometry) (evs : list event) :
  Forall (fun e => truthy (ev_note e) = true -> ev_char e <> newline) evs ->
  filter (fun e => truthy (ev_note e) = true /\ ev_char e <> newline) evs = noteEvents evs.
Proof.
  unfold noteEvents. induction evs as [|e evs IH]; intros H; [reflexivity|].
  apply Forall_cons in H. destruct H as [He H]. rewrite !filter_cons, (IH H).
  destruct (decide (truthy (ev_note e) = true)) as [Hn|Hn].
  - rewrite decide_True by (split; [exact Hn | apply He; exact Hn]). reflexivity.
  - rewrite decide_False by tauto. reflexivity.
Qed.

Lemma schedule_notes (tn : tuning) (evs : list event) :
  map rel_event (schedule tn evs) = noteEvents evs.
Proof.
  unfold schedule, smooth.
  rewrite <- (relativeTimes_events (noteEvents evs)) at 2.
  destruct (relativeTimes (noteEvents evs)) as [|r0 rest]; [reflexivity|].
  cbn [map]. rewrite smoothFrom_events. reflexivity.
Qed.

(** Every note is triggered twice in a run.  For a log with two or more
    note-bearing events, none of them a newline, a run of [playSequence]
    from the idle state leaves each note of the schedule with two pending
    triggers: one from the part attached to the transport, and one from
    the timeline of the ball ([onStart] of the first segment for the first
    note, [onComplete] of a segment for the note it lands on). *)
Theorem every_note_triggers_twice (tn : tuning) (geo : sheetGeometry) (evs : list event) :
  Forall (fun e => truthy (ev_note e) = true -> ev_char e <> newline) evs ->
  (2 <= length (noteEvents evs))%nat ->
  let rel := schedule tn evs in
  let fired := noteTriggers 0 rel in
  pendingTriggers (playSequence tn geo evs idlePlayback) = fired ++ fired
  /\ length fired = length (noteEvents evs)
  /\ forall i e, rel !! i = Some e ->
                 fired !! i = Some (mkTrigger 0 i (ev_note (rel_event e)))
                 /\ truthy (ev_note (rel_event e)) = true.
Proof.
  intros Hnl Hlen rel fired.
  assert (Hrel : map rel_event rel = noteEvents evs) by apply schedule_notes.
  assert (Hall : Forall (fun e => truthy (ev_note (rel_event e)) = true) rel).
  { apply Forall_forall. intros e He.
    assert (Hin : rel_event e ∈ noteEvents evs).
    { rewrite <- Hrel. apply list_elem_of_fmap. exists e. tauto. }
    unfold noteEvents in Hin. apply list_elem_of_filter in Hin. tauto. }
  assert (Hlrel : length rel = length (noteEvents evs)).
  { rewrite <- Hrel, length_map. reflexivity. }
  destruct (noteTriggers_all 0 rel Hall) as [Hfl Hat]. fold fired in Hfl, Hat.
  split; [|split; [rewrite Hfl; exact Hlrel|]].
  - unfold playSequence, buildMotionPathFromEvents.
    rewrite (path_all_notes geo evs Hnl).
    destruct (noteEvents evs) as [|e0 [|e1 nes]] eqn:Hnotes; [cbn in Hlen; lia..|].
    cbn [map]. fold rel. unfold pendingTriggers.
    cbn [stopPlayback idlePlayback run attachedParts ballTweens app flat_map length].
    rewrite app_nil_r, partTriggers_notes. fold fired. f_equal.
    rewrite length_map. cbn [Nat.sub].
    rewrite tweenTriggers_notes by lia. unfold fired, noteTriggers.
    rewrite Hlrel. reflexivity.
  - intros i e Hi. split; [apply Hat; exact Hi|].
    rewrite Forall_forall in Hall. apply Hall. apply list_elem_of_lookup. eauto.
Qed.

Lemma every_note_triggers_twice_witness :
  let rel := schedule playbackTuning abEvents in
  let fired := noteTriggers 0 rel in
  pendingTriggers (playSequence playbackTuning sheetOrigin abEvents idlePlayback)
  = fired ++ fired
  /\ length fired = length (noteEvents abEvents)
  /\ forall i e, rel !! i = Some e ->
                 fired !! i = Some (mkTrigger 0 i (ev_note (rel_event e)))
                 /\ truthy (ev_note (rel_event e)) = true.
Proof.
  apply (every_note_triggers_twice playbackTuning sheetOrigin abEvents).
  - repeat constructor; discriminate.
  - vm_compute. lia.
Defined.

(** ** Letters in step with the aligned layout *)






(** After a Clear the layout measures nothing: [a], Clear, [b], [c] in a
    container 100 px wide with glyphs 10 px wide leaves [b] and [c] on top
    of each other at the left edge, where the same keys without the Clear
    put [b] at 10 and [c] at 20. *)
Lemma letters_pile_up_after_clear :
  (exists pg,
     runMeasured (sampleBox 100) (initialPage, NotCreated)
       [KeyDown "a" 1; ClearClick; KeyDown "b" 2; KeyDown "c" 3]
     = Some (pg, Detached)
     /\ typedLetters (pageApp pg) = [mkLetter "b" 0 0; mkLetter "c" 0 0])
  /\ (exists pg,
        runMeasured (sampleBox 100) (initialPage, NotCreated)
          [KeyDown "a" 1; KeyDown "b" 2; KeyDown "c" 3]
        = Some (pg, Attached)
        /\ typedLetters (pageApp pg)
           = [mkLetter "a" 0 0; mkLetter "b" 10 0; mkLetter "c" 20 0]).
Proof.
  split; eexists; (split; [vm_compute; reflexivity | vm_compute; reflexivity]).
Qed.

(** ** Typing and the restore loop in the legacy revision *)

Lemma restoreStep_same (c : container) (now now' : nat -> Q) (st st' : appState)
    (ev ev' : event) :
  sameLayout st st' -> ev_char ev = ev_char ev' -> ev_note ev = ev_note ev' ->
  sameLayout (restoreStep c now st ev) (restoreStep c now' st' ev').
Proof.
  intros (Hl & Hk & He) Hc Hn. unfold sameLayout, restoreStep.
  rewrite <- Hk, <- Hc, <- Hn, <- Hl.
  destruct (nextCaretPosition c (caretState st) (ev_char ev)) as [pos k].
  cbn [persistToStorage typedLetters caretState events].
  split; [reflexivity|]. split; [reflexivity|].
  rewrite !map_app, He. reflexivity.
Qed.

Lemma restoreLoop_same (c : container) (now now' : nat -> Q) (evs evs' : list event) :
  Forall2 (fun e e' => ev_char e = ev_char e' /\ ev_note e = ev_note e') evs evs' ->
  forall st st',
    sameLayout st st' ->
    sameLayout (foldl (restoreStep c now) st evs) (foldl (restoreStep c now') st' evs').
Proof.
  induction 1 as [|e e' evs evs' [Hc Hn] _ IH]; intros st st' Hs; [exact Hs|].
  cbn [foldl]. apply IH. apply restoreStep_same; assumption.
Qed.

Lemma legacy_char_step (del : container -> appState -> appState) (c : container)
    (key : string) (now : Q) (pg : page) :
  keyChar key <> EmptyString ->
  pageApp (legacyHandleKeyDown del c key now pg)
  = restoreStep c (fun _ => now) (pageApp pg)
      (mkEvent (keyChar key) (noteForKey (keyToNote pg) (toLowerCase (keyChar key)))
               now 0 0)
  /\ keyToNote (legacyHandleKeyDown del c key now pg) = keyToNote pg.
Proof.
  intros Hk. unfold legacyHandleKeyDown.
  rewrite bool_decide_eq_false_2 by (apply keyChar_not_delete; exact Hk).
  rewrite bool_decide_eq_false_2 by exact Hk. cbn zeta.
  unfold restoreStep. cbn [ev_char ev_note].
  destruct (nextCaretPosition c (caretState (pageApp pg)) (keyChar key)) as [pos k].
  split; reflexivity.
Qed.

Lemma legacyType_same (del : container -> appState -> appState) (c : container)
    (now' : nat -> Q) (keys : list (string * Q)) :
  Forall (fun kq => keyChar kq.1 <> EmptyString) keys ->
  forall (pg : page) (st' : appState),
    sameLayout (pageApp pg) st' ->
    sameLayout (pageApp (legacyType del c keys pg))
               (foldl (restoreStep c now') st'
                      (map (fun kq => mkEvent (keyChar kq.1)
                                        (noteForKey (keyToNote pg) (toLowerCase (keyChar kq.1)))
                                        kq.2 0 0) keys)).
Proof.
  induction 1 as [|kq keys Hk _ IH]; intros pg st' Hs; [exact Hs|].
  unfold legacyType in *. cbn [foldl map].
  destruct (legacy_char_step del c kq.1 kq.2 pg Hk) as [Hstep Hmap].
  rewrite <- Hmap. apply IH. rewrite Hstep, Hmap.
  apply restoreStep_same; [exact Hs | reflexivity | reflexivity].
Qed.

Lemma same_chars_notes (l l' : list event) :
  map ev_char l = map ev_char l' -> map ev_note l = map ev_note l' ->
  Forall2 (fun e e' => ev_char e = ev_char e' /\ ev_note e = ev_note e') l l'.
Proof.
  revert l'. induction l as [|e l IH]; intros [|e' l'] Hc Hn; try discriminate Hc;
    [constructor|].
  cbn [map] in Hc, Hn. injection Hc as Hc Hcs. injection Hn as Hn Hns.
  constructor; [tauto | apply IH; assumption].
Qed.

Lemma eventPlace_chars_notes (l l' : list event) :
  map eventPlace l = map eventPlace l' ->
  map ev_char l = map ev_char l' /\ map ev_note l = map ev_note l'.
Proof.
  intros H. split.
  - apply (f_equal (map (fun t : string * jsnote * Q * Q => t.1.1.1))) in H.
    rewrite !map_map in H. exact H.
  - apply (f_equal (map (fun t : string * jsnote * Q * Q => t.1.1.2))) in H.
    rewrite !map_map in H. exact H.
Qed.

(** In the legacy revision the key handler and the loop of
    [restoreFromStorage] and [handleImportJson] place the characters
    alike.  When characters are typed on a fresh page (no Backspace) and
    the loop is then run over the events of the log in an empty container
    of the same metrics, the letters it creates are the typed ones at the
    same positions, the caret ends where it was, and the events are the
    same, times apart: both place every character by [nextCaretPosition].
    (In the feature-complete revision they do not, see C5.) *)
Theorem legacy_typing_matches_restore_loop (del : container -> appState -> appState)
    (c : container) (keys : list (string * Q)) (now' : nat -> Q) (pg : page)
    (al : alignment) :
  Forall (fun kq => keyChar kq.1 <> EmptyString) keys ->
  events (pageApp pg) = [] ->
  typedLetters (pageApp pg) = [] ->
  caretState (pageApp pg) = noCaret ->
  let typed := pageApp (legacyType del c keys pg) in
  let rebuilt := restoreEvents c now' (freshApp al) (events typed) in
  typedLetters rebuilt = typedLetters typed
  /\ caretState rebuilt = caretState typed
  /\ map eventPlace (events rebuilt) = map eventPlace (events typed).
Proof.
  intros Hkeys Hev Hels Hcar typed rebuilt.
  set (st0 := mkApp [] al [] noCaret None None).
  set (evs' := map (fun kq => mkEvent (keyChar kq.1)
                                (noteForKey (keyToNote pg) (toLowerCase (keyChar kq.1)))
                                kq.2 0 0) keys).
  assert (H0 : sameLayout (pageApp pg) st0).
  { unfold sameLayout, st0. cbn [typedLetters caretState events].
    rewrite Hev, Hels, Hcar. repeat split; reflexivity. }
  pose proof (legacyType_same del c now' keys Hkeys pg st0 H0) as Htyped.
  fold typed in Htyped. fold evs' in Htyped.
  set (T := foldl (restoreStep c now') st0 evs') in *.
  assert (Hcn : Forall2 (fun e e' => ev_char e = ev_char e' /\ ev_note e = ev_note e')
                        (events typed) evs').
  { destruct Htyped as (_ & _ & Hplace).
    destruct (eventPlace_chars_notes _ _ Hplace) as [Hc Hn].
    destruct (restoreLoop_spec c now' evs' st0) as (Hc' & Hn' & _).
    cbn zeta in Hc', Hn'. cbn [events map app st0] in Hc', Hn'.
    apply same_chars_notes; [rewrite Hc; exact Hc' | rewrite Hn; exact Hn']. }
  assert (Hre : sameLayout rebuilt T).
  { unfold rebuilt, restoreEvents. cbn [freshApp hasMeasurer noCaret caretState align
      typedLetters cursorVars persisted].
    apply restoreLoop_same; [exact Hcn|]. repeat split; reflexivity. }
  destruct Htyped as (H1 & H2 & H3). destruct Hre as (R1 & R2 & R3).
  split; [congruence|]. split; congruence.
Qed.

Lemma legacy_typing_matches_restore_loop_witness :
  let typed := pageApp (legacyType (fun _ st => st) (sampleBox 25)
                                   [("a", 1); ("b", 2); ("Enter", 3); ("c", 4)]
                                   initialPage) in
  let rebuilt := restoreEvents (sampleBox 25) frozenClock (freshApp AlignLeft)
                                (events typed) in
  typedLetters rebuilt = typedLetters typed
  /\ caretState rebuilt = caretState typed
  /\ map eventPlace (events rebuilt) = map eventPlace (events typed).
Proof.
  apply (legacy_typing_matches_restore_loop (fun _ st => st) (sampleBox 25)
           [("a", 1); ("b", 2); ("Enter", 3); ("c", 4)] frozenClock initialPage AlignLeft).
  - repeat constructor; discriminate.
  - reflexivity.
  - reflexivity.
  - reflexivity.
Defined.
